(** * cache-demo: the LRU and TTL cache engines and their facade

  A shallow embedding of [pkg/cache]: the two eviction engines
  ([lruCache], [ttlCache]), the mode selector of [CacheConfig] and the
  locking facade [Cache], followed by the properties the design document
  states about them. *)

From stdpp Require Import gmap list sorting.
From Stdlib Require Import ZArith.

Local Open Scope Z_scope.

(** ** Time

  A [time.Time] is taken as its count of nanoseconds since the Unix epoch
  (its range is far wider than int64, so the count is an unbounded
  integer); a [time.Duration] is an int64 count of nanoseconds.  The clock
  is not part of the engines: every reading of [time.Now()] is an
  argument of the operation that takes it. *)

Abbreviation Time := Z (only parsing).
Abbreviation Duration := Z (only parsing).

Module GoTime.

(** [t.Add(d)] *)
Definition Add (t : Time) (d : Duration) : Time := t + d.

(** [t.After(u)]: t is strictly later than u. *)
Definition After (t u : Time) : bool := u <? t.

(** The value an int64 holds for the integer [z]. *)
Definition wrap64 (z : Z) : Z := (z + 2 ^ 63) mod 2 ^ 64 - 2 ^ 63.

(** [t.UnixNano()]: the count of nanoseconds as an int64. *)
Definition UnixNano (t : Time) : Z := wrap64 t.

End GoTime.

Import GoTime.

(** ** Constants of cache.go *)

Definition maxDuration : Duration := 2 ^ 63 - 1.
Definition defaultDuration : Duration := 10.

(** One second, as a [time.Duration]. *)
Definition Second : Duration := 1000000000.

(** ** entry *)

Section Entry.
Context {Key V : Type}.

Record entry := Entry { key : Key; ttl : Time; value : V }.

End Entry.

Arguments entry : clear implicits.

(** ** The recency engine, [lruCache]

  [c.ll] is a [container/list] list of elements, each holding a pointer to
  an [entry]; [c.cache] maps a key to a pointer to its element.  An element
  is named by its address (a [positive]); [elems] is the store of the
  elements allocated so far, so that a write through the pointer found in
  the map is seen through the list as well.  The list itself is the
  sequence of the addresses of its elements, front first.  A nil map or
  list is [None].

  A Go pointer never dangles and the list is never nil while the map is
  not: where a definition below reads the store at an address and finds
  nothing, or calls a method of a nil list, it returns what it has; these
  branches are not taken in any state of [LRUSpec.inv], which holds of
  every state the operations lead to.  Keys are the values Go can hash and
  compare, hence [Countable]. *)

Module LRU.
Section engine.
Context `{Countable Key} {V : Type}.

Record lruCache := LruCache {
  maxEntries : Z;
  ll : option (list positive);
  cache : option (gmap Key positive);
  expiry : Duration;
  elems : gmap positive (entry Key V)
}.

(** *** container/list *)

Definition PushFront (e : positive) (l : list positive) : list positive :=
  e :: l.

(** [l.Remove(e)] unlinks [e] when it is an element of [l]. *)
Definition Remove (e : positive) (l : list positive) : list positive :=
  filter (λ x, x ≠ e) l.

(** [l.MoveToFront(e)] does nothing when [e] is not an element of [l]. *)
Definition MoveToFront (e : positive) (l : list positive) : list positive :=
  if decide (e ∈ l) then e :: Remove e l else l.

Definition Back (l : list positive) : option positive := last l.

Definition Len (l : list positive) : Z := Z.of_nat (length l).

(** The list and the map as read past the nil check of [c.cache]; the
    constructor, [add] and [clear] set both fields together. *)
Definition the_list (c : lruCache) : list positive := default [] (ll c).
Definition the_map (c : lruCache) : gmap Key positive := default ∅ (cache c).

(** *** Operations *)

Definition newLRU (maxEntries : Z) (expiry : Duration) : lruCache :=
  LruCache maxEntries (Some []) (Some ∅) expiry ∅.

Definition removeElement (c : lruCache) (e : positive) : lruCache :=
  let l := Remove e <$> ll c in
  match elems c !! e with
  | Some kv =>
      LruCache (maxEntries c) l (delete (key kv) <$> cache c) (expiry c) (elems c)
  | None => LruCache (maxEntries c) l (cache c) (expiry c) (elems c)
  end.

Definition remove (c : lruCache) (k : Key) : lruCache :=
  match cache c with
  | None => c
  | Some m =>
      match m !! k with
      | Some ele => removeElement c ele
      | None => c
      end
  end.

Definition removeOldest (c : lruCache) : lruCache :=
  match cache c with
  | None => c
  | Some _ =>
      match Back (the_list c) with
      | Some ele => removeElement c ele
      | None => c
      end
  end.

(** Step 1 of [add]: create the map and the list when the map is nil. *)
Definition init (c : lruCache) : lruCache :=
  match cache c with
  | None => LruCache (maxEntries c) (Some []) (Some ∅) (expiry c) (elems c)
  | Some _ => c
  end.

(** The address [PushFront] gives to the element it allocates. *)
Definition new_elem (c : lruCache) : positive := fresh (dom (elems c)).

Definition add (c : lruCache) (k : Key) (v : V) (now : Time) : lruCache :=
  let c := init c in
  match the_map c !! k with
  | Some ee =>
      LruCache (maxEntries c) (MoveToFront ee <$> ll c) (cache c) (expiry c)
        (alter (λ e, Entry (key e) (Add now (expiry c)) v) ee (elems c))
  | None =>
      let ele := new_elem c in
      let c1 :=
        LruCache (maxEntries c) (PushFront ele <$> ll c)
          (insert k ele <$> cache c) (expiry c)
          (<[ele := Entry k (Add now (expiry c)) v]> (elems c)) in
      if bool_decide (maxEntries c1 ≠ 0) && (maxEntries c1 <? Len (the_list c1))
      then removeOldest c1
      else c1
  end.

Definition size (c : lruCache) : Z :=
  match cache c with
  | None => 0
  | Some _ => Len (the_list c)
  end.

(** [get] returns the engine after the call and [Some v] for [(v, true)],
    [None] for [(nil, false)]. *)
Definition get (c : lruCache) (k : Key) (now : Time) : lruCache * option V :=
  match cache c with
  | None => (c, None)
  | Some m =>
      match m !! k with
      | Some ele =>
          match elems c !! ele with
          | Some e =>
              if After now (ttl e) then (remove c k, None)
              else (LruCache (maxEntries c) (MoveToFront ele <$> ll c)
                      (cache c) (expiry c) (elems c), Some (value e))
          | None => (c, None)
          end
      | None => (c, None)
      end
  end.

Definition clear (c : lruCache) : lruCache :=
  LruCache (maxEntries c) None None (expiry c) (elems c).

End engine.

Arguments lruCache Key {_ _} V.

End LRU.

(** ** The expiry engine, [ttlCache]

  [c.cache] maps a key to a pointer to its entry and nothing else holds
  that pointer, so a write through it is a write of the map at the key.
  [c.expiration] maps the int64 instant [ttl.UnixNano()] to a key.

  [get] and [add] read the clock more than once; an operation takes its
  readings as a [clock], the n-th reading being [clk n].

  The two maps are nil together; a write to a nil [c.expiration] next to a
  map [c.cache] that is not nil would panic in Go and is left undone here,
  in a state that [TTLSpec.inv] excludes. *)

Abbreviation clock := (nat → Z) (only parsing).

Module TTL.
Section engine.
Context `{Countable Key} {V : Type}.

(** The zero value of [Key], the nil interface, which reading a map at a
    missing instant yields. *)
Variable nilKey : Key.

Record ttlCache := TtlCache {
  maxEntries : Z;
  updateAgeOnGet : bool;
  cache : option (gmap Key (entry Key V));
  expiration : option (gmap Z Key);
  expiry : Duration
}.

Definition the_map (c : ttlCache) : gmap Key (entry Key V) :=
  default ∅ (cache c).
Definition the_index (c : ttlCache) : gmap Z Key :=
  default ∅ (expiration c).

(** [len(c.cache)] *)
Definition len (c : ttlCache) : Z := Z.of_nat (size (the_map c)).

Definition newTTLCache (maxEntries : Z) (expiry : Duration)
    (updateAgeOnGet : bool) : ttlCache :=
  TtlCache maxEntries updateAgeOnGet (Some ∅) (Some ∅) expiry.

Definition init (c : ttlCache) : ttlCache :=
  match cache c with
  | None =>
      TtlCache (maxEntries c) (updateAgeOnGet c) (Some ∅) (Some ∅) (expiry c)
  | Some _ => c
  end.

Definition changeTTL (c : ttlCache) (k : Key) (now : Time) : ttlCache :=
  match the_map c !! k with
  | Some ee =>
      let index := delete (UnixNano (ttl ee)) <$> expiration c in
      let ee := Entry (key ee) (Add now (expiry c)) (value ee) in
      let exp := UnixNano (ttl ee) in
      TtlCache (maxEntries c) (updateAgeOnGet c)
        (insert k ee <$> cache c) (insert exp k <$> index) (expiry c)
  | None => c
  end.

Definition removeElement (c : ttlCache) (e : entry Key V) : ttlCache :=
  TtlCache (maxEntries c) (updateAgeOnGet c)
    (delete (key e) <$> cache c)
    (delete (UnixNano (ttl e)) <$> expiration c) (expiry c).

Definition remove (c : ttlCache) (k : Key) : ttlCache :=
  match cache c with
  | None => c
  | Some m =>
      match m !! k with
      | Some ele => removeElement c ele
      | None => c
      end
  end.

(** [c.expiration[k]] *)
Definition registered (c : ttlCache) (k : Z) : Key :=
  default nilKey (the_index c !! k).

(** The loop of [purgeToCapacity] over the sorted instants; [i] counts
    the clock readings taken so far ([&&] reads the clock only when the
    size test holds). *)
Fixpoint purge_walk (clk : clock) (i : nat) (expKeys : list Z)
    (c : ttlCache) : ttlCache :=
  match expKeys with
  | [] => c
  | k :: rest =>
      if len c <=? maxEntries c then
        if UnixNano (clk i) <? k then c
        else purge_walk clk (S i) rest (remove c (registered c k))
      else purge_walk clk i rest (remove c (registered c k))
  end.

(** The instants of the index in ascending order. *)
Definition expKeys (c : ttlCache) : list Z :=
  merge_sort Z.le (map_to_list (the_index c)).*1.

Definition purgeToCapacity (c : ttlCache) (clk : clock) : ttlCache :=
  purge_walk clk 0 (expKeys c) c.

Definition add (c : ttlCache) (k : Key) (v : V) (clk : clock) : ttlCache :=
  let c := init c in
  match the_map c !! k with
  | Some ee =>
      let c1 :=
        TtlCache (maxEntries c) (updateAgeOnGet c)
          (insert k (Entry (key ee) (ttl ee) v) <$> cache c)
          (expiration c) (expiry c) in
      changeTTL c1 k (clk 0%nat)
  | None =>
      let ele := Entry k (Add (clk 0%nat) (expiry c)) v in
      let exp := UnixNano (ttl ele) in
      let c1 :=
        TtlCache (maxEntries c) (updateAgeOnGet c)
          (insert k ele <$> cache c) (insert exp k <$> expiration c)
          (expiry c) in
      if bool_decide (maxEntries c1 ≠ 0) && (maxEntries c1 <? len c1)
      then purgeToCapacity c1 (λ i, clk (S i))
      else c1
  end.

Definition size (c : ttlCache) : Z :=
  match cache c with
  | None => 0
  | Some m => Z.of_nat (size m)
  end.

Definition get (c : ttlCache) (k : Key) (clk : clock)
    : ttlCache * option V :=
  match cache c with
  | None => (c, None)
  | Some m =>
      match m !! k with
      | Some ele =>
          if After (clk 0%nat) (ttl ele) then (remove c k, None)
          else
            ((if updateAgeOnGet c then changeTTL c k (clk 1%nat) else c),
             Some (value ele))
      | None => (c, None)
      end
  end.

Definition clear (c : ttlCache) : ttlCache :=
  TtlCache (maxEntries c) (updateAgeOnGet c) None None (expiry c).

End engine.

Arguments ttlCache Key {_ _} V.

End TTL.

(** ** The facade and the mode selector (cache.go)

    What a call of the facade does besides changing the engine is recorded
    as a trace of events: taking and releasing the lock, delegating to the
    engine, running a hook.  A hook is a Go [func()]; [Hook] is the type of
    these closures. *)

Module Facade.
Section facade.
Context `{Countable Key} {V : Type} {Hook : Type}.

(** The interface [ICache]. *)
Class ICache (E : Type) := {
  add : E → Key → V → clock → E;
  size : E → Z;
  get : E → Key → clock → E * option V;
  remove : E → Key → E;
  clear : E → E
}.

#[global] Instance lru_ICache : ICache (LRU.lruCache Key V) := {
  add c k v clk := LRU.add c k v (clk 0%nat);
  size := LRU.size;
  get c k clk := LRU.get c k (clk 0%nat);
  remove := LRU.remove;
  clear := LRU.clear
}.

#[export] Instance ttl_ICache (nilKey : Key) : ICache (TTL.ttlCache Key V) := {
  add := TTL.add nilKey;
  size := TTL.size;
  get := TTL.get;
  remove := TTL.remove;
  clear := TTL.clear
}.

Inductive method := Madd | Msize | Mget | Mremove | Mclear.

Inductive event :=
  | Lock
  | Unlock
  | Delegate (m : method)
  | Call (f : Hook)
  | NilDereference.

Record ChangeCallbackFunc := {
  AddFunc : option Hook;
  GetFunc : option Hook;
  RemoveFunc : option Hook
}.

Definition OnAdd (c : ChangeCallbackFunc) : list event :=
  match AddFunc c with Some f => [Call f] | None => [] end.

Definition OnGet (c : ChangeCallbackFunc) : list event :=
  match GetFunc c with Some f => [Call f] | None => [] end.

Definition OnRemove (c : ChangeCallbackFunc) : list event :=
  match RemoveFunc c with Some f => [Call f] | None => [] end.

(** [Callbacks] has the interface type [ChangeCallbackHandler], which
    [ChangeCallbackFunc] implements; [None] is the nil interface value. *)
Record CacheConfig := {
  TTL : Duration;
  MaxEntries : Z;
  Callbacks : option ChangeCallbackFunc
}.

Definition NewCacheConfig (TTL : Duration) (maxEntries : Z)
    (callbacks : option ChangeCallbackFunc) : CacheConfig :=
  {| TTL := TTL; MaxEntries := maxEntries; Callbacks := callbacks |}.

(** The modes.  The two modes with a TTL write the default into the
    configuration they are called on, so they return it as well. *)
Definition LRUCacheMode (cc : CacheConfig) : LRU.lruCache Key V :=
  LRU.newLRU (MaxEntries cc) maxDuration.

Definition with_default_TTL (cc : CacheConfig) : CacheConfig :=
  if TTL cc =? 0
  then {| TTL := defaultDuration; MaxEntries := MaxEntries cc;
          Callbacks := Callbacks cc |}
  else cc.

Definition LRUWithTTLCacheMode (cc : CacheConfig)
    : CacheConfig * LRU.lruCache Key V :=
  let cc := with_default_TTL cc in
  (cc, LRU.newLRU (MaxEntries cc) (TTL cc)).

Definition TTLCacheMode (cc : CacheConfig) (updateAgeOnGet : bool)
    : CacheConfig * TTL.ttlCache Key V :=
  let cc := with_default_TTL cc in
  (cc, TTL.newTTLCache (MaxEntries cc) (TTL cc) updateAgeOnGet).

(** The struct [Cache]; its field [Cache] is [engine] here.  The mutex is
    free between calls, and a call's use of it shows in its trace. *)
Record Cache (E : Type) := {
  engine : E;
  Config : CacheConfig
}.
Arguments engine {E}.
Arguments Config {E}.

Definition NewCache {E} (cache : E) (config : CacheConfig) : Cache E :=
  {| engine := cache; Config := config |}.

(** Evaluating the method value [c.Config.Callbacks.OnAdd] of a nil
    interface panics; of a handler it is never nil, so the method is
    called. *)
Definition dispatch (cc : CacheConfig)
    (on : ChangeCallbackFunc → list event) : list event :=
  match Callbacks cc with
  | Some h => on h
  | None => [NilDereference]
  end.

Section ops.
Context {E : Type} `{!ICache E}.

Definition Add (c : Cache E) (k : Key) (v : V) (clk : clock)
    : Cache E * list event :=
  ({| engine := add (engine c) k v clk; Config := Config c |},
   [Lock; Delegate Madd] ++ dispatch (Config c) OnAdd ++ [Unlock]).

Definition Size (c : Cache E) : Z * list event :=
  (size (engine c), [Lock; Delegate Msize; Unlock]).

(** A panic in [Get] comes before the engine is asked. *)
Definition Get (c : Cache E) (k : Key) (clk : clock)
    : Cache E * option V * list event :=
  match Callbacks (Config c) with
  | Some h =>
      let r := get (engine c) k clk in
      ({| engine := r.1; Config := Config c |}, r.2,
       [Lock] ++ OnGet h ++ [Delegate Mget; Unlock])
  | None => (c, None, [Lock; NilDereference; Unlock])
  end.

Definition Remove (c : Cache E) (k : Key) : Cache E * list event :=
  ({| engine := remove (engine c) k; Config := Config c |},
   [Lock; Delegate Mremove] ++ dispatch (Config c) OnRemove ++ [Unlock]).

Definition Clear (c : Cache E) : Cache E * list event :=
  ({| engine := clear (engine c); Config := Config c |},
   [Lock; Delegate Mclear; Unlock]).

End ops.

(** The hooks a trace runs, in order. *)
Definition calls (tr : list event) : list Hook :=
  omap (λ e, match e with Call f => Some f | _ => None end) tr.

End facade.

Arguments ChangeCallbackFunc : clear implicits.
Arguments CacheConfig : clear implicits.
Arguments event : clear implicits.
Arguments Cache : clear implicits.
Arguments engine {Hook E}.
Arguments Config {Hook E}.

End Facade.

(** ** The facade methods, statement by statement

    [Facade] gives what a call does as a whole.  Here a method of [Cache]
    is the list of its statements, run on a frame that holds the mutex,
    the number of deferred [c.lock.Unlock()] calls, the engine and the
    value to return, so that what [defer], a panic and the mutex do is
    computed: a panic skips the rest of the body, the deferred calls run
    when the method ends either way, and [Lock] on a mutex that is held
    does not return ([sync.Mutex] is not reentrant).  An event is
    recorded with the state of the mutex at the time it happens. *)

Module Steps.
Section steps.
Context `{Countable Key} {V : Type} {Hook : Type}.
Context {E : Type} `{!Facade.ICache (Key:=Key) (V:=V) E}.

Inductive stmt :=
  | SLock
  | SDeferUnlock
  | SAdd (k : Key) (v : V) (clk : clock)
  | SSize
  | SGet (k : Key) (clk : clock)
  | SRemove (k : Key)
  | SClear
  | SOn (on : Facade.ChangeCallbackFunc Hook → list (Facade.event Hook)).

(** What the method has to return when it ends. *)
Inductive value :=
  | VNone
  | VSize (n : Z)
  | VGet (r : option V).

(** How a call ends: it returns, it panics, or it waits for the mutex
    for ever. *)
Inductive outcome := Returned | Panicked | Blocked.

Record frame := Frame {
  held : bool;
  deferred : nat;
  cache : E;
  ret : value;
  events : list (Facade.event Hook * bool)
}.

Definition emit (e : Facade.event Hook) (fr : frame) : frame :=
  Frame (held fr) (deferred fr) (cache fr) (ret fr)
    (events fr ++ [(e, held fr)]).

(** [c.lock.Unlock()]; no method unlocks a free mutex. *)
Definition unlock (fr : frame) : frame :=
  let fr := emit Facade.Unlock fr in
  Frame false (deferred fr) (cache fr) (ret fr) (events fr).

(** The deferred calls, run when the method returns or panics. *)
Definition unwind (fr : frame) : frame :=
  let fr' := Nat.iter (deferred fr) unlock fr in
  Frame (held fr') 0 (cache fr') (ret fr') (events fr').

Fixpoint run (cc : Facade.CacheConfig Hook) (body : list stmt) (fr : frame)
    : outcome * frame :=
  match body with
  | [] => (Returned, unwind fr)
  | SLock :: rest =>
      if held fr then (Blocked, fr)
      else
        let fr := emit Facade.Lock fr in
        run cc rest (Frame true (deferred fr) (cache fr) (ret fr) (events fr))
  | SDeferUnlock :: rest =>
      run cc rest
        (Frame (held fr) (S (deferred fr)) (cache fr) (ret fr) (events fr))
  | SAdd k v clk :: rest =>
      let fr := emit (Facade.Delegate Facade.Madd) fr in
      run cc rest
        (Frame (held fr) (deferred fr) (Facade.add (cache fr) k v clk)
           (ret fr) (events fr))
  | SSize :: rest =>
      let fr := emit (Facade.Delegate Facade.Msize) fr in
      run cc rest
        (Frame (held fr) (deferred fr) (cache fr)
           (VSize (Facade.size (cache fr))) (events fr))
  | SGet k clk :: rest =>
      let fr := emit (Facade.Delegate Facade.Mget) fr in
      let r := Facade.get (cache fr) k clk in
      run cc rest (Frame (held fr) (deferred fr) r.1 (VGet r.2) (events fr))
  | SRemove k :: rest =>
      let fr := emit (Facade.Delegate Facade.Mremove) fr in
      run cc rest
        (Frame (held fr) (deferred fr) (Facade.remove (cache fr) k)
           (ret fr) (events fr))
  | SClear :: rest =>
      let fr := emit (Facade.Delegate Facade.Mclear) fr in
      run cc rest
        (Frame (held fr) (deferred fr) (Facade.clear (cache fr))
           (ret fr) (events fr))
  | SOn on :: rest =>
      match Facade.Callbacks cc with
      | Some h => run cc rest (foldl (λ fr e, emit e fr) fr (on h))
      | None => (Panicked, unwind (emit Facade.NilDereference fr))
      end
  end.

(** The methods of cache.go. *)
Definition Add (k : Key) (v : V) (clk : clock) : list stmt :=
  [SLock; SDeferUnlock; SAdd k v clk; SOn Facade.OnAdd].

Definition Size : list stmt := [SLock; SDeferUnlock; SSize].

Definition Get (k : Key) (clk : clock) : list stmt :=
  [SLock; SDeferUnlock; SOn Facade.OnGet; SGet k clk].

Definition Remove (k : Key) : list stmt :=
  [SLock; SDeferUnlock; SRemove k; SOn Facade.OnRemove].

Definition Clear : list stmt := [SLock; SDeferUnlock; SClear].

(** A call of a method on [c], the mutex being free, or held as it is
    while another call on [c] is under way (within a hook, say). *)
Definition call (c : Facade.Cache Hook E) (busy : bool) (body : list stmt)
    : outcome * frame :=
  run (Facade.Config c) body (Frame busy 0 (Facade.engine c) VNone []).

End steps.

Arguments stmt Key V Hook : clear implicits.
Arguments frame V Hook E : clear implicits.
Arguments value V : clear implicits.

End Steps.

(** ** Vocabulary for the recency engine *)

Module LRUSpec.
Import LRU.
Section vocabulary.
Context `{Countable Key} {V : Type}.
Implicit Types (c : lruCache Key V) (k : Key) (v : V) (p : positive)
  (l : list positive) (h : gmap positive (entry Key V)).

(** The entries held by the elements [l], in the order of [l]. *)
Definition entries_of h l : list (entry Key V) := omap (λ p, h !! p) l.

(** The recency sequence: the entries of [c.ll], front first. *)
Definition contents c : list (entry Key V) := entries_of (elems c) (the_list c).

Definition keys c : list Key := key <$> contents c.

(** The representation invariant: the list and the map are nil together,
    an element is linked once, every linked element is allocated, and the
    map sends a key to exactly the linked element whose entry has this
    key. *)
Record inv c : Prop := {
  inv_paired : ll c = None ↔ cache c = None;
  inv_nodup : NoDup (the_list c);
  inv_alloc : ∀ p, p ∈ the_list c → is_Some (elems c !! p);
  inv_map : ∀ k p,
    the_map c !! k = Some p ↔ p ∈ the_list c ∧ key <$> elems c !! p = Some k
}.

(** The calls an engine receives, and the states they lead to from a
    constructed engine. *)
Inductive call :=
  | CAdd (k : Key) (v : V) (now : Time)
  | CGet (k : Key) (now : Time)
  | CRemove (k : Key)
  | CSize
  | CClear.

(** What a call returns: a value for [get], a count for [size]. *)
Inductive answer :=
  | AUnit
  | AGet (r : option V)
  | ASize (n : Z).

Definition exec c (o : call) : lruCache Key V * answer :=
  match o with
  | CAdd k v now => (add c k v now, AUnit)
  | CGet k now => let r := get c k now in (r.1, AGet r.2)
  | CRemove k => (remove c k, AUnit)
  | CSize => (c, ASize (size c))
  | CClear => (clear c, AUnit)
  end.

Fixpoint run c (os : list call) : list answer :=
  match os with
  | [] => []
  | o :: os => let r := exec c o in r.2 :: run r.1 os
  end.

Inductive reachable : lruCache Key V → Prop :=
  | reach_new maxEntries expiry : reachable (newLRU maxEntries expiry)
  | reach_exec c o : reachable c → reachable (exec c o).1.

(** Two engines with the same configuration and the same recency
    sequence, whatever the addresses of their elements. *)
Definition same c1 c2 : Prop :=
  maxEntries c1 = maxEntries c2 ∧ expiry c1 = expiry c2 ∧
  contents c1 = contents c2.

(** The recency sequence as a plain list, and the operations on it. *)
Definition without k (s : list (entry Key V)) : list (entry Key V) :=
  filter (λ e, key e ≠ k) s.

Definition find_key k (s : list (entry Key V)) : option (entry Key V) :=
  head (filter (λ e, key e = k) s).

Definition drop_last (s : list (entry Key V)) : list (entry Key V) :=
  take (length s - 1)%nat s.

Definition seq_add (maxEntries : Z) (expiry : Duration)
    (s : list (entry Key V)) k v (now : Time) : list (entry Key V) :=
  match find_key k s with
  | Some _ => Entry k (Add now expiry) v :: without k s
  | None =>
      let s' := Entry k (Add now expiry) v :: s in
      if bool_decide (maxEntries ≠ 0) && (maxEntries <? Z.of_nat (length s'))
      then drop_last s' else s'
  end.

Definition seq_get (s : list (entry Key V)) k (now : Time)
    : list (entry Key V) * option V :=
  match find_key k s with
  | Some e =>
      if After now (ttl e) then (without k s, None)
      else (e :: without k s, Some (value e))
  | None => (s, None)
  end.

End vocabulary.
End LRUSpec.

(** ** Vocabulary for the expiry engine *)

Module TTLSpec.
Import TTL.
Section vocabulary.
Context `{Countable Key} {V : Type} (nilKey : Key).
Implicit Types (c : ttlCache Key V) (k : Key) (v : V) (i : Z).

(** What holds of the two maps in every state the operations lead to: they
    are nil together, an entry is stored under its own key, and an instant
    of the index is the expiry instant of the entry of the key it
    registers. *)
Record inv c : Prop := {
  ttl_paired : cache c = None ↔ expiration c = None;
  ttl_keyed : ∀ k e, the_map c !! k = Some e → key e = k;
  ttl_sound : ∀ i k,
    the_index c !! i = Some k →
    ∃ e, the_map c !! k = Some e ∧ UnixNano (ttl e) = i
}.

(** Every entry of the primary store is registered at its own instant. *)
Definition complete c : Prop :=
  ∀ k e, the_map c !! k = Some e → the_index c !! UnixNano (ttl e) = Some k.

(** The invariant of the design document: each key of the primary store
    has exactly one instant in the index, that of its entry. *)
Definition indexed c : Prop :=
  inv c ∧
  ∀ k e, the_map c !! k = Some e →
    ∀ i, the_index c !! i = Some k ↔ i = UnixNano (ttl e).

(** The instant an entry written at the reading [now] is registered at. *)
Definition instant c (now : Time) : Z := UnixNano (Add now (expiry c)).

(** No key other than [k] is registered at the instant [i]. *)
Definition free_for c k i : Prop :=
  ∀ k', the_index c !! i = Some k' → k' = k.

(** A key of the primary store that no instant registers. *)
Definition orphan c k : Prop :=
  is_Some (the_map c !! k) ∧ ∀ i, the_index c !! i ≠ Some k.

Inductive call :=
  | CAdd (k : Key) (v : V) (clk : clock)
  | CGet (k : Key) (clk : clock)
  | CRemove (k : Key)
  | CSize
  | CClear.

Inductive answer :=
  | AUnit
  | AGet (r : option V)
  | ASize (n : Z).

Definition exec c (o : call) : ttlCache Key V * answer :=
  match o with
  | CAdd k v clk => (add nilKey c k v clk, AUnit)
  | CGet k clk => let r := get c k clk in (r.1, AGet r.2)
  | CRemove k => (remove c k, AUnit)
  | CSize => (c, ASize (size c))
  | CClear => (clear c, AUnit)
  end.

Fixpoint run c (os : list call) : list answer :=
  match os with
  | [] => []
  | o :: os => let r := exec c o in r.2 :: run r.1 os
  end.

Inductive reachable : ttlCache Key V → Prop :=
  | reach_new maxEntries expiry updateAgeOnGet :
      reachable (newTTLCache maxEntries expiry updateAgeOnGet)
  | reach_exec c o : reachable c → reachable (exec c o).1.

(** Evicting the keys registered at the instants [ks], one after the
    other. *)
Definition evict_all c (ks : list Z) : ttlCache Key V :=
  foldl (λ c i, remove c (registered nilKey c i)) c ks.

(** The configuration of an engine, which no operation changes. *)
Definition params c : Z * bool * Z :=
  (maxEntries c, updateAgeOnGet c, expiry c).

(** Two engines that differ at most in a nil map standing for an empty
    one. *)
Definition same c1 c2 : Prop :=
  params c1 = params c2 ∧ the_map c1 = the_map c2 ∧
  the_index c1 = the_index c2.

(** The state of [add] after a new entry is stored and registered and
    before the capacity check. *)
Definition stored c k v (now : Time) : ttlCache Key V :=
  let c := init c in
  let ele := Entry k (Add now (expiry c)) v in
  TtlCache (maxEntries c) (updateAgeOnGet c)
    (insert k ele <$> cache c)
    (insert (UnixNano (ttl ele)) k <$> expiration c) (expiry c).

End vocabulary.
End TTLSpec.

(** ** Engines and runs used as examples *)

Module Examples.

(** Keys of the recency examples are integers, values too. *)
Definition now0 : Time := 1700000000 * Second.

Definition lru5 : LRU.lruCache Z Z := LRU.newLRU 5 maxDuration.

(** Insert the keys [ks] in order, the value of key [k] being [10 * k]. *)
Definition fill (c : LRU.lruCache Z Z) (ks : list Z) : LRU.lruCache Z Z :=
  foldl (λ c k, LRU.add c k (10 * k) now0) c ks.

(** Keys of the expiry examples: [None] is the nil interface, [Some n] the
    integer [n]. *)
Definition ttl2 : TTL.ttlCache (option Z) Z := TTL.newTTLCache 2 Second false.

Definition at_time (t : Time) : clock := λ _, t.

(** Two keys stored at the same reading of the clock. *)
Definition collided : TTL.ttlCache (option Z) Z :=
  TTL.add None
    (TTL.add None ttl2 (Some 1) 10 (at_time now0))
    (Some 2) 20 (at_time now0).

(** The hooks of the examples print a line each. *)
Inductive hook := PrintAdd | PrintGet | PrintRemove.

Definition callbacks : Facade.ChangeCallbackFunc hook :=
  {| Facade.AddFunc := Some PrintAdd;
     Facade.GetFunc := Some PrintGet;
     Facade.RemoveFunc := Some PrintRemove |}.

(** A configuration with no TTL set. *)
Definition config20 : Facade.CacheConfig hook :=
  Facade.NewCacheConfig 0 20 (Some callbacks).

Definition lruCache20 : Facade.Cache hook (LRU.lruCache Z Z) :=
  Facade.NewCache (Facade.LRUCacheMode config20) config20.

Definition lruWithTTL : LRU.lruCache Z Z :=
  (Facade.LRUWithTTLCacheMode config20).2.

Definition ttlCache20 : TTL.ttlCache (option Z) Z :=
  (Facade.TTLCacheMode config20 true).2.

End Examples.

(** ** Runs of calls *)

Module Runs.
Section runs.
Context `{Countable Key} {V : Type}.

(** The recency engine after the calls [os], first to last. *)
Definition lru_after (c : LRU.lruCache Key V)
    (os : list (LRUSpec.call (Key:=Key) (V:=V))) : LRU.lruCache Key V :=
  foldl (λ c o, (LRUSpec.exec c o).1) c os.

(** The clock readings from which a call computes an expiry time: [add]
    reads [time.Now()] once. *)
Definition lru_written_at (o : LRUSpec.call (Key:=Key) (V:=V)) : list Time :=
  match o with
  | LRUSpec.CAdd _ _ now => [now]
  | _ => []
  end.

(** The expiry engine after the calls [os]. *)
Definition ttl_after (nilKey : Key) (c : TTL.ttlCache Key V)
    (os : list (TTLSpec.call (Key:=Key) (V:=V))) : TTL.ttlCache Key V :=
  foldl (λ c o, (TTLSpec.exec nilKey c o).1) c os.

(** [add] computes the expiry time from its first reading, [get] (in
    [changeTTL]) from its second. *)
Definition ttl_written_at (o : TTLSpec.call (Key:=Key) (V:=V)) : list Time :=
  match o with
  | TTLSpec.CAdd _ _ clk => [clk 0%nat]
  | TTLSpec.CGet _ clk => [clk 1%nat]
  | _ => []
  end.

End runs.
End Runs.

(** * Properties of the recency engine *)

Module LRUFacts.
Import LRU LRUSpec.
Section facts.
Context `{Countable Key} {V : Type}.
Implicit Types (c : lruCache Key V) (k : Key) (v : V) (p q : positive)
  (l : list positive) (h : gmap positive (entry Key V))
  (s : list (entry Key V)).

(** ** The list primitives *)

Lemma elem_of_Remove p q l : q ∈ Remove p l ↔ q ∈ l ∧ q ≠ p.
Proof. unfold Remove. rewrite list_elem_of_filter. tauto. Qed.

Lemma NoDup_Remove p l : NoDup l → NoDup (Remove p l).
Proof. apply NoDup_filter. Qed.

Lemma Remove_absent p l : p ∉ l → Remove p l = l.
Proof.
  intros Hp. induction l as [|q l IH]; [done|].
  apply not_elem_of_cons in Hp as [Hne Hl].
  unfold Remove in *. rewrite filter_cons_True by congruence.
  by rewrite IH.
Qed.

Lemma Remove_snoc p l : p ∉ l → Remove p (l ++ [p]) = l.
Proof.
  intros Hp. unfold Remove. rewrite filter_app.
  fold (Remove p l). rewrite Remove_absent by done.
  rewrite filter_cons_False by (intros ?; congruence).
  by rewrite filter_nil, app_nil_r.
Qed.

Lemma MoveToFront_elem_of p q l : q ∈ MoveToFront p l ↔ q ∈ l.
Proof.
  unfold MoveToFront. case_decide as Hp; [|done].
  rewrite elem_of_cons, elem_of_Remove.
  destruct (decide (q = p)) as [->|]; intuition.
Qed.

Lemma NoDup_MoveToFront p l : NoDup l → NoDup (MoveToFront p l).
Proof.
  intros Hl. unfold MoveToFront. case_decide; [|done].
  apply NoDup_cons. split; [|by apply NoDup_Remove].
  rewrite elem_of_Remove. intros [_ []]; done.
Qed.

(** ** Entries of a list of elements *)

Lemma entries_of_cons h p l :
  entries_of h (p :: l) =
  match h !! p with Some e => e :: entries_of h l | None => entries_of h l end.
Proof. done. Qed.

Lemma entries_of_app h l1 l2 :
  entries_of h (l1 ++ l2) = entries_of h l1 ++ entries_of h l2.
Proof. apply omap_app. Qed.

Lemma entries_of_insert h p e l :
  p ∉ l → entries_of (<[p:=e]> h) l = entries_of h l.
Proof.
  intros Hp. apply list_omap_ext, Forall2_same_length_lookup_2; [done|].
  intros i q q' Hq Hq'. simplify_eq.
  rewrite lookup_insert_ne; [done|].
  intros ->. apply Hp. by eapply list_elem_of_lookup_2.
Qed.

Lemma entries_of_alter h (f : entry Key V → entry Key V) p l :
  p ∉ l → entries_of (alter f p h) l = entries_of h l.
Proof.
  intros Hp. apply list_omap_ext, Forall2_same_length_lookup_2; [done|].
  intros i q q' Hq Hq'. simplify_eq.
  rewrite lookup_alter_ne; [done|].
  intros ->. apply Hp. by eapply list_elem_of_lookup_2.
Qed.

Lemma length_entries_of h l :
  (∀ p, p ∈ l → is_Some (h !! p)) → length (entries_of h l) = length l.
Proof.
  induction l as [|p l IH]; intros Hl; [done|].
  rewrite entries_of_cons.
  destruct (Hl p) as [e ->]; [by left|].
  simpl. rewrite IH; [done|]. intros q Hq. apply Hl. by right.
Qed.

Lemma elem_of_entries_of h l e :
  e ∈ entries_of h l ↔ ∃ p, p ∈ l ∧ h !! p = Some e.
Proof. apply list_elem_of_omap. Qed.

(** Unlinking the one element that holds key [k] removes the entries with
    key [k]. *)
Lemma entries_of_Remove h p k l :
  (∀ q e, q ∈ l → h !! q = Some e → (key e = k ↔ q = p)) →
  entries_of h (Remove p l) = without k (entries_of h l).
Proof.
  induction l as [|q l IH]; intros Hl; [done|].
  assert (entries_of h (Remove p l) = without k (entries_of h l)) as IH'.
  { apply IH. intros q' e Hq'. apply Hl. by right. }
  rewrite entries_of_cons. unfold Remove, without in *.
  destruct (h !! q) as [e|] eqn:Hq.
  - pose proof (Hl q e (list_elem_of_here _ _) Hq) as Hk.
    destruct (decide (q = p)) as [->|Hne].
    + rewrite filter_cons_False by (intros ?; congruence).
      rewrite filter_cons_False by (intros ?; tauto). done.
    + rewrite !filter_cons_True by tauto.
      rewrite entries_of_cons, Hq. by f_equal.
  - destruct (decide (q = p)) as [->|Hne].
    + by rewrite filter_cons_False by (intros ?; congruence).
    + rewrite filter_cons_True by done.
      by rewrite entries_of_cons, Hq.
Qed.

Lemma without_absent k s : (∀ e, e ∈ s → key e ≠ k) → without k s = s.
Proof.
  induction s as [|e s IH]; intros Hs; [done|].
  unfold without in *. rewrite filter_cons_True by (apply Hs; by left).
  rewrite IH; [done|]. intros e' He'. apply Hs. by right.
Qed.

Lemma find_key_absent k s : (∀ e, e ∈ s → key e ≠ k) → find_key k s = None.
Proof.
  intros Hs. unfold find_key.
  destruct (filter _ s) as [|e s'] eqn:Hf; [done|].
  assert (e ∈ filter (λ e, key e = k) s) as He by (rewrite Hf; by left).
  apply list_elem_of_filter in He as [Hk He]. by destruct (Hs e He).
Qed.

Lemma find_key_Some k s e : find_key k s = Some e → e ∈ s ∧ key e = k.
Proof.
  unfold find_key. intros Hh. apply head_Some in Hh as [s' Hs'].
  assert (e ∈ filter (λ e, key e = k) s) as He by (rewrite Hs'; by left).
  apply list_elem_of_filter in He. tauto.
Qed.

Lemma length_without_le k s : (length (without k s) ≤ length s)%nat.
Proof. apply length_filter. Qed.

(** ** Consequences of the invariant *)

Lemma inv_lookup c k p :
  inv c → the_map c !! k = Some p →
  p ∈ the_list c ∧ ∃ e, elems c !! p = Some e ∧ key e = k.
Proof.
  intros Hc Hk. apply (inv_map c Hc) in Hk as [Hp Hk]. split; [done|].
  destruct (elems c !! p) as [e|]; simplify_eq/=. eauto.
Qed.

Lemma inv_holder c p e :
  inv c → p ∈ the_list c → elems c !! p = Some e →
  the_map c !! key e = Some p.
Proof. intros Hc Hp He. apply (inv_map c Hc). by rewrite He. Qed.

Lemma inv_key_inj c p q e1 e2 :
  inv c → p ∈ the_list c → q ∈ the_list c →
  elems c !! p = Some e1 → elems c !! q = Some e2 →
  key e1 = key e2 → p = q.
Proof.
  intros Hc Hp Hq H1 H2 Hk.
  pose proof (inv_holder c p e1 Hc Hp H1) as Hm1.
  pose proof (inv_holder c q e2 Hc Hq H2) as Hm2.
  rewrite Hk in Hm1. congruence.
Qed.

Lemma inv_only_holder c k p :
  inv c → the_map c !! k = Some p →
  ∀ q e, q ∈ the_list c → elems c !! q = Some e → (key e = k ↔ q = p).
Proof.
  intros Hc Hk q e Hq He.
  destruct (inv_lookup c k p Hc Hk) as (Hp & e' & He' & Hk').
  split.
  - intros Hke. eapply (inv_key_inj c q p); eauto. congruence.
  - intros ->. congruence.
Qed.

Lemma inv_absent c k :
  inv c → the_map c !! k = None → ∀ e, e ∈ contents c → key e ≠ k.
Proof.
  intros Hc Hk e He Hke.
  apply elem_of_entries_of in He as (p & Hp & He).
  pose proof (inv_holder c p e Hc Hp He). congruence.
Qed.

Lemma find_key_contents c k :
  inv c → find_key k (contents c) = the_map c !! k ≫= (elems c !!.).
Proof.
  intros Hc. destruct (the_map c !! k) as [p|] eqn:Hk; simpl.
  - destruct (inv_lookup c k p Hc Hk) as (Hp & e & He & Hke).
    pose proof (inv_only_holder c k p Hc Hk) as Honly.
    rewrite He. unfold contents, find_key.
    destruct (list_elem_of_split_l _ _ Hp) as (l1 & l2 & Hl & Hp1).
    rewrite Hl in Honly |- *.
    rewrite entries_of_app, entries_of_cons, He, filter_app.
    assert (filter (λ e, key e = k) (entries_of (elems c) l1) = []) as ->.
    { destruct (filter _ _) as [|e' s'] eqn:Hf; [done|].
      assert (e' ∈ filter (λ e, key e = k) (entries_of (elems c) l1)) as He'
        by (rewrite Hf; by left).
      apply list_elem_of_filter in He' as [Hk' He'].
      apply elem_of_entries_of in He' as (q & Hq & He').
      destruct Hp1.
      assert (q = p) as <-; [|done].
      eapply Honly; eauto. apply elem_of_app. by left. }
    by rewrite filter_cons_True.
  - apply find_key_absent. by apply inv_absent.
Qed.

Lemma NoDup_keys c : inv c → NoDup (keys c).
Proof.
  intros Hc. unfold keys, contents.
  pose proof (inv_nodup c Hc) as Hnd.
  assert (∀ p q e1 e2, p ∈ the_list c → q ∈ the_list c →
    elems c !! p = Some e1 → elems c !! q = Some e2 →
    key e1 = key e2 → p = q) as Hinj by eauto using inv_key_inj.
  induction (the_list c) as [|p l IH]; [constructor|].
  apply NoDup_cons in Hnd as [Hp Hnd].
  rewrite entries_of_cons.
  assert (NoDup (key <$> entries_of (elems c) l)) as IH'.
  { apply IH; [done|]. intros p' q' ?? Hp' Hq'. apply Hinj; by right. }
  destruct (elems c !! p) as [e|] eqn:He; [|done].
  rewrite fmap_cons. apply NoDup_cons. split; [|done].
  intros Hin. apply list_elem_of_fmap in Hin as (e' & Hk & He').
  apply elem_of_entries_of in He' as (q & Hq & He').
  apply Hp. assert (p = q) as ->; [|done].
  eapply Hinj; eauto; [by left|by right].
Qed.

Lemma elem_of_keys c k : inv c → k ∈ keys c ↔ is_Some (the_map c !! k).
Proof.
  intros Hc. unfold keys. rewrite list_elem_of_fmap. split.
  - intros (e & -> & He). apply elem_of_entries_of in He as (p & Hp & He).
    exists p. by apply inv_holder.
  - intros [p Hk]. destruct (inv_lookup c k p Hc Hk) as (Hp & e & He & Hke).
    exists e. split; [done|]. apply elem_of_entries_of. eauto.
Qed.

Lemma length_contents c : inv c → length (contents c) = length (the_list c).
Proof. intros Hc. apply length_entries_of, Hc. Qed.

Lemma size_contents c : inv c → size c = Z.of_nat (length (contents c)).
Proof.
  intros Hc. rewrite length_contents by done. unfold size, Len, the_list.
  destruct (cache c) eqn:Hm; [done|].
  apply (inv_paired c Hc) in Hm. by rewrite Hm.
Qed.

(** ** The operations keep the invariant and act on the recency sequence
    as the list operations of [LRUSpec] *)

Lemma inv_cases c :
  inv c →
  (ll c = None ∧ cache c = None) ∨ (∃ l m, ll c = Some l ∧ cache c = Some m).
Proof.
  intros Hc. pose proof (inv_paired c Hc) as Hp.
  destruct (ll c) as [l|], (cache c) as [m|]; eauto.
  - destruct Hp as [_ Hp]. by specialize (Hp eq_refl).
  - destruct Hp as [Hp _]. by specialize (Hp eq_refl).
Qed.

Lemma inv_new maxEntries expiry :
  inv (newLRU maxEntries expiry : lruCache Key V).
Proof.
  split; simpl; [done|constructor|by intros p ?%elem_of_nil|].
  intros k p. unfold the_map, the_list; simpl.
  rewrite lookup_empty. split; [done|]. by intros [?%elem_of_nil _].
Qed.

Lemma inv_clear c : inv (clear c).
Proof.
  split; simpl; [done|constructor|by intros p ?%elem_of_nil|].
  intros k p. unfold the_map, the_list; simpl.
  rewrite lookup_empty. split; [done|]. by intros [?%elem_of_nil _].
Qed.

Lemma contents_clear c : contents (clear c) = [].
Proof. done. Qed.

Lemma inv_removeElement c p :
  inv c → p ∈ the_list c →
  ∃ e, elems c !! p = Some e ∧
    inv (removeElement c p) ∧
    contents (removeElement c p) = without (key e) (contents c) ∧
    the_map (removeElement c p) = delete (key e) (the_map c).
Proof.
  intros Hc Hp. destruct (inv_alloc c Hc p Hp) as [e He]. exists e.
  pose proof (inv_holder c p e Hc Hp He) as Hm.
  pose proof (inv_only_holder c (key e) p Hc Hm) as Honly.
  destruct (inv_cases c Hc) as [[Hl _]|(l & m & Hl & Hmc)].
  { unfold the_list in Hp. rewrite Hl in Hp. by apply elem_of_nil in Hp. }
  pose proof (inv_nodup c Hc) as Hnd. pose proof (inv_alloc c Hc) as Hal.
  pose proof (inv_map c Hc) as Hmap.
  unfold removeElement. rewrite He.
  unfold contents, the_list, the_map in *. rewrite Hl, Hmc in *. simpl in *.
  split_and!; [done| |by apply entries_of_Remove|done].
  split; simpl.
  - done.
  - by apply NoDup_Remove.
  - intros q [Hq _]%elem_of_Remove. by apply Hal.
  - intros k q. unfold the_map, the_list; simpl.
    rewrite lookup_delete_Some, elem_of_Remove, Hmap. split.
    + intros (Hne & Hq & Hk). split_and!; [done| |done].
      intros ->. rewrite He in Hk. by simplify_eq/=.
    + intros ((Hq & Hne) & Hk). split_and!; [|done|done].
      intros <-. destruct (elems c !! q) as [e'|] eqn:He'; simplify_eq/=.
      apply Hne. by apply (Honly q e').
Qed.

Lemma inv_remove c k :
  inv c →
  inv (remove c k) ∧ contents (remove c k) = without k (contents c) ∧
  the_map (remove c k) = delete k (the_map c).
Proof.
  intros Hc. unfold remove.
  destruct (cache c) as [m|] eqn:Hm.
  - destruct (m !! k) as [p|] eqn:Hk.
    + assert (the_map c !! k = Some p) as Hk'
        by (unfold the_map; by rewrite Hm).
      destruct (inv_lookup c k p Hc Hk') as (Hp & e & He & <-).
      destruct (inv_removeElement c p Hc Hp) as (e' & He' & ? & ? & ?).
      by simplify_eq.
    + assert (the_map c !! k = None) as Hk'
        by (unfold the_map; by rewrite Hm).
      split_and!; [done| |by rewrite delete_id].
      symmetry. apply without_absent. by apply inv_absent.
  - assert (the_map c = ∅) as Hk' by (unfold the_map; by rewrite Hm).
    split_and!; [done| |by rewrite Hk', delete_empty].
    symmetry. apply without_absent, inv_absent; [done|].
    by rewrite Hk', lookup_empty.
Qed.

Lemma inv_MoveToFront c m p h' :
  inv c → cache c = Some m → p ∈ the_list c →
  (∀ q, key <$> h' !! q = key <$> elems c !! q) →
  let c' := LruCache (maxEntries c) (MoveToFront p <$> ll c) (cache c)
              (expiry c) h' in
  inv c' ∧ the_list c' = p :: Remove p (the_list c).
Proof.
  intros Hc Hm Hp Hh c'.
  destruct (inv_cases c Hc) as [[_ ?]|(l & m' & Hl & _)]; [congruence|].
  assert (the_list c' = MoveToFront p (the_list c)) as Hl'
    by (unfold c', the_list; simpl; by rewrite Hl).
  assert (the_map c' = the_map c) as Hm' by done.
  split.
  - split.
    + unfold c'; simpl. rewrite Hl, Hm. done.
    + rewrite Hl'. apply NoDup_MoveToFront, Hc.
    + intros q. rewrite Hl', MoveToFront_elem_of. intros Hq.
      apply (fmap_is_Some key). unfold c'; simpl. rewrite Hh.
      by apply fmap_is_Some, Hc.
    + intros k q. rewrite Hl', Hm', MoveToFront_elem_of.
      unfold c'; simpl. rewrite Hh. apply (inv_map c Hc).
  - rewrite Hl'. unfold MoveToFront. by rewrite decide_True.
Qed.

Lemma get_refines c k now :
  inv c →
  inv (get c k now).1 ∧
  contents (get c k now).1 = (seq_get (contents c) k now).1 ∧
  (get c k now).2 = (seq_get (contents c) k now).2.
Proof.
  intros Hc. unfold seq_get. rewrite find_key_contents by done.
  unfold get.
  destruct (cache c) as [m|] eqn:Hm.
  - assert (the_map c = m) as -> by (unfold the_map; by rewrite Hm).
    destruct (m !! k) as [p|] eqn:Hk; simpl; [|done].
    assert (the_map c !! k = Some p) as Hk'
      by (unfold the_map; by rewrite Hm).
    destruct (inv_lookup c k p Hc Hk') as (Hp & e & He & Hke).
    rewrite He. destruct (After now (ttl e)); simpl.
    + destruct (inv_remove c k Hc) as (? & ? & _). done.
    + destruct (inv_MoveToFront c m p (elems c) Hc Hm Hp) as [Hc' Hl'];
        [done|].
      rewrite <- Hm. split_and!; [exact Hc'| |done].
      unfold contents at 1. rewrite Hl', entries_of_cons. simpl. rewrite He.
      f_equal. apply entries_of_Remove, inv_only_holder; done.
  - assert (the_map c = ∅) as -> by (unfold the_map; by rewrite Hm).
    by rewrite lookup_empty.
Qed.

Lemma without_snoc s e :
  NoDup (key <$> (s ++ [e])) → without (key e) (s ++ [e]) = s.
Proof.
  rewrite fmap_app. intros (_ & Hs & _)%NoDup_app.
  unfold without. rewrite filter_app. fold (without (key e) s).
  rewrite without_absent.
  - rewrite filter_cons_False by (intros ?; congruence).
    by rewrite filter_nil, app_nil_r.
  - intros e' He' Hk. apply (Hs (key e')).
    + apply list_elem_of_fmap. eauto.
    + rewrite Hk. simpl. by left.
Qed.

Lemma drop_last_snoc s e : drop_last (s ++ [e]) = s.
Proof.
  unfold drop_last. rewrite length_app. simpl.
  apply take_app_length'. lia.
Qed.

Lemma removeOldest_refines c :
  inv c →
  inv (removeOldest c) ∧ contents (removeOldest c) = drop_last (contents c).
Proof.
  intros Hc. unfold removeOldest.
  destruct (cache c) as [m|] eqn:Hm.
  - unfold Back. destruct (last (the_list c)) as [q|] eqn:Hlast.
    + apply last_Some in Hlast as [l' Hl'].
      assert (q ∈ the_list c) as Hq
        by (rewrite Hl'; apply elem_of_app; right; by left).
      destruct (inv_removeElement c q Hc Hq) as (e & He & Hc' & Hs & _).
      split; [done|]. rewrite Hs.
      pose proof (NoDup_keys c Hc) as Hnd. unfold keys in Hnd.
      unfold contents in *. rewrite Hl' in *.
      rewrite entries_of_app, entries_of_cons, He in *.
      rewrite drop_last_snoc. by apply without_snoc.
    + split; [done|]. apply last_None in Hlast.
      unfold contents. by rewrite Hlast.
  - split; [done|]. apply (inv_paired c Hc) in Hm.
    unfold contents, the_list. by rewrite Hm.
Qed.

Lemma inv_init c :
  inv c →
  inv (init c) ∧ the_list (init c) = the_list c ∧
  the_map (init c) = the_map c ∧
  ∃ l m, ll (init c) = Some l ∧ cache (init c) = Some m.
Proof.
  intros Hc. unfold init.
  destruct (inv_cases c Hc) as [[Hl Hm]|(l & m & Hl & Hm)]; rewrite Hm.
  - unfold the_list, the_map. rewrite Hl, Hm. simpl.
    split_and!; [|done|done|by eauto].
    split; simpl; [done|constructor|by intros p ?%elem_of_nil|].
    intros k p. unfold the_map, the_list; simpl.
    rewrite lookup_empty. split; [done|]. by intros [?%elem_of_nil _].
  - split_and!; [done|done|done|by eauto].
Qed.

Lemma new_elem_fresh c : inv c → new_elem c ∉ the_list c.
Proof.
  intros Hc Hin. apply (inv_alloc c Hc), elem_of_dom in Hin.
  by apply is_fresh in Hin.
Qed.

(** The state of [add] after a new element is pushed and before the
    capacity check. *)
Lemma inv_push c l m k (e : entry Key V) :
  inv c → ll c = Some l → cache c = Some m → m !! k = None → key e = k →
  let p := new_elem c in
  let c1 := LruCache (maxEntries c) (PushFront p <$> ll c)
              (insert k p <$> cache c) (expiry c) (<[p:=e]> (elems c)) in
  inv c1 ∧ contents c1 = e :: contents c.
Proof.
  intros Hc Hl Hm Hk Hke p c1.
  pose proof (new_elem_fresh c Hc) as Hp. fold p in Hp.
  pose proof (inv_nodup c Hc) as Hnd. pose proof (inv_alloc c Hc) as Hal.
  pose proof (inv_map c Hc) as Hmap.
  unfold c1, contents, the_list, the_map in *. rewrite Hl, Hm in *.
  simpl in *. unfold PushFront. split.
  - split; simpl.
    + done.
    + apply NoDup_cons. done.
    + intros q Hq. apply lookup_insert_is_Some.
      destruct (decide (p = q)); [by left|right].
      apply elem_of_cons in Hq as [->|Hq]; [done|]. split; [done|by apply Hal].
    + intros k' q. unfold the_map, the_list; simpl.
      rewrite lookup_insert_Some, elem_of_cons, Hmap. split.
      * intros [[-> ->]|(Hne & Hq & Hkq)].
        -- rewrite lookup_insert_eq. simpl. split; [by left|congruence].
        -- split; [by right|]. rewrite lookup_insert_ne; [done|].
           by intros ->.
      * intros [[->|Hq] Hkq].
        -- rewrite lookup_insert_eq in Hkq. simpl in Hkq. left.
           split; congruence.
        -- assert (p ≠ q) as Hne by (by intros ->).
           rewrite lookup_insert_ne in Hkq by done.
           right. split_and!; [|done|done].
           intros ->. assert (m !! k' = Some q) as Hmq by (by apply Hmap).
           congruence.
  - change (entries_of (<[p:=e]> (elems c)) (p :: l)
            = e :: entries_of (elems c) l).
    rewrite entries_of_cons, lookup_insert_eq. f_equal.
    by apply entries_of_insert.
Qed.

Lemma init_Some c m : cache c = Some m → init c = c.
Proof. intros Hm. unfold init. by rewrite Hm. Qed.

Lemma add_init c k v now : add c k v now = add (init c) k v now.
Proof.
  unfold add. assert (init (init c) = init c) as ->; [|done].
  unfold init. destruct (cache c) eqn:Hm; simpl; [by rewrite Hm|done].
Qed.

Lemma add_refines_Some c l m k v now :
  inv c → ll c = Some l → cache c = Some m →
  inv (add c k v now) ∧
  contents (add c k v now) =
    seq_add (maxEntries c) (expiry c) (contents c) k v now.
Proof.
  intros Hc Hl Hm. unfold seq_add. rewrite find_key_contents by done.
  unfold add. rewrite (init_Some c m Hm).
  destruct (the_map c !! k) as [p|] eqn:Hk; simpl.
  - destruct (inv_lookup c k p Hc Hk) as (Hp & e & He & Hke).
    rewrite He.
    destruct (inv_MoveToFront c m p
      (alter (λ e, Entry (key e) (Add now (expiry c)) v) p (elems c))
      Hc Hm Hp) as [Hc' Hl'].
    { intros q. rewrite lookup_alter. case_decide; [|done].
      subst q. by destruct (elems c !! p). }
    split; [exact Hc'|].
    unfold contents at 1. rewrite Hl', entries_of_cons. simpl.
    rewrite lookup_alter_eq, He. simpl. rewrite Hke. f_equal.
    rewrite entries_of_alter by (rewrite elem_of_Remove; by intros [_ []]).
    apply entries_of_Remove, inv_only_holder; done.
  - assert (m !! k = None) as Hk' by (unfold the_map in Hk; by rewrite Hm in Hk).
    destruct (inv_push c l m k (Entry k (Add now (expiry c)) v)
      Hc Hl Hm Hk' eq_refl) as [Hc1 Hs1].
    set (c1 := LruCache _ _ _ _ _) in *.
    assert (Len (the_list c1)
            = Z.of_nat (length (Entry k (Add now (expiry c)) v :: contents c)))
      as -> by (unfold Len; by rewrite <- Hs1, length_contents).
    change (maxEntries c1) with (maxEntries c).
    destruct (_ && _).
    + destruct (removeOldest_refines c1 Hc1) as [? Hs]. by rewrite Hs, Hs1.
    + done.
Qed.

Lemma add_refines c k v now :
  inv c →
  inv (add c k v now) ∧
  contents (add c k v now) =
    seq_add (maxEntries c) (expiry c) (contents c) k v now.
Proof.
  intros Hc.
  destruct (inv_init c Hc) as (Hc0 & Hl0 & Hm0 & l & m & Hl & Hm).
  rewrite add_init.
  destruct (add_refines_Some (init c) l m k v now Hc0 Hl Hm) as [? Hs].
  split; [done|]. rewrite Hs. unfold contents. rewrite Hl0.
  unfold init. by destruct (cache c).
Qed.

(** ** Reachable states *)

Lemma lru_remove_params c k :
  maxEntries (remove c k) = maxEntries c ∧ expiry (remove c k) = expiry c.
Proof.
  unfold remove, removeElement. repeat case_match; done.
Qed.

Lemma lru_add_params c k v now :
  maxEntries (add c k v now) = maxEntries c ∧
  expiry (add c k v now) = expiry c.
Proof.
  unfold add, init, removeOldest, removeElement.
  repeat case_match; done.
Qed.

Lemma lru_get_params c k now :
  maxEntries (get c k now).1 = maxEntries c ∧
  expiry (get c k now).1 = expiry c.
Proof.
  unfold get, remove, removeElement. repeat case_match; done.
Qed.

Lemma lru_exec_params c o :
  maxEntries (exec c o).1 = maxEntries c ∧ expiry (exec c o).1 = expiry c.
Proof.
  destruct o; simpl;
    auto using lru_add_params, lru_get_params, lru_remove_params.
Qed.

Lemma lru_exec_inv c o : inv c → inv (exec c o).1.
Proof.
  intros Hc. destruct o; simpl.
  - by apply add_refines.
  - by apply get_refines.
  - by apply inv_remove.
  - done.
  - apply inv_clear.
Qed.

Lemma lru_reachable_inv c : reachable c → inv c.
Proof. induction 1; [apply inv_new|by apply lru_exec_inv]. Qed.

Lemma length_without_present k s e :
  e ∈ s → key e = k → (length (without k s) < length s)%nat.
Proof. intros He Hk. apply (length_filter_lt _ _ e); [done|]. by intros []. Qed.

Lemma length_drop_last s : length (drop_last s) = (length s - 1)%nat.
Proof. unfold drop_last. rewrite length_take. lia. Qed.

Lemma seq_add_length maxEntries expiry s k v now :
  0 < maxEntries → Z.of_nat (length s) ≤ maxEntries →
  Z.of_nat (length (seq_add maxEntries expiry s k v now)) ≤ maxEntries.
Proof.
  intros Hmax Hlen. unfold seq_add.
  destruct (find_key k s) as [e|] eqn:Hf.
  - apply find_key_Some in Hf as [He Hk].
    pose proof (length_without_present k s e He Hk). simpl. lia.
  - rewrite bool_decide_true by lia. rewrite andb_true_l.
    destruct (Z.ltb_spec maxEntries
      (Z.of_nat (length (Entry k (Add now expiry) v :: s)))) as [Hover|Hfit].
    + rewrite length_drop_last, length_cons. lia.
    + done.
Qed.

Lemma seq_get_length s k now :
  (length (seq_get s k now).1 ≤ length s)%nat.
Proof.
  unfold seq_get. destruct (find_key k s) as [e|] eqn:Hf; [|done].
  apply find_key_Some in Hf as [He Hk].
  pose proof (length_without_present k s e He Hk).
  destruct (After _ _); simpl; lia.
Qed.

Lemma lru_exec_bound c o :
  inv c → 0 < maxEntries c → size c ≤ maxEntries c →
  size (exec c o).1 ≤ maxEntries c.
Proof.
  intros Hc Hmax. pose proof (lru_exec_inv c o Hc) as Hc'.
  rewrite !size_contents by done. intros Hlen.
  destruct o; simpl in *.
  - destruct (add_refines c k v now Hc) as [_ ->]. by apply seq_add_length.
  - destruct (get_refines c k now Hc) as (_ & -> & _).
    pose proof (seq_get_length (contents c) k now). lia.
  - destruct (inv_remove c k Hc) as (_ & -> & _).
    pose proof (length_without_le k (contents c)). lia.
  - done.
  - change (Z.of_nat 0 ≤ maxEntries c). lia.
Qed.

Lemma lru_reachable_bound c :
  reachable c → 0 < maxEntries c → size c ≤ maxEntries c.
Proof.
  induction 1 as [maxEntries expiry|c o Hr IH]; intros Hmax.
  - simpl in *. unfold size, Len, the_list; simpl. lia.
  - destruct (lru_exec_params c o) as [Hm _]. rewrite Hm in *.
    apply lru_exec_bound; auto using lru_reachable_inv.
Qed.

(** ** Engines with the same recency sequence answer alike *)

Lemma lru_same_exec c1 c2 o :
  inv c1 → inv c2 → same c1 c2 →
  same (exec c1 o).1 (exec c2 o).1 ∧ (exec c1 o).2 = (exec c2 o).2.
Proof.
  intros H1 H2 (Hmax & Hexp & Hs).
  destruct (lru_exec_params c1 o) as [Hm1 He1].
  destruct (lru_exec_params c2 o) as [Hm2 He2].
  unfold same. rewrite Hm1, Hm2, He1, He2.
  destruct o; simpl.
  - destruct (add_refines c1 k v now H1) as [_ ->].
    destruct (add_refines c2 k v now H2) as [_ ->].
    by rewrite Hmax, Hexp, Hs.
  - destruct (get_refines c1 k now H1) as (_ & -> & ->).
    destruct (get_refines c2 k now H2) as (_ & -> & ->).
    by rewrite Hs.
  - destruct (inv_remove c1 k H1) as (_ & -> & _).
    destruct (inv_remove c2 k H2) as (_ & -> & _).
    by rewrite Hs.
  - rewrite !size_contents by done. by rewrite Hs.
  - done.
Qed.

Lemma lru_same_run os : ∀ c1 c2,
  inv c1 → inv c2 → same c1 c2 → run c1 os = run c2 os.
Proof.
  induction os as [|o os IH]; intros c1 c2 H1 H2 Hs; [done|].
  simpl. destruct (lru_same_exec c1 c2 o H1 H2 Hs) as [Hs' ->].
  f_equal. apply IH; auto using lru_exec_inv.
Qed.

(** ** An entry just added *)

Lemma find_key_None k s : find_key k s = None → ∀ e, e ∈ s → key e ≠ k.
Proof.
  unfold find_key. intros Hf e He Hk.
  assert (e ∈ filter (λ e, key e = k) s) as Hin
    by (by apply list_elem_of_filter).
  destruct (filter _ s); [by apply elem_of_nil in Hin|done].
Qed.

Lemma seq_add_key maxEntries expiry s k v now e :
  e ∈ seq_add maxEntries expiry s k v now → key e = k →
  e = Entry k (Add now expiry) v.
Proof.
  unfold seq_add. destruct (find_key k s) as [e0|] eqn:Hf.
  - intros [->|Hin]%elem_of_cons Hk; [done|].
    apply list_elem_of_filter in Hin as [Hne _]. done.
  - intros Hin Hk.
    assert (e ∈ Entry k (Add now expiry) v :: s) as Hin'.
    { destruct (_ && _); [|done]. by eapply subseteq_take. }
    apply elem_of_cons in Hin' as [->|Hin']; [done|].
    by destruct (find_key_None k s Hf e Hin').
Qed.

Lemma seq_add_head maxEntries expiry s k v now :
  0 ≤ maxEntries →
  head (seq_add maxEntries expiry s k v now) = Some (Entry k (Add now expiry) v).
Proof.
  intros Hmax. unfold seq_add. destruct (find_key k s); [done|].
  destruct (bool_decide (maxEntries ≠ 0)) eqn:Hnz; [|done].
  apply bool_decide_eq_true in Hnz. rewrite andb_true_l.
  destruct (Z.ltb_spec maxEntries
    (Z.of_nat (length (Entry k (Add now expiry) v :: s)))) as [Hover|_];
    [|done].
  unfold drop_last. destruct s as [|e s]; [|done].
  rewrite length_cons in Hover. simpl in Hover. lia.
Qed.

Lemma lru_add_retains c k v now :
  inv c → 0 ≤ maxEntries c → is_Some (the_map (add c k v now) !! k).
Proof.
  intros Hc Hmax. destruct (add_refines c k v now Hc) as [Hc' Hs].
  apply elem_of_keys; [done|]. unfold keys. rewrite Hs.
  pose proof (seq_add_head (maxEntries c) (expiry c) (contents c) k v now Hmax)
    as Hh.
  apply head_Some in Hh as [tl ->]. by left.
Qed.

Lemma lru_add_get c k v now now' :
  inv c → is_Some (the_map (add c k v now) !! k) →
  (get (add c k v now) k now').2 =
    if After now' (Add now (expiry c)) then None else Some v.
Proof.
  intros Hc [p Hk]. destruct (add_refines c k v now Hc) as [Hc' Hs].
  destruct (inv_lookup _ k p Hc' Hk) as (Hp & e & He & Hke).
  assert (e = Entry k (Add now (expiry c)) v) as ->.
  { apply (seq_add_key (maxEntries c) (expiry c) (contents c) k v now);
      [|done].
    rewrite <- Hs. apply elem_of_entries_of. eauto. }
  destruct (get_refines (add c k v now) k now' Hc') as (_ & _ & ->).
  unfold seq_get. rewrite find_key_contents by done.
  rewrite Hk. simpl. rewrite He. simpl. by destruct (After _ _).
Qed.

(** ** Sizes, repeated inserts and the entry in front *)

(** The length of the list is the number of keys of the map. *)
Lemma lru_size_map c : inv c → size c = Z.of_nat (base.size (the_map c)).
Proof.
  intros Hc. rewrite size_contents by done. f_equal.
  rewrite <- (length_fmap key). fold (keys c).
  rewrite <- (size_list_to_set (C:=gset Key)) by by apply NoDup_keys.
  rewrite <- (size_dom (D:=gset Key)). f_equal.
  apply set_eq. intros k.
  rewrite elem_of_list_to_set, elem_of_dom. by apply elem_of_keys.
Qed.

(** The map after a lookup. *)
Lemma lru_get_map c k now :
  inv c →
  the_map (get c k now).1 =
    match find_key k (contents c) with
    | Some e => if After now (ttl e) then delete k (the_map c) else the_map c
    | None => the_map c
    end.
Proof.
  intros Hc. rewrite find_key_contents by done.
  destruct (the_map c !! k) as [p|] eqn:Hk; simpl.
  - destruct (inv_lookup c k p Hc Hk) as (Hp & e & He & Hke).
    rewrite He.
    destruct (inv_cases c Hc) as [[Hl Hm]|(l & m & Hl & Hm)].
    { unfold the_map in Hk. rewrite Hm in Hk. simpl in Hk.
      by rewrite lookup_empty in Hk. }
    assert (m !! k = Some p) as Hmk
      by (unfold the_map in Hk; by rewrite Hm in Hk).
    unfold get. rewrite Hm, Hmk, He.
    destruct (After now (ttl e)); simpl.
    + by destruct (inv_remove c k Hc) as (_ & _ & ?).
    + unfold the_map. simpl. by rewrite Hm.
  - unfold get. destruct (cache c) as [m|] eqn:Hm; [|done].
    unfold the_map in Hk. rewrite Hm in Hk. simpl in Hk. by rewrite Hk.
Qed.

Lemma without_without k s : without k (without k s) = without k s.
Proof.
  apply without_absent. intros e He.
  unfold without in He. by apply list_elem_of_filter in He as [? _].
Qed.

Lemma find_key_head k s e : key e = k → find_key k (e :: s) = Some e.
Proof. intros Hk. unfold find_key. by rewrite filter_cons_True. Qed.

Lemma drop_last_cons (e : entry Key V) s :
  s ≠ [] → drop_last (e :: s) = e :: drop_last s.
Proof.
  intros Hs. unfold drop_last. destruct s as [|e' s]; [done|].
  simpl. by rewrite Nat.sub_0_r.
Qed.

Lemma elem_of_drop_last s e : e ∈ drop_last s → e ∈ s.
Proof. unfold drop_last. apply subseteq_take. Qed.

(** Adding a key twice is adding it once, with the later value and time. *)
Lemma seq_add_twice maxEntries expiry s k v1 v2 t1 t2 :
  0 ≤ maxEntries →
  seq_add maxEntries expiry (seq_add maxEntries expiry s k v1 t1) k v2 t2
    = seq_add maxEntries expiry s k v2 t2.
Proof.
  intros Hmax.
  pose proof (seq_add_head maxEntries expiry s k v1 t1 Hmax) as Hhead.
  destruct (seq_add maxEntries expiry s k v1 t1) as [|e1 s1] eqn:Hs1; [done|].
  simpl in Hhead. injection Hhead as ->.
  unfold seq_add at 1. rewrite find_key_head by done.
  unfold seq_add in Hs1 |- *.
  destruct (find_key k s) as [e|] eqn:Hf.
  - injection Hs1 as <-. f_equal. unfold without at 1.
    rewrite filter_cons_False by (simpl; by intros []).
    apply without_without.
  - pose proof (find_key_None k s Hf) as Habs.
    rewrite !length_cons in *.
    destruct (bool_decide (maxEntries ≠ 0) && (maxEntries <? Z.of_nat (S (length s))))
      eqn:Hcond.
    + apply andb_true_iff in Hcond as [Hnz Hlt].
      apply bool_decide_eq_true in Hnz. apply Z.ltb_lt in Hlt.
      assert (s ≠ []) as Hne by (intros ->; simpl in Hlt; lia).
      rewrite drop_last_cons in Hs1 by done. rewrite drop_last_cons by done.
      injection Hs1 as <-. f_equal. unfold without at 1.
      rewrite filter_cons_False by (simpl; by intros []).
      apply without_absent. intros e He. by apply Habs, elem_of_drop_last.
    + injection Hs1 as <-. f_equal. unfold without at 1.
      rewrite filter_cons_False by (simpl; by intros []).
      by apply without_absent.
Qed.

(** The entry in front survives the insert of another key, unless the
    engine holds a single entry. *)
Lemma seq_add_keeps_head maxEntries expiry s e k v now :
  head s = Some e → key e ≠ k → 0 ≤ maxEntries → maxEntries ≠ 1 →
  e ∈ seq_add maxEntries expiry s k v now.
Proof.
  intros Hhead Hk Hmax H1. destruct s as [|e' s]; [done|].
  simpl in Hhead. injection Hhead as ->.
  unfold seq_add. destruct (find_key k (e :: s)).
  - right. unfold without. rewrite filter_cons_True by done. by left.
  - destruct (bool_decide (maxEntries ≠ 0) &&
              (maxEntries <? Z.of_nat (length (Entry k (Add now expiry) v :: e :: s))))
      eqn:Hcond; [|right; by left].
    apply andb_true_iff in Hcond as [Hnz Hlt].
    apply bool_decide_eq_true in Hnz. apply Z.ltb_lt in Hlt.
    rewrite !length_cons in Hlt.
    unfold drop_last. apply elem_of_take. exists 1%nat. split; [done|].
    rewrite !length_cons. lia.
Qed.

(** With maxEntries = 0 an insert keeps every entry of another key. *)
Lemma seq_add_unbounded expiry s k v now :
  seq_add 0 expiry s k v now = Entry k (Add now expiry) v :: without k s.
Proof.
  unfold seq_add. destruct (find_key k s) eqn:Hf; [done|].
  simpl. f_equal. symmetry. by apply without_absent, find_key_None.
Qed.

(** An engine with a negative maxEntries holds nothing. *)
Lemma lru_negative_empty c :
  reachable c → maxEntries c < 0 → contents c = [].
Proof.
  induction 1 as [|c o Hr IH]; [done|].
  destruct (lru_exec_params c o) as [-> _]. intros Hneg.
  specialize (IH Hneg). pose proof (lru_reachable_inv c Hr) as Hc.
  destruct o as [k v now|k now|k| |]; simpl.
  - destruct (add_refines c k v now Hc) as [_ ->]. rewrite IH.
    unfold seq_add. simpl.
    rewrite bool_decide_true, andb_true_l by lia.
    destruct (Z.ltb_spec (maxEntries c) (Z.of_nat 1)); [done|lia].
  - destruct (get_refines c k now Hc) as (_ & -> & _). by rewrite IH.
  - destruct (inv_remove c k Hc) as (_ & -> & _). by rewrite IH.
  - done.
  - done.
Qed.
(** The key [removeOldest] deletes is the key of the last entry. *)
Lemma removeOldest_map c front e :
  inv c → contents c = front ++ [e] →
  the_map (removeOldest c) = delete (key e) (the_map c).
Proof.
  intros Hc Hfront. unfold removeOldest.
  destruct (cache c) as [m|] eqn:Hm.
  - unfold Back. destruct (last (the_list c)) as [q|] eqn:Hlast.
    + apply last_Some in Hlast as [l' Hl'].
      assert (q ∈ the_list c) as Hq
        by (rewrite Hl'; apply elem_of_app; right; by left).
      destruct (inv_removeElement c q Hc Hq) as (e0 & He & _ & _ & ->).
      unfold contents in Hfront. rewrite Hl' in Hfront.
      rewrite entries_of_app, entries_of_cons, He in Hfront.
      by apply app_inj_tail in Hfront as [_ ->].
    + apply last_None in Hlast. unfold contents in Hfront.
      rewrite Hlast in Hfront. by destruct front.
  - apply (inv_paired c Hc) in Hm.
    unfold contents, the_list in Hfront. rewrite Hm in Hfront.
    by destruct front.
Qed.

(** A lookup of a key that is not stored finds nothing. *)
Lemma lru_get_absent c k now :
  inv c → the_map c !! k = None → (get c k now).2 = None.
Proof.
  intros Hc Hk. destruct (get_refines c k now Hc) as (_ & _ & ->).
  unfold seq_get. rewrite find_key_contents by done. by rewrite Hk.
Qed.

(** A lookup later than the expiry time of the entry just added finds
    nothing, whether the add has kept the entry or not. *)
Lemma lru_add_get_late c k v now now' :
  inv c → Add now (expiry c) < now' → (get (add c k v now) k now').2 = None.
Proof.
  intros Hc Hlate.
  destruct (the_map (add c k v now) !! k) as [p|] eqn:Hk.
  - rewrite lru_add_get by eauto. unfold After.
    destruct (Z.ltb_spec (Add now (expiry c)) now'); [done|lia].
  - apply lru_get_absent; [|done]. by apply add_refines.
Qed.

End facts.
End LRUFacts.

(** * Properties of the expiry engine *)

Module TTLFacts.
Import TTL TTLSpec.
Section facts.
Context `{Countable Key} {V : Type} (nilKey : Key).
Implicit Types (c : ttlCache Key V) (k : Key) (v : V) (i : Z)
  (e : entry Key V).

Lemma default_delete `{Countable K} {A} (o : option (gmap K A)) (j : K) :
  default ∅ (delete j <$> o) = delete j (default ∅ o).
Proof. destruct o; simpl; [done|by rewrite delete_empty]. Qed.

Lemma ttl_inv_cases c :
  inv c →
  (cache c = None ∧ expiration c = None) ∨
  (∃ m x, cache c = Some m ∧ expiration c = Some x).
Proof.
  intros Hc. pose proof (ttl_paired c Hc) as Hp.
  destruct (cache c) as [m|], (expiration c) as [x|]; eauto.
  - destruct Hp as [_ Hp]. by specialize (Hp eq_refl).
  - destruct Hp as [Hp _]. by specialize (Hp eq_refl).
Qed.

Lemma ttl_inv_empty maxEntries upd (o1 : option (gmap Key (entry Key V)))
    (o2 : option (gmap Z Key)) expiry :
  (o1 = None ↔ o2 = None) → default ∅ o1 = ∅ → default ∅ o2 = ∅ →
  inv (TtlCache maxEntries upd o1 o2 expiry).
Proof.
  intros Hp H1 H2. split; unfold the_map, the_index; simpl; [done| |].
  - intros k e. by rewrite H1, lookup_empty.
  - intros i k. by rewrite H2, lookup_empty.
Qed.

Lemma ttl_inv_new maxEntries expiry upd :
  inv (newTTLCache maxEntries expiry upd : ttlCache Key V).
Proof. by apply ttl_inv_empty. Qed.

Lemma ttl_inv_clear c : inv (clear c).
Proof. by apply ttl_inv_empty. Qed.

Lemma ttl_init_view c :
  inv c →
  inv (init c) ∧ the_map (init c) = the_map c ∧
  the_index (init c) = the_index c ∧
  ∃ m x, cache (init c) = Some m ∧ expiration (init c) = Some x.
Proof.
  intros Hc. unfold init.
  destruct (ttl_inv_cases c Hc) as [[Hm Hx]|(m & x & Hm & Hx)]; rewrite Hm.
  - unfold the_map, the_index. rewrite Hm, Hx. simpl.
    split_and!; [by apply ttl_inv_empty|done|done|by eauto].
  - split_and!; [done|done|done|by eauto].
Qed.

(** ** remove *)

Lemma the_map_removeElement c e :
  the_map (removeElement c e) = delete (key e) (the_map c).
Proof. apply default_delete. Qed.

Lemma the_index_removeElement c e :
  the_index (removeElement c e) = delete (UnixNano (ttl e)) (the_index c).
Proof. apply default_delete. Qed.

Lemma ttl_remove_absent c k : the_map c !! k = None → remove c k = c.
Proof.
  unfold remove, the_map. destruct (cache c) as [m|]; simpl; [|done].
  by intros ->.
Qed.

Lemma ttl_remove_present c k e :
  the_map c !! k = Some e → remove c k = removeElement c e.
Proof.
  unfold remove, the_map. destruct (cache c) as [m|]; simpl.
  - by intros ->.
  - by rewrite lookup_empty.
Qed.

Lemma the_map_remove c k : inv c → the_map (remove c k) = delete k (the_map c).
Proof.
  intros Hc. destruct (the_map c !! k) as [e|] eqn:Hk.
  - rewrite (ttl_remove_present c k e Hk), the_map_removeElement.
    by rewrite (ttl_keyed c Hc k e Hk).
  - rewrite ttl_remove_absent by done. by rewrite delete_id.
Qed.

Lemma the_index_remove c k e :
  the_map c !! k = Some e →
  the_index (remove c k) = delete (UnixNano (ttl e)) (the_index c).
Proof.
  intros Hk. by rewrite (ttl_remove_present c k e Hk), the_index_removeElement.
Qed.

Lemma ttl_remove_params c k : params (remove c k) = params c.
Proof.
  unfold remove. destruct (cache c) as [m|]; [|done].
  by destruct (m !! k).
Qed.

Lemma ttl_inv_remove c k : inv c → inv (remove c k).
Proof.
  intros Hc. destruct (the_map c !! k) as [e|] eqn:Hk;
    [|by rewrite ttl_remove_absent].
  pose proof (the_map_remove c k Hc) as Hm.
  pose proof (the_index_remove c k e Hk) as Hx.
  split.
  - rewrite (ttl_remove_present c k e Hk). simpl.
    pose proof (ttl_paired c Hc) as Hp.
    destruct (cache c), (expiration c); simpl; try done.
    + destruct Hp as [_ Hp]. by specialize (Hp eq_refl).
    + destruct Hp as [Hp _]. by specialize (Hp eq_refl).
  - intros k' e'. rewrite Hm, lookup_delete_Some. intros [_ ?].
    by apply (ttl_keyed c Hc).
  - intros i k'. rewrite Hx, Hm, lookup_delete_Some. intros [Hne Hi].
    destruct (ttl_sound c Hc i k' Hi) as (e' & He' & Hie').
    exists e'. split; [|done]. rewrite lookup_delete_ne; [done|].
    intros <-. congruence.
Qed.

(** A removal takes exactly one entry away when the key is present. *)
Lemma ttl_len_remove c k :
  inv c → is_Some (the_map c !! k) → len (remove c k) = len c - 1.
Proof.
  intros Hc [e Hk]. unfold len. rewrite the_map_remove by done.
  rewrite map_size_delete, Hk.
  assert (base.size (the_map c) ≠ 0%nat).
  { intros Hz. apply map_size_empty_inv in Hz. by rewrite Hz in Hk. }
  lia.
Qed.

(** ** changeTTL *)

Lemma ttl_changeTTL_absent c k now :
  the_map c !! k = None → changeTTL c k now = c.
Proof. unfold changeTTL. by intros ->. Qed.

Lemma ttl_changeTTL_params c k now : params (changeTTL c k now) = params c.
Proof. unfold changeTTL. by destruct (the_map c !! k). Qed.

Lemma ttl_changeTTL_view c k ee now :
  inv c → the_map c !! k = Some ee →
  the_map (changeTTL c k now)
    = <[k := Entry (key ee) (Add now (expiry c)) (value ee)]> (the_map c) ∧
  the_index (changeTTL c k now)
    = <[instant c now := k]> (delete (UnixNano (ttl ee)) (the_index c)) ∧
  inv (changeTTL c k now).
Proof.
  intros Hc Hk.
  pose proof (ttl_keyed c Hc) as Hkeyed. pose proof (ttl_sound c Hc) as Hsound.
  destruct (ttl_inv_cases c Hc) as [[Hm Hx]|(m & x & Hm & Hx)].
  { unfold the_map in Hk. rewrite Hm in Hk. simpl in Hk.
    by rewrite lookup_empty in Hk. }
  unfold changeTTL. rewrite Hk.
  unfold the_map, the_index, instant in *. rewrite Hm, Hx in *. simpl in *.
  split_and!; [done|done|]. split; unfold the_map, the_index; simpl.
  - done.
  - intros k' e'. rewrite lookup_insert_Some.
    intros [[<- <-]|[_ Hk']]; simpl; eauto.
  - intros i k'. rewrite lookup_insert_Some, lookup_delete_Some.
    intros [[<- <-]|(Hne & Hold & Hi)].
    + eexists. by rewrite lookup_insert_eq.
    + destruct (Hsound i k' Hi) as (e' & He' & Hie'). exists e'.
      split; [|done]. rewrite lookup_insert_ne; [done|].
      intros <-. congruence.
Qed.

(** ** The first half of add on a new key *)

Lemma ttl_stored_params c k v now : params (stored c k v now) = params c.
Proof. unfold stored, init. by destruct (cache c). Qed.

Lemma ttl_stored_view c k v now :
  inv c → the_map c !! k = None →
  the_map (stored c k v now)
    = <[k := Entry k (Add now (expiry c)) v]> (the_map c) ∧
  the_index (stored c k v now) = <[instant c now := k]> (the_index c) ∧
  inv (stored c k v now).
Proof.
  intros Hc Hk.
  destruct (ttl_init_view c Hc) as (Hc0 & Hm0 & Hx0 & m & x & Hm & Hx).
  assert (expiry (init c) = expiry c) as Hexp
    by (unfold init; by destruct (cache c)).
  pose proof (ttl_keyed _ Hc0) as Hkeyed.
  pose proof (ttl_sound _ Hc0) as Hsound.
  unfold stored, instant. rewrite <- Hm0, <- Hx0, <- Hexp.
  rewrite <- Hm0 in Hk.
  unfold the_map, the_index in *. rewrite Hm, Hx in *. simpl in *.
  split_and!; [done|done|]. split; unfold the_map, the_index; simpl.
  - done.
  - intros k' e'. rewrite lookup_insert_Some.
    intros [[<- <-]|[_ Hk']]; simpl; eauto.
  - intros i k'. rewrite lookup_insert_Some.
    intros [[<- <-]|(Hne & Hi)].
    + eexists. by rewrite lookup_insert_eq.
    + destruct (Hsound i k' Hi) as (e' & He' & Hie'). exists e'.
      split; [|done]. rewrite lookup_insert_ne; [done|].
      intros <-. congruence.
Qed.

Lemma ttl_add_new c k v clk :
  inv c → the_map c !! k = None →
  add nilKey c k v clk =
    let c1 := stored c k v (clk 0%nat) in
    if bool_decide (maxEntries c ≠ 0) && (maxEntries c <? len c1)
    then purgeToCapacity nilKey c1 (λ n, clk (S n))
    else c1.
Proof.
  intros Hc Hk.
  destruct (ttl_init_view c Hc) as (_ & Hm0 & _).
  unfold add. rewrite Hm0, Hk. unfold stored. simpl.
  assert (maxEntries (init c) = maxEntries c) as ->
    by (unfold init; by destruct (cache c)).
  done.
Qed.

(** ** The capacity purge *)

Lemma ttl_evict_view c i k :
  inv c → the_index c !! i = Some k →
  let c' := remove c (registered nilKey c i) in
  inv c' ∧ the_map c' = delete k (the_map c) ∧
  the_index c' = delete i (the_index c) ∧ len c' = len c - 1.
Proof.
  intros Hc Hi c'.
  destruct (ttl_sound c Hc i k Hi) as (e & Hk & <-).
  assert (registered nilKey c (UnixNano (ttl e)) = k) as Hr
    by (unfold registered; by rewrite Hi).
  unfold c'. rewrite Hr.
  split_and!.
  - by apply ttl_inv_remove.
  - by apply the_map_remove.
  - by apply the_index_remove.
  - apply ttl_len_remove; eauto.
Qed.

Lemma ttl_evict_all_params c ks :
  params (evict_all nilKey c ks) = params c.
Proof.
  revert c. induction ks as [|i ks IH]; intros c; [done|].
  simpl. by rewrite IH, ttl_remove_params.
Qed.

Lemma ttl_evict_all_view ks c :
  inv c → NoDup ks → (∀ i, i ∈ ks → is_Some (the_index c !! i)) →
  let c' := evict_all nilKey c ks in
  inv c' ∧
  (∀ i, the_index c' !! i
        = if decide (i ∈ ks) then None else the_index c !! i) ∧
  (∀ k e, the_map c' !! k = Some e ↔
          the_map c !! k = Some e ∧
          ∀ i, i ∈ ks → the_index c !! i ≠ Some k) ∧
  len c' = len c - Z.of_nat (length ks).
Proof.
  revert c. induction ks as [|i0 ks IH]; intros c Hc Hnd Hreg; simpl.
  { split_and!; [done|done| |lia].
    intros k e. split; [|tauto]. intros ?. split; [done|].
    by intros i ?%elem_of_nil. }
  apply NoDup_cons in Hnd as [Hi0 Hnd].
  destruct (Hreg i0) as [k0 Hk0]; [by left|].
  destruct (ttl_evict_view c i0 k0 Hc Hk0) as (Hc1 & Hm1 & Hx1 & Hlen1).
  set (c1 := remove c (registered nilKey c i0)) in *.
  destruct (IH c1 Hc1 Hnd) as (Hc' & Hx' & Hm' & Hlen').
  { intros i Hi. rewrite Hx1, lookup_delete_ne by (by intros ->).
    apply Hreg. by right. }
  split_and!; [done| | |lia].
  - intros i. rewrite Hx', Hx1.
    destruct (decide (i = i0)) as [->|Hne].
    + rewrite (decide_False (P := i0 ∈ ks)) by done.
      rewrite lookup_delete_eq. by rewrite decide_True by (by left).
    + rewrite lookup_delete_ne by done.
      destruct (decide (i ∈ ks)) as [Hin|Hin].
      * by rewrite decide_True by (by right).
      * rewrite decide_False; [done|].
        intros [?|?]%elem_of_cons; done.
  - intros k e. rewrite Hm', Hm1, lookup_delete_Some. split.
    + intros [[Hne Hk] Hrest]. split; [done|].
      intros i [->|Hi]%elem_of_cons; [congruence|].
      specialize (Hrest i Hi).
      rewrite Hx1, lookup_delete_ne in Hrest by (by intros ->). done.
    + intros [Hk Hall]. split_and!; [|done|].
      * intros <-. by apply (Hall i0); [left|].
      * intros i Hi. rewrite Hx1, lookup_delete_ne by (by intros ->).
        apply Hall. by right.
Qed.

(** The walk evicts a prefix of the instants it is given: it stops in
    front of the first instant it finds in the future with the size within
    the bound, and every instant before that one was either met with the
    size above the bound or not in the future. *)
Lemma ttl_purge_walk_prefix clk ks : ∀ c j,
  ∃ ks1 ks2,
    ks = ks1 ++ ks2 ∧
    purge_walk nilKey clk j ks c = evict_all nilKey c ks1 ∧
    match ks2 with
    | [] => True
    | i :: _ =>
        len (evict_all nilKey c ks1) ≤ maxEntries c ∧
        ∃ n, UnixNano (clk n) < i
    end ∧
    ∀ m i, ks1 !! m = Some i →
      maxEntries c < len (evict_all nilKey c (take m ks1)) ∨
      ∃ n, i ≤ UnixNano (clk n).
Proof.
  induction ks as [|i ks IH]; intros c j.
  { exists [], []. do 3 (split; [done|]). intros m i Hm. done. }
  simpl.
  assert (maxEntries (remove c (registered nilKey c i)) = maxEntries c)
    as Hmax by (pose proof (ttl_remove_params c (registered nilKey c i));
                unfold params in *; congruence).
  destruct (len c <=? maxEntries c) eqn:Hlen.
  - destruct (UnixNano (clk j) <? i) eqn:Hfut.
    + exists [], (i :: ks). do 2 (split; [done|]).
      split; [|intros m i' Hm; done].
      split; [simpl; lia|]. exists j. lia.
    + destruct (IH (remove c (registered nilKey c i)) (S j))
        as (ks1 & ks2 & -> & Heq & Hstop & Hforced).
      exists (i :: ks1), ks2. rewrite Hmax in *.
      do 3 (split; [done|]).
      intros [|m] i'; simpl.
      * intros [= <-]. right. exists j. lia.
      * apply Hforced.
  - destruct (IH (remove c (registered nilKey c i)) j)
      as (ks1 & ks2 & -> & Heq & Hstop & Hforced).
    exists (i :: ks1), ks2. rewrite Hmax in *.
    do 3 (split; [done|]).
    intros [|m] i'; simpl.
    + intros [= <-]. left. lia.
    + apply Hforced.
Qed.

Lemma ttl_expKeys_elem_of c i : i ∈ expKeys c ↔ is_Some (the_index c !! i).
Proof.
  unfold expKeys. rewrite merge_sort_Permutation, list_elem_of_fmap. split.
  - intros ([i' k] & -> & Hik). apply elem_of_map_to_list in Hik. eauto.
  - intros [k Hk]. exists (i, k). split; [done|].
    by apply elem_of_map_to_list.
Qed.

Lemma ttl_expKeys_NoDup c : NoDup (expKeys c).
Proof.
  unfold expKeys. rewrite merge_sort_Permutation.
  apply NoDup_fst_map_to_list.
Qed.

Lemma ttl_expKeys_sorted c : StronglySorted Z.le (expKeys c).
Proof. apply StronglySorted_merge_sort; apply _. Qed.

Lemma ttl_purge_prefix c clk :
  inv c →
  let c' := purgeToCapacity nilKey c clk in
  ∃ ks1 ks2,
    expKeys c = ks1 ++ ks2 ∧ c' = evict_all nilKey c ks1 ∧ inv c' ∧
    (∀ i, the_index c' !! i
          = if decide (i ∈ ks1) then None else the_index c !! i) ∧
    (∀ k e, the_map c' !! k = Some e ↔
            the_map c !! k = Some e ∧
            ∀ i, i ∈ ks1 → the_index c !! i ≠ Some k) ∧
    len c' = len c - Z.of_nat (length ks1) ∧
    match ks2 with
    | [] => True
    | i :: _ => len c' ≤ maxEntries c ∧ ∃ n, UnixNano (clk n) < i
    end ∧
    ∀ m i, ks1 !! m = Some i →
      maxEntries c < len c - Z.of_nat m ∨ ∃ n, i ≤ UnixNano (clk n).
Proof.
  intros Hc c'. unfold c', purgeToCapacity.
  destruct (ttl_purge_walk_prefix clk (expKeys c) c 0%nat)
    as (ks1 & ks2 & Hks & -> & Hstop & Hforced).
  pose proof (ttl_expKeys_NoDup c) as Hnd. rewrite Hks in Hnd.
  apply NoDup_app in Hnd as (Hnd1 & _ & _).
  assert (∀ i, i ∈ ks1 → is_Some (the_index c !! i)) as Hreg.
  { intros i Hi. apply ttl_expKeys_elem_of. rewrite Hks.
    apply elem_of_app. by left. }
  destruct (ttl_evict_all_view ks1 c Hc Hnd1 Hreg) as (Hc' & Hx & Hm & Hlen).
  exists ks1, ks2. do 6 (split; [done|]). split; [done|].
  intros m i Hmi. destruct (Hforced m i Hmi) as [Hover|?]; [left|by right].
  assert (NoDup (take m ks1)) as Hndm.
  { rewrite <- (take_drop m ks1) in Hnd1. by apply NoDup_app in Hnd1 as [? _]. }
  destruct (ttl_evict_all_view (take m ks1) c Hc Hndm) as (_ & _ & _ & Hlenm).
  { intros i' Hi'. apply Hreg. by eapply subseteq_take. }
  rewrite Hlenm, length_take in Hover.
  apply lookup_lt_Some in Hmi. lia.
Qed.

Lemma ttl_inv_purge c clk : inv c → inv (purgeToCapacity nilKey c clk).
Proof.
  intros Hc. by destruct (ttl_purge_prefix c clk Hc) as (? & ? & _ & _ & ? & _).
Qed.

Lemma ttl_purge_params c clk :
  params (purgeToCapacity nilKey c clk) = params c.
Proof.
  unfold purgeToCapacity.
  destruct (ttl_purge_walk_prefix clk (expKeys c) c 0%nat)
    as (ks1 & ks2 & _ & -> & _).
  apply ttl_evict_all_params.
Qed.

(** ** add and get keep the invariant *)

Lemma ttl_add_existing c k v clk ee :
  inv c → the_map c !! k = Some ee →
  the_map (add nilKey c k v clk)
    = <[k := Entry (key ee) (Add (clk 0%nat) (expiry c)) v]> (the_map c) ∧
  the_index (add nilKey c k v clk)
    = <[instant c (clk 0%nat) := k]>
        (delete (UnixNano (ttl ee)) (the_index c)) ∧
  inv (add nilKey c k v clk) ∧
  params (add nilKey c k v clk) = params c.
Proof.
  intros Hc Hk.
  destruct (ttl_inv_cases c Hc) as [[Hm Hx]|(m & x & Hm & Hx)].
  { unfold the_map in Hk. rewrite Hm in Hk. simpl in Hk.
    by rewrite lookup_empty in Hk. }
  unfold add. assert (init c = c) as -> by (unfold init; by rewrite Hm).
  rewrite Hk.
  set (c1 := TtlCache _ _ _ _ _).
  assert (the_map c1 = <[k := Entry (key ee) (ttl ee) v]> (the_map c)) as Hm1
    by (unfold c1, the_map; simpl; by rewrite Hm).
  assert (the_index c1 = the_index c) as Hx1 by done.
  assert (inv c1) as Hc1.
  { split.
    - unfold c1; simpl. by rewrite Hm, Hx.
    - intros k' e'. rewrite Hm1, lookup_insert_Some.
      intros [[<- <-]|[_ Hk']]; simpl.
      + by apply (ttl_keyed c Hc k ee).
      + by apply (ttl_keyed c Hc).
    - intros i k'. rewrite Hx1, Hm1. intros Hi.
      destruct (ttl_sound c Hc i k' Hi) as (e' & He' & Hie').
      destruct (decide (k = k')) as [<-|Hne].
      + rewrite lookup_insert_eq. eexists. split; [done|]. simpl. congruence.
      + rewrite lookup_insert_ne by done. eauto. }
  destruct (ttl_changeTTL_view c1 k (Entry (key ee) (ttl ee) v) (clk 0%nat) Hc1)
    as (Hm2 & Hx2 & Hc2).
  { by rewrite Hm1, lookup_insert_eq. }
  rewrite Hm2, Hx2, Hm1, Hx1, insert_insert_eq.
  split_and!; [done|done|done|]. by rewrite ttl_changeTTL_params.
Qed.

Lemma ttl_inv_add c k v clk : inv c → inv (add nilKey c k v clk).
Proof.
  intros Hc. destruct (the_map c !! k) as [ee|] eqn:Hk.
  - by destruct (ttl_add_existing c k v clk ee Hc Hk) as (_ & _ & ? & _).
  - rewrite ttl_add_new by done. simpl.
    destruct (ttl_stored_view c k v (clk 0%nat) Hc Hk) as (_ & _ & Hc1).
    destruct (_ && _); [by apply ttl_inv_purge|done].
Qed.

Lemma ttl_add_params c k v clk : params (add nilKey c k v clk) = params c.
Proof.
  unfold add.
  assert (params (init c) = params c) as Hp
    by (unfold init; by destruct (cache c)).
  destruct (the_map (init c) !! k).
  - by rewrite ttl_changeTTL_params.
  - simpl. destruct (_ && _); [rewrite ttl_purge_params|]; done.
Qed.

Lemma ttl_get_params c k clk : params (get c k clk).1 = params c.
Proof.
  unfold get. destruct (cache c) as [m|]; [|done].
  destruct (m !! k) as [e|]; [|done].
  destruct (After _ _); simpl.
  - unfold remove. destruct (cache c) as [m'|]; [|done].
    by destruct (m' !! k).
  - destruct (updateAgeOnGet c); [|done]. apply ttl_changeTTL_params.
Qed.

Lemma ttl_inv_get c k clk : inv c → inv (get c k clk).1.
Proof.
  intros Hc. unfold get. destruct (cache c) as [m|] eqn:Hm; [|done].
  destruct (m !! k) as [e|] eqn:Hk; [|done].
  assert (the_map c !! k = Some e) as Hk'
    by (unfold the_map; by rewrite Hm).
  destruct (After _ _); simpl.
  - by apply ttl_inv_remove.
  - destruct (updateAgeOnGet c); [|done].
    by destruct (ttl_changeTTL_view c k e (clk 1%nat) Hc Hk') as (_ & _ & ?).
Qed.

Lemma ttl_inv_exec c o : inv c → inv (exec nilKey c o).1.
Proof.
  intros Hc. destruct o; simpl.
  - by apply ttl_inv_add.
  - by apply ttl_inv_get.
  - by apply ttl_inv_remove.
  - done.
  - apply ttl_inv_clear.
Qed.

Lemma ttl_reachable_inv c : reachable nilKey c → inv c.
Proof.
  induction 1; [apply ttl_inv_new|by apply ttl_inv_exec].
Qed.

(** ** The index invariant of the design document *)

Lemma ttl_indexed_alt c : indexed c ↔ inv c ∧ complete c.
Proof.
  split.
  - intros [Hc Hex]. split; [done|]. intros k e Hk. by apply (Hex k e Hk).
  - intros [Hc Hco]. split; [done|]. intros k e Hk i. split.
    + intros Hi. destruct (ttl_sound c Hc i k Hi) as (e' & He' & <-).
      congruence.
    + intros ->. by apply Hco.
Qed.

Lemma ttl_complete_remove c k : inv c → complete c → complete (remove c k).
Proof.
  intros Hc Hco. destruct (the_map c !! k) as [e|] eqn:Hk;
    [|by rewrite ttl_remove_absent].
  intros k' e'. rewrite the_map_remove by done.
  rewrite (the_index_remove c k e Hk), lookup_delete_Some.
  intros [Hne Hk']. rewrite lookup_delete_ne; [by apply Hco|].
  intros Heq. pose proof (Hco k e Hk) as H1. pose proof (Hco k' e' Hk') as H2.
  rewrite Heq in H1. congruence.
Qed.

Lemma ttl_complete_evict_all ks : ∀ c,
  inv c → complete c →
  inv (evict_all nilKey c ks) ∧ complete (evict_all nilKey c ks).
Proof.
  induction ks as [|i ks IH]; intros c Hc Hco; [done|].
  simpl. apply IH; [by apply ttl_inv_remove|by apply ttl_complete_remove].
Qed.

Lemma ttl_complete_changeTTL c k now :
  inv c → complete c → free_for c k (instant c now) →
  complete (changeTTL c k now).
Proof.
  intros Hc Hco Hfree. destruct (the_map c !! k) as [ee|] eqn:Hk;
    [|by rewrite ttl_changeTTL_absent].
  destruct (ttl_changeTTL_view c k ee now Hc Hk) as (Hm & Hx & _).
  intros k' e'. rewrite Hm, Hx, lookup_insert_Some.
  intros [[<- <-]|[Hne Hk']]; simpl.
  - apply lookup_insert_eq.
  - pose proof (Hco k' e' Hk') as Hreg.
    rewrite lookup_insert_ne.
    + rewrite lookup_delete_ne; [done|].
      intros Heq. pose proof (Hco k ee Hk) as H1. rewrite Heq in H1.
      congruence.
    + intros Heq. apply Hne. symmetry. apply Hfree.
      by rewrite Heq.
Qed.

Lemma ttl_complete_stored c k v now :
  inv c → complete c → the_map c !! k = None →
  free_for c k (instant c now) → complete (stored c k v now).
Proof.
  intros Hc Hco Hk Hfree.
  destruct (ttl_stored_view c k v now Hc Hk) as (Hm & Hx & _).
  intros k' e'. rewrite Hm, Hx, lookup_insert_Some.
  intros [[<- <-]|[Hne Hk']]; simpl.
  - apply lookup_insert_eq.
  - pose proof (Hco k' e' Hk') as Hreg.
    rewrite lookup_insert_ne; [done|].
    intros Heq. apply Hne. symmetry. apply Hfree.
    by rewrite Heq.
Qed.

Lemma ttl_indexed_add c k v clk :
  indexed c → free_for c k (instant c (clk 0%nat)) →
  indexed (add nilKey c k v clk).
Proof.
  rewrite !ttl_indexed_alt. intros [Hc Hco] Hfree.
  split; [by apply ttl_inv_add|].
  destruct (the_map c !! k) as [ee|] eqn:Hk.
  - destruct (ttl_add_existing c k v clk ee Hc Hk) as (Hm & Hx & _).
    intros k' e'. rewrite Hm, Hx, lookup_insert_Some.
    intros [[<- <-]|[Hne Hk']]; simpl.
    + apply lookup_insert_eq.
    + pose proof (Hco k' e' Hk') as Hreg.
      rewrite lookup_insert_ne.
      * rewrite lookup_delete_ne; [done|].
        intros Heq. pose proof (Hco k ee Hk) as H1. rewrite Heq in H1.
        congruence.
      * intros Heq. apply Hne. symmetry. apply Hfree.
        by rewrite Heq.
  - rewrite ttl_add_new by done. simpl.
    destruct (ttl_stored_view c k v (clk 0%nat) Hc Hk) as (_ & _ & Hc1).
    pose proof (ttl_complete_stored c k v _ Hc Hco Hk Hfree) as Hco1.
    destruct (_ && _); [|done].
    destruct (ttl_purge_prefix (stored c k v (clk 0%nat)) (λ n, clk (S n)) Hc1)
      as (ks1 & ks2 & _ & -> & _).
    by apply ttl_complete_evict_all.
Qed.

Lemma ttl_indexed_get c k clk :
  indexed c →
  (updateAgeOnGet c = true → free_for c k (instant c (clk 1%nat))) →
  indexed (get c k clk).1.
Proof.
  rewrite !ttl_indexed_alt. intros [Hc Hco] Hfree.
  split; [by apply ttl_inv_get|].
  unfold get. destruct (cache c) as [m|] eqn:Hm; [|done].
  destruct (m !! k) as [e|] eqn:Hk; [|done].
  destruct (After _ _); simpl.
  - by apply ttl_complete_remove.
  - destruct (updateAgeOnGet c); [|done].
    apply ttl_complete_changeTTL; auto.
Qed.

Lemma ttl_indexed_remove c k : indexed c → indexed (remove c k).
Proof.
  rewrite !ttl_indexed_alt. intros [Hc Hco].
  split; [by apply ttl_inv_remove|by apply ttl_complete_remove].
Qed.

Lemma ttl_indexed_empty c : the_map c = ∅ → inv c → indexed c.
Proof.
  intros Hm Hc. split; [done|]. intros k e. by rewrite Hm, lookup_empty.
Qed.

(** A key that collides with the instant of another key orphans it. *)
Lemma ttl_collision_orphans c k k' v clk :
  indexed c → k' ≠ k → the_index c !! instant c (clk 0%nat) = Some k' →
  orphan (add nilKey c k v clk) k'.
Proof.
  rewrite ttl_indexed_alt. intros [Hc Hco] Hne Hx.
  destruct (ttl_sound c Hc _ _ Hx) as (e' & Hk' & Hie').
  assert (∀ i, the_index c !! i = Some k' → i = instant c (clk 0%nat))
    as Honly.
  { intros i Hi. destruct (ttl_sound c Hc _ _ Hi) as (e'' & ? & <-).
    congruence. }
  destruct (the_map c !! k) as [ee|] eqn:Hk.
  - destruct (ttl_add_existing c k v clk ee Hc Hk) as (Hm & Hx' & _).
    split.
    + rewrite Hm, lookup_insert_ne by done. eauto.
    + intros i. rewrite Hx', lookup_insert_Some, lookup_delete_Some.
      intros [[_ ?]|(Hni & _ & Hi)]; [done|]. by apply Hni; symmetry; apply Honly.
  - rewrite ttl_add_new by done. simpl.
    destruct (ttl_stored_view c k v (clk 0%nat) Hc Hk) as (Hm & Hx' & Hc1).
    assert (orphan (stored c k v (clk 0%nat)) k') as [Hin Hun].
    { split.
      - rewrite Hm, lookup_insert_ne by done. eauto.
      - intros i. rewrite Hx', lookup_insert_Some.
        intros [[_ ?]|(Hni & Hi)]; [done|]. by apply Hni; symmetry; apply Honly. }
    destruct (_ && _); [|done].
    destruct (ttl_purge_prefix (stored c k v (clk 0%nat)) (λ n, clk (S n)) Hc1)
      as (ks1 & ks2 & _ & _ & _ & Hxv & Hmv & _).
    destruct Hin as [e1 He1]. split.
    + exists e1. apply Hmv. split; [done|]. intros i _. apply Hun.
    + intros i. rewrite Hxv. case_decide; [done|apply Hun].
Qed.

(** The purge reaches a key through the index only. *)
Lemma ttl_purge_keeps_orphan c clk k :
  inv c → orphan c k → orphan (purgeToCapacity nilKey c clk) k.
Proof.
  intros Hc [[e Hk] Hun].
  destruct (ttl_purge_prefix c clk Hc)
    as (ks1 & ks2 & _ & _ & _ & Hx & Hm & _).
  split.
  - exists e. apply Hm. split; [done|]. intros i _. apply Hun.
  - intros i. rewrite Hx. case_decide; [done|apply Hun].
Qed.

(** ** What the purge achieves *)

Lemma ttl_purge_net c clk :
  inv c →
  let c' := purgeToCapacity nilKey c clk in
  (∀ lo, (∀ n, lo ≤ UnixNano (clk n)) →
     ∀ i k, the_index c !! i = Some k → i ≤ lo →
       the_index c' !! i = None ∧ the_map c' !! k = None) ∧
  (len c' ≤ maxEntries c ∨ the_index c' = ∅) ∧
  (∀ i1 i2, is_Some (the_index c !! i1) → the_index c' !! i1 = None →
     is_Some (the_index c' !! i2) → i1 ≤ i2).
Proof.
  intros Hc c'.
  destruct (ttl_purge_prefix c clk Hc)
    as (ks1 & ks2 & Hks & _ & Hc' & Hx & Hm & Hlen & Hstop & _).
  fold c' in Hc', Hx, Hm, Hlen, Hstop.
  pose proof (ttl_expKeys_sorted c) as Hsorted. rewrite Hks in Hsorted.
  assert (∀ i, is_Some (the_index c !! i) → i ∉ ks1 → i ∈ ks2) as Hrest.
  { intros i Hi Hni. apply ttl_expKeys_elem_of in Hi. rewrite Hks in Hi.
    apply elem_of_app in Hi as [?|?]; done. }
  split_and!.
  - intros lo Hlo i k Hi Hle.
    assert (i ∈ ks1) as Hin.
    { destruct (decide (i ∈ ks1)) as [|Hni]; [done|].
      pose proof (Hrest i (mk_is_Some _ _ Hi) Hni) as Hi2.
      destruct ks2 as [|i2 ks2]; [by apply elem_of_nil in Hi2|].
      destruct Hstop as [_ [n Hn]]. specialize (Hlo n).
      apply StronglySorted_app_1_r, StronglySorted_cons in Hsorted
        as [Hall _].
      apply elem_of_cons in Hi2 as [->|Hi2]; [lia|].
      rewrite Forall_forall in Hall. specialize (Hall i Hi2). lia. }
    split.
    + by rewrite Hx, decide_True.
    + destruct (the_map c' !! k) as [e|] eqn:Hk; [|done].
      apply Hm in Hk as [_ Hk]. by destruct (Hk i Hin).
  - destruct ks2 as [|i2 ks2]; [right|left; tauto].
    apply map_empty. intros i. rewrite Hx. case_decide as Hin; [done|].
    destruct (the_index c !! i) eqn:Hi; [|done].
    pose proof (Hrest i (mk_is_Some _ _ Hi) Hin) as Hi2.
    by apply elem_of_nil in Hi2.
  - intros i1 i2 Hi1 Hgone Hi2.
    rewrite Hx in Hgone, Hi2.
    destruct (decide (i1 ∈ ks1)) as [Hin1|Hni1];
      [|destruct Hi1 as [? Hi1]; congruence].
    destruct (decide (i2 ∈ ks1)) as [|Hni2]; [by destruct Hi2|].
    eapply StronglySorted_app_1_elem_of; eauto.
Qed.

Lemma ttl_add_bound c k v clk :
  inv c → maxEntries c ≠ 0 → len c ≤ maxEntries c →
  len (add nilKey c k v clk) ≤ maxEntries c.
Proof.
  intros Hc Hmax Hlen. destruct (the_map c !! k) as [ee|] eqn:Hk.
  - destruct (ttl_add_existing c k v clk ee Hc Hk) as (Hm & _).
    unfold len in *. rewrite Hm, map_size_insert_Some; eauto.
  - rewrite ttl_add_new by done. simpl.
    destruct (ttl_stored_view c k v (clk 0%nat) Hc Hk) as (Hm & Hx & Hc1).
    set (c1 := stored c k v (clk 0%nat)) in *.
    assert (len c1 = len c + 1) as Hlen1.
    { unfold len. rewrite Hm, map_size_insert_None by done. lia. }
    assert (maxEntries c1 = maxEntries c) as Hmax1.
    { pose proof (ttl_stored_params c k v (clk 0%nat)) as Hp.
      unfold params in Hp. fold c1 in Hp. congruence. }
    rewrite bool_decide_true by done. simpl.
    destruct (maxEntries c <? len c1) eqn:Hover; [|lia].
    destruct (ttl_purge_prefix c1 (λ n, clk (S n)) Hc1)
      as (ks1 & ks2 & Hks & _ & _ & _ & _ & Hlen' & Hstop & _).
    destruct ks2 as [|i2 ks2]; [|lia].
    rewrite app_nil_r in Hks. subst ks1.
    assert (instant c (clk 0%nat) ∈ expKeys c1) as Hin.
    { apply ttl_expKeys_elem_of. rewrite Hx, lookup_insert_eq. eauto. }
    destruct (expKeys c1) as [|i1 ks1]; [by apply elem_of_nil in Hin|].
    simpl in Hlen'. lia.
Qed.

Lemma ttl_len_nonneg c : 0 ≤ len c.
Proof. unfold len. lia. Qed.

(** ** An entry just added *)

Lemma ttl_add_lookup c k v clk e :
  inv c → the_map (add nilKey c k v clk) !! k = Some e →
  e = Entry k (Add (clk 0%nat) (expiry c)) v.
Proof.
  intros Hc. destruct (the_map c !! k) as [ee|] eqn:Hk.
  - destruct (ttl_add_existing c k v clk ee Hc Hk) as (Hm & _).
    rewrite Hm, lookup_insert_eq. intros [= <-].
    by rewrite (ttl_keyed c Hc k ee Hk).
  - rewrite ttl_add_new by done. simpl.
    destruct (ttl_stored_view c k v (clk 0%nat) Hc Hk) as (Hm & _ & Hc1).
    assert (the_map (stored c k v (clk 0%nat)) !! k = Some e → 
            e = Entry k (Add (clk 0%nat) (expiry c)) v) as Hst.
    { rewrite Hm, lookup_insert_eq. congruence. }
    destruct (_ && _); [|done].
    destruct (ttl_purge_prefix (stored c k v (clk 0%nat)) (λ n, clk (S n)) Hc1)
      as (ks1 & ks2 & _ & _ & _ & _ & Hmv & _).
    intros He. apply Hmv in He as [He _]. auto.
Qed.

Lemma ttl_get_view c k clk :
  get c k clk =
    match the_map c !! k with
    | Some ele =>
        if After (clk 0%nat) (ttl ele) then (remove c k, None)
        else ((if updateAgeOnGet c then changeTTL c k (clk 1%nat) else c),
              Some (value ele))
    | None => (c, None)
    end.
Proof.
  unfold get, the_map. destruct (cache c); simpl; [done|].
  by rewrite lookup_empty.
Qed.

Lemma ttl_size_len c : size c = len c.
Proof.
  unfold size, len, the_map. destruct (cache c); simpl; [done|].
  by rewrite map_size_empty.
Qed.

(** ** Engines that differ in a nil map answer alike *)

Lemma ttl_same_params c1 c2 :
  same c1 c2 →
  maxEntries c1 = maxEntries c2 ∧ updateAgeOnGet c1 = updateAgeOnGet c2 ∧
  expiry c1 = expiry c2.
Proof. intros [Hp _]. unfold params in Hp. by simplify_eq. Qed.

Lemma ttl_same_remove c1 c2 k :
  inv c1 → inv c2 → same c1 c2 → same (remove c1 k) (remove c2 k).
Proof.
  intros H1 H2 (Hp & Hm & Hx). split_and!.
  - by rewrite !ttl_remove_params.
  - rewrite !the_map_remove by done. by rewrite Hm.
  - destruct (the_map c1 !! k) as [e|] eqn:Hk.
    + rewrite (the_index_remove c1 k e Hk).
      rewrite Hm in Hk. rewrite (the_index_remove c2 k e Hk). by rewrite Hx.
    + rewrite (ttl_remove_absent c1) by done.
      rewrite Hm in Hk. by rewrite (ttl_remove_absent c2).
Qed.

Lemma ttl_same_changeTTL c1 c2 k now :
  inv c1 → inv c2 → same c1 c2 →
  same (changeTTL c1 k now) (changeTTL c2 k now).
Proof.
  intros H1 H2 Hs. pose proof Hs as (Hp & Hm & Hx).
  destruct (ttl_same_params c1 c2 Hs) as (_ & _ & Hexp).
  destruct (the_map c1 !! k) as [e|] eqn:Hk.
  - destruct (ttl_changeTTL_view c1 k e now H1 Hk) as (Hm1 & Hx1 & _).
    rewrite Hm in Hk.
    destruct (ttl_changeTTL_view c2 k e now H2 Hk) as (Hm2 & Hx2 & _).
    split_and!.
    + by rewrite !ttl_changeTTL_params.
    + rewrite Hm1, Hm2. by rewrite Hm, Hexp.
    + rewrite Hx1, Hx2. unfold instant. by rewrite Hx, Hexp.
  - rewrite (ttl_changeTTL_absent c1) by done.
    rewrite Hm in Hk. by rewrite (ttl_changeTTL_absent c2).
Qed.

Lemma ttl_same_purge_walk clk ks : ∀ j c1 c2,
  inv c1 → inv c2 → same c1 c2 →
  same (purge_walk nilKey clk j ks c1) (purge_walk nilKey clk j ks c2).
Proof.
  induction ks as [|i ks IH]; intros j c1 c2 H1 H2 Hs; [done|].
  pose proof Hs as (Hp & Hm & Hx).
  destruct (ttl_same_params c1 c2 Hs) as (Hmax & _ & _).
  simpl. unfold len, registered. rewrite Hm, Hx, Hmax.
  assert (same (remove c1 (default nilKey (the_index c2 !! i)))
               (remove c2 (default nilKey (the_index c2 !! i)))) as Hs'
    by (by apply ttl_same_remove).
  destruct (_ <=? _); [destruct (_ <? _); [done|]|];
    apply IH; auto using ttl_inv_remove.
Qed.

Lemma ttl_same_purge c1 c2 clk :
  inv c1 → inv c2 → same c1 c2 →
  same (purgeToCapacity nilKey c1 clk) (purgeToCapacity nilKey c2 clk).
Proof.
  intros H1 H2 Hs. unfold purgeToCapacity, expKeys.
  destruct Hs as (Hp & Hm & Hx). rewrite Hx.
  by apply ttl_same_purge_walk.
Qed.

Lemma ttl_same_add c1 c2 k v clk :
  inv c1 → inv c2 → same c1 c2 →
  same (add nilKey c1 k v clk) (add nilKey c2 k v clk).
Proof.
  intros H1 H2 Hs. pose proof Hs as (Hp & Hm & Hx).
  destruct (ttl_same_params c1 c2 Hs) as (Hmax & _ & Hexp).
  destruct (the_map c1 !! k) as [e|] eqn:Hk.
  - destruct (ttl_add_existing c1 k v clk e H1 Hk) as (Hm1 & Hx1 & _ & Hp1).
    rewrite Hm in Hk.
    destruct (ttl_add_existing c2 k v clk e H2 Hk) as (Hm2 & Hx2 & _ & Hp2).
    split_and!.
    + congruence.
    + rewrite Hm1, Hm2. by rewrite Hm, Hexp.
    + rewrite Hx1, Hx2. unfold instant. by rewrite Hx, Hexp.
  - rewrite (ttl_add_new c1) by done.
    destruct (ttl_stored_view c1 k v (clk 0%nat) H1 Hk) as (Hm1 & Hx1 & Hc1).
    rewrite Hm in Hk. rewrite (ttl_add_new c2) by done.
    destruct (ttl_stored_view c2 k v (clk 0%nat) H2 Hk) as (Hm2 & Hx2 & Hc2).
    assert (same (stored c1 k v (clk 0%nat)) (stored c2 k v (clk 0%nat)))
      as Hst.
    { split_and!.
      - by rewrite !ttl_stored_params.
      - rewrite Hm1, Hm2. by rewrite Hm, Hexp.
      - rewrite Hx1, Hx2. unfold instant. by rewrite Hx, Hexp. }
    simpl. pose proof Hst as (_ & Hmst & _).
    assert (len (stored c1 k v (clk 0%nat)) = len (stored c2 k v (clk 0%nat)))
      as -> by (unfold len; by rewrite Hmst).
    rewrite Hmax.
    destruct (_ && _); [|done]. by apply ttl_same_purge.
Qed.

Lemma ttl_same_get c1 c2 k clk :
  inv c1 → inv c2 → same c1 c2 →
  same (get c1 k clk).1 (get c2 k clk).1 ∧ (get c1 k clk).2 = (get c2 k clk).2.
Proof.
  intros H1 H2 Hs. pose proof Hs as (Hp & Hm & Hx).
  destruct (ttl_same_params c1 c2 Hs) as (_ & Hupd & _).
  rewrite !ttl_get_view, Hm, Hupd.
  destruct (the_map c2 !! k) as [e|]; [|done].
  destruct (After _ _); simpl.
  - split; [by apply ttl_same_remove|done].
  - split; [|done]. destruct (updateAgeOnGet c2); [|done].
    by apply ttl_same_changeTTL.
Qed.

Lemma ttl_same_exec c1 c2 o :
  inv c1 → inv c2 → same c1 c2 →
  same (exec nilKey c1 o).1 (exec nilKey c2 o).1 ∧
  (exec nilKey c1 o).2 = (exec nilKey c2 o).2.
Proof.
  intros H1 H2 Hs. destruct o; simpl.
  - split; [by apply ttl_same_add|done].
  - destruct (ttl_same_get c1 c2 k clk H1 H2 Hs) as [? ->]. done.
  - split; [by apply ttl_same_remove|done].
  - split; [done|]. rewrite !ttl_size_len. unfold len.
    destruct Hs as (_ & -> & _). done.
  - split; [|done]. destruct Hs as (Hp & _ & _). by split.
Qed.

Lemma ttl_same_run os : ∀ c1 c2,
  inv c1 → inv c2 → same c1 c2 → run nilKey c1 os = run nilKey c2 os.
Proof.
  induction os as [|o os IH]; intros c1 c2 H1 H2 Hs; [done|].
  simpl. destruct (ttl_same_exec c1 c2 o H1 H2 Hs) as [Hs' ->].
  f_equal. apply IH; auto using ttl_inv_exec.
Qed.

(** ** The size bound in reachable states *)

Lemma ttl_len_changeTTL c k now : inv c → len (changeTTL c k now) = len c.
Proof.
  intros Hc. destruct (the_map c !! k) as [ee|] eqn:Hk;
    [|by rewrite ttl_changeTTL_absent].
  destruct (ttl_changeTTL_view c k ee now Hc Hk) as (Hm & _).
  unfold len. rewrite Hm, map_size_insert_Some; eauto.
Qed.

Lemma ttl_len_remove_le c k : inv c → len (remove c k) ≤ len c.
Proof.
  intros Hc. destruct (the_map c !! k) as [e|] eqn:Hk.
  - rewrite ttl_len_remove; eauto. lia.
  - by rewrite ttl_remove_absent.
Qed.

Lemma ttl_len_get c k clk : inv c → len (get c k clk).1 ≤ len c.
Proof.
  intros Hc. rewrite ttl_get_view.
  destruct (the_map c !! k) as [e|]; [|done].
  destruct (After _ _); simpl; [by apply ttl_len_remove_le|].
  destruct (updateAgeOnGet c); [|done]. by rewrite ttl_len_changeTTL.
Qed.

Lemma ttl_exec_params c o : params (exec nilKey c o).1 = params c.
Proof.
  destruct o; simpl;
    auto using ttl_add_params, ttl_get_params, ttl_remove_params.
Qed.

Lemma ttl_reachable_bound c :
  reachable nilKey c → 0 < maxEntries c → len c ≤ maxEntries c.
Proof.
  induction 1 as [maxEntries expiry upd|c o Hr IH]; intros Hmax.
  - unfold len, the_map. simpl in *. rewrite map_size_empty. lia.
  - pose proof (ttl_reachable_inv c Hr) as Hc.
    pose proof (ttl_exec_params c o) as Hp. unfold params in Hp.
    assert (maxEntries (exec nilKey c o).1 = maxEntries c) as Hm
      by congruence.
    rewrite Hm in *. specialize (IH Hmax).
    destruct o; simpl.
    + apply ttl_add_bound; [done|lia|done].
    + pose proof (ttl_len_get c k clk Hc). lia.
    + pose proof (ttl_len_remove_le c k Hc). lia.
    + done.
    + unfold len, the_map. simpl. rewrite map_size_empty. lia.
Qed.

Lemma ttl_add_get c k v clk clk' :
  inv c → is_Some (the_map (add nilKey c k v clk) !! k) →
  (get (add nilKey c k v clk) k clk').2 =
    if After (clk' 0%nat) (Add (clk 0%nat) (expiry c)) then None else Some v.
Proof.
  intros Hc [e Hk]. pose proof (ttl_add_lookup c k v clk e Hc Hk) as ->.
  rewrite ttl_get_view, Hk. simpl. by destruct (After _ _).
Qed.

(** ** Sizes of the two maps, and engines without a positive bound *)

(** An index whose instants are those of distinct stored entries has no
    more instants than the store has entries. *)
Lemma ttl_index_le (x : gmap Z Key) : ∀ m : gmap Key (entry Key V),
  (∀ i k, x !! i = Some k → ∃ e, m !! k = Some e ∧ UnixNano (ttl e) = i) →
  (base.size x ≤ base.size m)%nat.
Proof.
  induction x as [|i k x Hi _ IH] using map_first_key_ind; intros m Hsound.
  { rewrite map_size_empty. lia. }
  destruct (Hsound i k) as (e & He & Hei); [apply lookup_insert_eq|].
  rewrite map_size_insert_None by done.
  assert (base.size (delete k m) = pred (base.size m)) as Hdel
    by (apply map_size_delete_Some; eauto).
  assert (base.size m ≠ 0%nat) as Hne.
  { apply map_size_non_empty_iff. intros ->. by rewrite lookup_empty in He. }
  specialize (IH (delete k m)).
  assert (base.size x ≤ base.size (delete k m))%nat; [|lia].
  apply IH. intros j k' Hj.
  assert (j ≠ i) as Hji by (intros ->; by rewrite Hi in Hj).
  destruct (Hsound j k') as (e' & He' & Hej).
  { by rewrite lookup_insert_ne. }
  exists e'. split; [|done].
  rewrite lookup_delete_ne; [done|].
  intros <-. rewrite He in He'. injection He' as <-. congruence.
Qed.

(** The store after an insert into an unbounded engine. *)
Lemma ttl_add_unbounded c k v clk :
  inv c → maxEntries c = 0 →
  the_map (add nilKey c k v clk)
    = <[k := Entry k (Add (clk 0%nat) (expiry c)) v]> (the_map c).
Proof.
  intros Hc Hz. destruct (the_map c !! k) as [ee|] eqn:Hk.
  - destruct (ttl_add_existing c k v clk ee Hc Hk) as (-> & _).
    by rewrite (ttl_keyed c Hc k ee Hk).
  - rewrite ttl_add_new by done. simpl.
    rewrite bool_decide_false, andb_false_l by (intros Hnz; by apply Hnz).
    by destruct (ttl_stored_view c k v (clk 0%nat) Hc Hk) as (-> & _).
Qed.

(** An engine with a negative maxEntries holds nothing. *)
Lemma ttl_negative_empty c :
  reachable nilKey c → maxEntries c < 0 → the_map c = ∅.
Proof.
  induction 1 as [|c o Hr IH]; [done|].
  pose proof (ttl_exec_params c o) as Hp. unfold params in Hp.
  assert (maxEntries (exec nilKey c o).1 = maxEntries c) as -> by congruence.
  intros Hneg. specialize (IH Hneg).
  pose proof (ttl_reachable_inv c Hr) as Hc.
  assert (∀ k, the_map c !! k = None) as Hno
    by (intros k; by rewrite IH, lookup_empty).
  destruct o as [k v clk|k clk|k| |]; simpl.
  - rewrite ttl_add_new by done. simpl.
    destruct (ttl_stored_view c k v (clk 0%nat) Hc (Hno k)) as (Hm1 & Hx1 & Hc1).
    pose proof (ttl_stored_params c k v (clk 0%nat)) as Hp1. unfold params in Hp1.
    assert (maxEntries (stored c k v (clk 0%nat)) = maxEntries c) as Hmax1
      by congruence.
    pose proof (ttl_len_nonneg (stored c k v (clk 0%nat))) as Hlen1.
    rewrite bool_decide_true, andb_true_l by lia.
    destruct (Z.ltb_spec (maxEntries c) (len (stored c k v (clk 0%nat))));
      [|lia].
    destruct (ttl_purge_prefix (stored c k v (clk 0%nat))
                (λ n, clk (S n)) Hc1)
      as (ks1 & ks2 & Hks & _ & _ & _ & Hmap & _ & Hstop & _).
    destruct ks2 as [|i ks2].
    2:{ destruct Hstop as [Hle _].
        pose proof (ttl_len_nonneg
          (purgeToCapacity nilKey (stored c k v (clk 0%nat)) (λ n, clk (S n)))).
        lia. }
    rewrite app_nil_r in Hks. subst ks1.
    apply map_empty. intros k'.
    destruct (the_map (purgeToCapacity nilKey _ _) !! k') as [e|] eqn:Hk';
      [|done].
    apply Hmap in Hk' as [Hk' Hfree].
    rewrite Hm1, IH in Hk'.
    apply lookup_insert_Some in Hk' as [[<- _]|[_ Hk']];
      [|by rewrite lookup_empty in Hk'].
    destruct (Hfree (instant c (clk 0%nat))).
    + apply ttl_expKeys_elem_of. rewrite Hx1, lookup_insert_eq. eauto.
    + by rewrite Hx1, lookup_insert_eq.
  - rewrite ttl_get_view, Hno. done.
  - by rewrite ttl_remove_absent.
  - done.
  - done.
Qed.

(** A store each of whose entries is registered at its own instant has no
    more entries than the index has instants. *)
Lemma ttl_index_ge (m : gmap Key (entry Key V)) : ∀ x : gmap Z Key,
  (∀ k e, m !! k = Some e → x !! UnixNano (ttl e) = Some k) →
  (base.size m ≤ base.size x)%nat.
Proof.
  induction m as [|k e m Hk _ IH] using map_first_key_ind; intros x Hreg.
  { rewrite map_size_empty. lia. }
  pose proof (Hreg k e (lookup_insert_eq _ _ _)) as Hx.
  rewrite map_size_insert_None by done.
  assert (base.size (delete (UnixNano (ttl e)) x) = pred (base.size x)) as Hdel
    by (apply map_size_delete_Some; eauto).
  assert (base.size x ≠ 0%nat) as Hne.
  { apply map_size_non_empty_iff. intros ->. by rewrite lookup_empty in Hx. }
  assert (base.size m ≤ base.size (delete (UnixNano (ttl e)) x))%nat; [|lia].
  apply IH. intros k' e' Hk'.
  assert (k' ≠ k) as Hne' by (intros ->; by rewrite Hk in Hk').
  pose proof (Hreg k' e') as Hx'. rewrite lookup_insert_ne in Hx' by done.
  specialize (Hx' Hk').
  rewrite lookup_delete_ne; [done|].
  intros Heq. rewrite Heq, Hx' in Hx. by injection Hx.
Qed.

(** Under the invariant of the design document the two maps have the same
    size. *)
Lemma ttl_indexed_size c :
  indexed c → base.size (the_index c) = base.size (the_map c).
Proof.
  intros [Hc Hcomp]%ttl_indexed_alt. apply Nat.le_antisymm.
  - apply ttl_index_le, Hc.
  - by apply ttl_index_ge.
Qed.

Lemma length_expKeys c : length (expKeys c) = base.size (the_index c).
Proof.
  unfold expKeys.
  by rewrite merge_sort_Permutation, length_fmap, length_map_to_list.
Qed.

(** An insert at an instant later than every registered one, into an
    engine with none of its entries unregistered, keeps the inserted
    key. *)
Lemma ttl_add_keeps_new c k v clk :
  indexed c → the_map c !! k = None → 0 ≤ maxEntries c →
  (∀ i, is_Some (the_index c !! i) → i < instant c (clk 0%nat)) →
  (∀ n, UnixNano (clk (S n)) < instant c (clk 0%nat)) →
  the_map (add nilKey c k v clk) !! k
    = Some (Entry k (Add (clk 0%nat) (expiry c)) v).
Proof.
  intros Hix Hk Hmax Hlt Hclk.
  pose proof Hix as [Hc Hcomp]%ttl_indexed_alt.
  assert (the_index c !! instant c (clk 0%nat) = None) as Hfree.
  { destruct (the_index c !! instant c (clk 0%nat)) eqn:Hx; [|done].
    assert (instant c (clk 0%nat) < instant c (clk 0%nat)); [|lia].
    apply Hlt. eauto. }
  destruct (ttl_stored_view c k v (clk 0%nat) Hc Hk) as (Hm1 & Hx1 & Hc1).
  assert (indexed (stored c k v (clk 0%nat))) as Hix1.
  { apply ttl_indexed_alt. split; [done|].
    apply ttl_complete_stored; [done|done|done|].
    intros k' Hk'. by rewrite Hfree in Hk'. }
  pose proof (ttl_stored_params c k v (clk 0%nat)) as Hp1. unfold params in Hp1.
  assert (maxEntries (stored c k v (clk 0%nat)) = maxEntries c) as Hmax1
    by congruence.
  rewrite ttl_add_new by done. simpl.
  destruct (bool_decide (maxEntries c ≠ 0)) eqn:Hnz; simpl;
    [|by rewrite Hm1, lookup_insert_eq].
  apply bool_decide_eq_true in Hnz.
  destruct (Z.ltb_spec (maxEntries c) (len (stored c k v (clk 0%nat))));
    [|by rewrite Hm1, lookup_insert_eq].
  destruct (ttl_purge_prefix (stored c k v (clk 0%nat)) (λ n, clk (S n)) Hc1)
    as (ks1 & ks2 & Hks & _ & _ & _ & Hmap & _ & _ & Hforced).
  apply Hmap. split; [by rewrite Hm1, lookup_insert_eq|].
  intros i Hi Hreg.
  destruct (ttl_sound _ Hc1 i k Hreg) as (e & He & Hei).
  rewrite Hm1, lookup_insert_eq in He. injection He as <-. simpl in Hei.
  fold (instant c (clk 0%nat)) in Hei. subst i.
  apply list_elem_of_split in Hi as (front & back & ->).
  pose proof (ttl_expKeys_sorted (stored c k v (clk 0%nat))) as Hsort.
  pose proof (ttl_expKeys_NoDup (stored c k v (clk 0%nat))) as Hnd.
  pose proof (length_expKeys (stored c k v (clk 0%nat))) as Hlen.
  rewrite Hks, <- app_assoc in Hsort, Hnd, Hlen. simpl in Hsort, Hnd, Hlen.
  apply StronglySorted_app_1_r in Hsort.
  apply StronglySorted_cons in Hsort as [Hge _].
  apply NoDup_app in Hnd as (_ & _ & Hnd).
  apply NoDup_cons in Hnd as [Hnotin _].
  assert (back ++ ks2 = []) as Hrest.
  { destruct (back ++ ks2) as [|j rest] eqn:Hbk; [done|].
    assert (j ∈ expKeys (stored c k v (clk 0%nat))) as Hj.
    { rewrite Hks, <- app_assoc. simpl. rewrite Hbk.
      apply elem_of_app. right. right. by left. }
    apply ttl_expKeys_elem_of in Hj. rewrite Hx1 in Hj.
    assert (instant c (clk 0%nat) ≤ j) as Hle
      by (rewrite Forall_forall in Hge; apply Hge; by left).
    destruct (decide (j = instant c (clk 0%nat))) as [->|Hne].
    - destruct Hnotin. by left.
    - rewrite lookup_insert_ne in Hj by done.
      specialize (Hlt j Hj). lia. }
  apply app_eq_nil in Hrest as [-> ->].
  destruct (Hforced (length front) (instant c (clk 0%nat))) as [Hover|[n Hn]].
  - by apply list_lookup_middle.
  - rewrite Hmax1 in Hover.
    rewrite length_app in Hlen. simpl in Hlen.
    rewrite (ttl_indexed_size _ Hix1) in Hlen.
    unfold len in Hover. lia.
  - specialize (Hclk n). simpl in Hn. lia.
Qed.

(** An insert keeps its key when the key was stored already or the engine
    is unbounded. *)
Lemma ttl_add_keeps_stored c k v clk :
  inv c → is_Some (the_map c !! k) ∨ maxEntries c = 0 →
  the_map (add nilKey c k v clk) !! k
    = Some (Entry k (Add (clk 0%nat) (expiry c)) v).
Proof.
  intros Hc [[ee Hk]|Hz].
  - destruct (ttl_add_existing c k v clk ee Hc Hk) as (-> & _).
    by rewrite (ttl_keyed c Hc k ee Hk), lookup_insert_eq.
  - by rewrite ttl_add_unbounded, lookup_insert_eq.
Qed.

(** A lookup later than the expiry time of the entry just added finds
    nothing, whether the add has kept the entry or not. *)
Lemma ttl_add_get_late c k v clk clk' :
  inv c → Add (clk 0%nat) (expiry c) < clk' 0%nat →
  (get (add nilKey c k v clk) k clk').2 = None.
Proof.
  intros Hc Hlate.
  destruct (the_map (add nilKey c k v clk) !! k) as [e|] eqn:Hk.
  - rewrite ttl_add_get by eauto. unfold After.
    destruct (Z.ltb_spec (Add (clk 0%nat) (expiry c)) (clk' 0%nat));
      [done|lia].
  - by rewrite ttl_get_view, Hk.
Qed.

End facts.
End TTLFacts.

(** * Properties of runs *)

Module RunFacts.
Import Runs.
Section facts.
Context `{Countable Key} {V : Type} (nilKey : Key).

Lemma elem_of_seq_add maxEntries expiry (s : list (entry Key V)) k v now e :
  e ∈ LRUSpec.seq_add maxEntries expiry s k v now →
  e = Entry k (Add now expiry) v ∨ e ∈ s.
Proof.
  unfold LRUSpec.seq_add. destruct (LRUSpec.find_key k s).
  - intros [->|He]%elem_of_cons; [by left|]. right.
    unfold LRUSpec.without in He. by apply list_elem_of_filter in He as [_ ?].
  - destruct (_ && _).
    + intros He%LRUFacts.elem_of_drop_last.
      apply elem_of_cons in He as [->|He]; eauto.
    + intros [->|He]%elem_of_cons; eauto.
Qed.

Lemma lru_exec_ttl_bound (c : LRU.lruCache Key V) o lo :
  LRUSpec.inv c → (∀ t, t ∈ lru_written_at o → lo ≤ t) →
  (∀ e, e ∈ LRUSpec.contents c → lo + LRU.expiry c ≤ ttl e) →
  ∀ e, e ∈ LRUSpec.contents (LRUSpec.exec c o).1 → lo + LRU.expiry c ≤ ttl e.
Proof.
  intros Hc Ht Hb e. destruct o as [k v now|k now|k| |]; simpl.
  - destruct (LRUFacts.add_refines c k v now Hc) as [_ ->].
    intros [->|He]%elem_of_seq_add; [|by apply Hb].
    simpl. unfold Add. specialize (Ht now). simpl in Ht.
    assert (lo ≤ now) by (apply Ht; by left). lia.
  - destruct (LRUFacts.get_refines c k now Hc) as (_ & -> & _).
    unfold LRUSpec.seq_get.
    destruct (LRUSpec.find_key k (LRUSpec.contents c)) as [e0|] eqn:Hf;
      [|by apply Hb].
    destruct (LRUFacts.find_key_Some k _ e0 Hf) as [He0 _].
    assert (∀ e, e ∈ LRUSpec.without k (LRUSpec.contents c) →
                 lo + LRU.expiry c ≤ ttl e) as Hw.
    { intros e' He'. apply Hb. unfold LRUSpec.without in He'.
      by apply list_elem_of_filter in He' as [_ ?]. }
    destruct (After now (ttl e0)); simpl; [by apply Hw|].
    intros [->|He]%elem_of_cons; [by apply Hb|by apply Hw].
  - destruct (LRUFacts.inv_remove c k Hc) as (_ & -> & _).
    intros He. apply Hb. unfold LRUSpec.without in He.
    by apply list_elem_of_filter in He as [_ ?].
  - by apply Hb.
  - by intros ?%elem_of_nil.
Qed.

Lemma lru_after_ttl_bound os lo : ∀ c : LRU.lruCache Key V,
  LRUSpec.inv c →
  (∀ o t, o ∈ os → t ∈ lru_written_at o → lo ≤ t) →
  (∀ e, e ∈ LRUSpec.contents c → lo + LRU.expiry c ≤ ttl e) →
  LRUSpec.inv (lru_after c os) ∧
  LRU.maxEntries (lru_after c os) = LRU.maxEntries c ∧
  LRU.expiry (lru_after c os) = LRU.expiry c ∧
  ∀ e, e ∈ LRUSpec.contents (lru_after c os) → lo + LRU.expiry c ≤ ttl e.
Proof.
  induction os as [|o os IH]; intros c Hc Ht Hb; [done|].
  simpl. destruct (LRUFacts.lru_exec_params c o) as [Hmax Hexp].
  destruct (IH (LRUSpec.exec c o).1) as (Hc' & Hmax' & Hexp' & Hb').
  - by apply LRUFacts.lru_exec_inv.
  - intros o' t Ho'. apply Ht. by right.
  - rewrite Hexp. apply lru_exec_ttl_bound; [done| |done].
    intros t. apply Ht. by left.
  - rewrite Hexp in Hexp', Hb'. rewrite Hmax in Hmax'. done.
Qed.

(** A lookup of a stored key no later than every stored expiry time is a
    hit. *)
Lemma lru_hit_if_live (c : LRU.lruCache Key V) k now :
  LRUSpec.inv c → is_Some (LRU.the_map c !! k) →
  (∀ e, e ∈ LRUSpec.contents c → now ≤ ttl e) →
  is_Some (LRU.get c k now).2.
Proof.
  intros Hc [p Hk] Hb.
  destruct (LRUFacts.get_refines c k now Hc) as (_ & _ & ->).
  unfold LRUSpec.seq_get.
  destruct (LRUFacts.inv_lookup c k p Hc Hk) as (_ & e & He & _).
  assert (LRUSpec.find_key k (LRUSpec.contents c) = Some e) as Hf.
  { rewrite LRUFacts.find_key_contents, Hk by done. done. }
  rewrite Hf. destruct (LRUFacts.find_key_Some k _ e Hf) as [Hin _].
  specialize (Hb e Hin). unfold After.
  destruct (Z.ltb_spec (ttl e) now); [lia|]. simpl. eauto.
Qed.

Lemma ttl_exec_ttl_bound (c : TTL.ttlCache Key V) o lo :
  TTLSpec.inv c → (∀ t, t ∈ ttl_written_at o → lo ≤ t) →
  (∀ k e, TTL.the_map c !! k = Some e → lo + TTL.expiry c ≤ ttl e) →
  ∀ k e, TTL.the_map (TTLSpec.exec nilKey c o).1 !! k = Some e →
         lo + TTL.expiry c ≤ ttl e.
Proof.
  intros Hc Ht Hb k' e. destruct o as [k v clk|k clk|k| |]; simpl.
  - assert (lo ≤ clk 0%nat) as Hlo by (apply Ht; by left).
    destruct (TTL.the_map c !! k) as [ee|] eqn:Hk.
    + destruct (TTLFacts.ttl_add_existing nilKey c k v clk ee Hc Hk) as (-> & _).
      intros [[_ <-]|[_ He]]%lookup_insert_Some; [|by apply (Hb k')].
      simpl. unfold Add. lia.
    + rewrite TTLFacts.ttl_add_new by done. simpl.
      destruct (TTLFacts.ttl_stored_view c k v (clk 0%nat) Hc Hk)
        as (Hm1 & _ & Hc1).
      assert (∀ e, TTL.the_map (TTLSpec.stored c k v (clk 0%nat)) !! k' = Some e →
                   lo + TTL.expiry c ≤ ttl e) as Hb1.
      { intros e1. rewrite Hm1.
        intros [[_ <-]|[_ He]]%lookup_insert_Some; [|by apply (Hb k')].
        simpl. unfold Add. lia. }
      destruct (_ && _); [|by apply Hb1].
      destruct (TTLFacts.ttl_purge_prefix nilKey _ (λ n, clk (S n)) Hc1)
        as (ks1 & ks2 & _ & _ & _ & _ & Hmap & _).
      intros He. apply Hmap in He as [He _]. by apply Hb1.
  - rewrite TTLFacts.ttl_get_view.
    destruct (TTL.the_map c !! k) as [ee|] eqn:Hk; [|by apply Hb].
    destruct (After (clk 0%nat) (ttl ee)); simpl.
    + rewrite TTLFacts.the_map_remove by done.
      intros [_ He]%lookup_delete_Some. by apply (Hb k').
    + destruct (TTL.updateAgeOnGet c); [|by apply Hb].
      assert (lo ≤ clk 1%nat) as Hlo by (apply Ht; by left).
      destruct (TTLFacts.ttl_changeTTL_view c k ee (clk 1%nat) Hc Hk) as (-> & _).
      intros [[_ <-]|[_ He]]%lookup_insert_Some; [|by apply (Hb k')].
      simpl. unfold Add. lia.
  - rewrite TTLFacts.the_map_remove by done.
    intros [_ He]%lookup_delete_Some. by apply (Hb k').
  - by apply Hb.
  - unfold TTL.the_map. simpl. by rewrite lookup_empty.
Qed.

Lemma ttl_after_ttl_bound os lo : ∀ c : TTL.ttlCache Key V,
  TTLSpec.inv c →
  (∀ o t, o ∈ os → t ∈ ttl_written_at o → lo ≤ t) →
  (∀ k e, TTL.the_map c !! k = Some e → lo + TTL.expiry c ≤ ttl e) →
  TTLSpec.inv (ttl_after nilKey c os) ∧
  TTLSpec.params (ttl_after nilKey c os) = TTLSpec.params c ∧
  ∀ k e, TTL.the_map (ttl_after nilKey c os) !! k = Some e →
         lo + TTL.expiry c ≤ ttl e.
Proof.
  induction os as [|o os IH]; intros c Hc Ht Hb; [done|].
  simpl. pose proof (TTLFacts.ttl_exec_params nilKey c o) as Hp.
  assert (TTL.expiry (TTLSpec.exec nilKey c o).1 = TTL.expiry c) as Hexp
    by (unfold TTLSpec.params in Hp; congruence).
  destruct (IH (TTLSpec.exec nilKey c o).1) as (Hc' & Hp' & Hb').
  - by apply TTLFacts.ttl_inv_exec.
  - intros o' t Ho'. apply Ht. by right.
  - rewrite Hexp. apply ttl_exec_ttl_bound; [done| |done].
    intros t. apply Ht. by left.
  - rewrite Hexp in Hb'. rewrite Hp in Hp'. done.
Qed.

Lemma lru_after_snoc (c : LRU.lruCache Key V) os o :
  lru_after c (os ++ [o]) = (LRUSpec.exec (lru_after c os) o).1.
Proof. unfold lru_after. by rewrite foldl_app. Qed.

Lemma lru_after_reachable os : ∀ c : LRU.lruCache Key V,
  LRUSpec.reachable c → LRUSpec.reachable (lru_after c os).
Proof.
  induction os as [|o os IH]; intros c Hr; [done|].
  simpl. by apply IH, LRUSpec.reach_exec.
Qed.

Lemma lru_after_params os : ∀ c : LRU.lruCache Key V,
  LRU.maxEntries (lru_after c os) = LRU.maxEntries c ∧
  LRU.expiry (lru_after c os) = LRU.expiry c.
Proof.
  induction os as [|o os IH]; intros c; [done|].
  simpl. destruct (IH (LRUSpec.exec c o).1) as [-> ->].
  apply LRUFacts.lru_exec_params.
Qed.

(** The keys held after inserts of distinct keys into a new engine: the
    last [maxEntries] of them, the latest first. *)
Lemma lru_adds_keys maxEntries expiry (l : list (Key * V * Time)) :
  0 ≤ maxEntries → NoDup (l.*1.*1) →
  LRUSpec.keys
    (lru_after (LRU.newLRU maxEntries expiry)
       ((λ x, LRUSpec.CAdd x.1.1 x.1.2 x.2) <$> l))
  = if decide (maxEntries = 0) then reverse (l.*1.*1)
    else take (Z.to_nat maxEntries) (reverse (l.*1.*1)).
Proof.
  intros Hmax. induction l as [|[[k v] now] l IH] using rev_ind; intros Hnd.
  { destruct (decide _); [done|]. simpl. by rewrite reverse_nil, take_nil. }
  rewrite !fmap_app in Hnd. rewrite !fmap_app. simpl in Hnd |- *.
  apply NoDup_app in Hnd as (Hnd & Hk & _). specialize (IH Hnd).
  rewrite lru_after_snoc. simpl.
  set (c := lru_after (LRU.newLRU maxEntries expiry)
              ((λ x, LRUSpec.CAdd x.1.1 x.1.2 x.2) <$> l)) in *.
  assert (LRUSpec.inv c) as Hc.
  { apply LRUFacts.lru_reachable_inv, lru_after_reachable, LRUSpec.reach_new. }
  destruct (lru_after_params ((λ x, LRUSpec.CAdd x.1.1 x.1.2 x.2) <$> l)
              (LRU.newLRU maxEntries expiry : LRU.lruCache Key V))
    as [Hm He].
  fold c in Hm, He. simpl in Hm, He.
  destruct (LRUFacts.add_refines c k v now Hc) as [_ Hs].
  assert (k ∉ LRUSpec.keys c) as Hnew.
  { intros Hin. apply (Hk k); [|by left].
    rewrite IH in Hin. destruct (decide _).
    - by rewrite elem_of_reverse in Hin.
    - apply subseteq_take in Hin. by rewrite elem_of_reverse in Hin. }
  assert (LRUSpec.find_key k (LRUSpec.contents c) = None) as Hf.
  { apply LRUFacts.find_key_absent. intros e He' Hke. apply Hnew.
    unfold LRUSpec.keys. apply list_elem_of_fmap. by exists e. }
  unfold LRUSpec.keys at 1. rewrite Hs. unfold LRUSpec.seq_add.
  rewrite Hf, Hm, He, reverse_snoc.
  unfold LRUSpec.keys in IH.
  destruct (decide (maxEntries = 0)) as [Hz|Hnz].
  - rewrite bool_decide_false, andb_false_l by (intros Hn; by apply Hn).
    by rewrite fmap_cons, IH.
  - rewrite bool_decide_true, andb_true_l by done.
    remember (Z.to_nat maxEntries) as n eqn:Hn.
    destruct n as [|n]; [lia|].
    unfold LRUSpec.drop_last. rewrite length_cons.
    assert (length (LRUSpec.contents c)
            = length (take (S n) (reverse (l.*1.*1)))) as Hlen
      by (by rewrite <- IH, length_fmap).
    rewrite length_take in Hlen.
    destruct (Z.ltb_spec maxEntries (Z.of_nat (S (length (LRUSpec.contents c)))))
      as [Hover|Hfit].
    + rewrite fmap_take, fmap_cons, IH.
      replace (S (length (LRUSpec.contents c)) - 1)%nat with (S n) by lia.
      simpl. f_equal. rewrite take_take. f_equal. lia.
    + rewrite fmap_cons, IH. simpl. f_equal.
      rewrite !take_ge; [done| |]; lia.
Qed.

End facts.
End RunFacts.

(** * The properties stated by the design document *)

Section recency_claims.
Context `{Countable Key} {V : Type}.
Implicit Types (c : LRU.lruCache Key V) (k : Key) (v : V).

(** C1.  In a bounded engine (maxEntries = N > 0), inserting an absent key
    puts the new entry in front; when the size then exceeds N exactly the
    back-most entry is evicted, and the size after the insert is at most N.
    With N = 5: after inserting 1..6, key 1 is not found and key 6 is; with
    a get(1) before inserting 6, key 2 is evicted and key 1 is kept. *)
Theorem lru_add_evicts_back :
  (∀ c k v now,
     LRUSpec.reachable c → 0 < LRU.maxEntries c →
     LRU.the_map c !! k = None →
     let new := Entry k (Add now (LRU.expiry c)) v in
     let c' := LRU.add c k v now in
     (LRU.size c < LRU.maxEntries c →
        LRUSpec.contents c' = new :: LRUSpec.contents c) ∧
     (LRU.size c = LRU.maxEntries c →
        ∃ front lru,
          LRUSpec.contents c = front ++ [lru] ∧
          LRUSpec.contents c' = new :: front ∧
          LRU.the_map c' !! key lru = None) ∧
     LRU.size c' ≤ LRU.maxEntries c) ∧
  (let c6 := Examples.fill Examples.lru5 [1; 2; 3; 4; 5; 6] in
   (LRU.get c6 1 Examples.now0).2 = None ∧
   (LRU.get c6 6 Examples.now0).2 = Some 60) ∧
  (let c5 := Examples.fill Examples.lru5 [1; 2; 3; 4; 5] in
   let c5' := (LRU.get c5 1 Examples.now0).1 in
   let c6 := LRU.add c5' 6 60 Examples.now0 in
   (LRU.get c6 2 Examples.now0).2 = None ∧
   (LRU.get c6 1 Examples.now0).2 = Some 10).
Proof.
  split; [|split; vm_compute; done].
  intros c k v now Hr Hmax Hk new c'.
  pose proof (LRUFacts.lru_reachable_inv c Hr) as Hc.
  pose proof (LRUFacts.lru_reachable_bound c Hr Hmax) as Hb.
  destruct (LRUFacts.add_refines c k v now Hc) as [Hc' Hs].
  fold c' in Hc', Hs.
  assert (LRUSpec.find_key k (LRUSpec.contents c) = None) as Hf
    by (rewrite LRUFacts.find_key_contents by done; by rewrite Hk).
  unfold LRUSpec.seq_add in Hs. rewrite Hf in Hs. fold new in Hs.
  rewrite bool_decide_true, andb_true_l in Hs by lia.
  pose proof (LRUFacts.size_contents c Hc) as Hsz.
  split_and!.
  - intros Hlt. rewrite Hs.
    destruct (Z.ltb_spec (LRU.maxEntries c)
      (Z.of_nat (length (new :: LRUSpec.contents c)))) as [Hover|_]; [|done].
    rewrite length_cons in Hover. lia.
  - intros Heq.
    destruct (Z.ltb_spec (LRU.maxEntries c)
      (Z.of_nat (length (new :: LRUSpec.contents c)))) as [_|Hfit];
      [|rewrite length_cons in Hfit; lia].
    assert (is_Some (last (LRUSpec.contents c))) as [lru Hlast].
    { apply last_is_Some. intros Hnil. rewrite Hnil in Hsz. simpl in Hsz. lia. }
    apply last_Some in Hlast as [front Hfront]. exists front, lru.
    assert (LRUSpec.contents c' = new :: front) as Hs'.
    { rewrite Hs, Hfront.
      apply (LRUFacts.drop_last_snoc (new :: front) lru). }
    split_and!; [done|done|].
    destruct (LRU.the_map c' !! key lru) eqn:Hgone; [|done].
    assert (key lru ∈ LRUSpec.keys c') as Hin
      by (apply LRUFacts.elem_of_keys; eauto).
    unfold LRUSpec.keys in Hin. rewrite Hs' in Hin.
    apply elem_of_cons in Hin as [Hin|Hin].
    + destruct (LRUFacts.inv_absent c k Hc Hk lru); [|done].
      rewrite Hfront. apply elem_of_app. right. by left.
    + pose proof (LRUFacts.NoDup_keys c Hc) as Hnd.
      unfold LRUSpec.keys in Hnd. rewrite Hfront, fmap_app in Hnd.
      apply NoDup_app in Hnd as (_ & Hnd & _).
      destruct (Hnd _ Hin). by left.
  - by apply (LRUFacts.lru_exec_bound c (LRUSpec.CAdd k v now)).
Qed.

(** C3.  A lookup of an absent key changes nothing and finds nothing; of a
    present key whose entry has expired it removes the entry from the list
    and from the map and finds nothing; of any other present key it moves
    the element to the front and returns the value. *)
Theorem lru_get_spec c k now :
  LRUSpec.inv c →
  let r := LRU.get c k now in
  match LRU.the_map c !! k with
  | None => r = (c, None)
  | Some p =>
      ∃ e, LRU.elems c !! p = Some e ∧ key e = k ∧
        if After now (ttl e)
        then
          r.2 = None ∧
          LRU.the_map r.1 = delete k (LRU.the_map c) ∧
          LRU.the_list r.1 = LRU.Remove p (LRU.the_list c) ∧
          LRUSpec.contents r.1 = LRUSpec.without k (LRUSpec.contents c) ∧
          k ∉ LRUSpec.keys r.1
        else
          r.2 = Some (value e) ∧
          LRU.the_map r.1 = LRU.the_map c ∧
          LRU.the_list r.1 = p :: LRU.Remove p (LRU.the_list c) ∧
          LRUSpec.contents r.1 = e :: LRUSpec.without k (LRUSpec.contents c)
  end.
Proof.
  intros Hc r.
  destruct (LRUFacts.get_refines c k now Hc) as (Hc' & Hs & Hv).
  fold r in Hc', Hs, Hv.
  unfold LRUSpec.seq_get in Hs, Hv.
  rewrite LRUFacts.find_key_contents in Hs, Hv by done.
  destruct (LRU.the_map c !! k) as [p|] eqn:Hk.
  - destruct (LRUFacts.inv_lookup c k p Hc Hk) as (Hp & e & He & Hke).
    exists e. split_and!; [done|done|].
    simpl in Hs, Hv. rewrite He in Hs, Hv.
    destruct (LRUFacts.inv_cases c Hc) as [[Hl Hm]|(l & m & Hl & Hm)].
    { unfold LRU.the_map in Hk. rewrite Hm in Hk. simpl in Hk.
      by rewrite lookup_empty in Hk. }
    assert (m !! k = Some p) as Hmk
      by (unfold LRU.the_map in Hk; by rewrite Hm in Hk).
    assert (r = LRU.get c k now) as Hr by done.
    unfold LRU.get in Hr. rewrite Hm, Hmk, He in Hr.
    destruct (After now (ttl e)); simpl in Hs, Hv.
    + assert (LRU.the_map r.1 = delete k (LRU.the_map c)) as Hmap.
      { rewrite Hr. simpl. by destruct (LRUFacts.inv_remove c k Hc) as (_ & _ & ?). }
      split_and!; [done|done| |done|].
      * rewrite Hr. simpl. unfold LRU.remove. rewrite Hm, Hmk.
        unfold LRU.removeElement. rewrite He.
        unfold LRU.the_list. simpl. by rewrite Hl.
      * rewrite LRUFacts.elem_of_keys by done.
        rewrite Hmap, lookup_delete_eq. by intros [].
    + split_and!; [done| | |done].
      * rewrite Hr. unfold LRU.the_map. simpl. by rewrite Hm.
      * rewrite Hr. unfold LRU.the_list. simpl. rewrite Hl. simpl.
        assert (p ∈ l) as Hpl
          by (unfold LRU.the_list in Hp; by rewrite Hl in Hp).
        unfold LRU.MoveToFront. by rewrite decide_True.
  - simpl in Hs, Hv. unfold r, LRU.get.
    destruct (LRU.cache c) as [m|] eqn:Hm; [|done].
    unfold LRU.the_map in Hk. rewrite Hm in Hk. simpl in Hk. by rewrite Hk.
Qed.

(** C5 (as amended).  In every state reached from a constructed engine the
    map and the list hold the same keys, each once, the map sends a key to
    the list element holding it, and, when maxEntries is positive, the list
    is no longer than maxEntries. *)
Theorem lru_invariant c :
  LRUSpec.reachable c →
  (∀ k, is_Some (LRU.the_map c !! k) ↔ k ∈ LRUSpec.keys c) ∧
  NoDup (LRUSpec.keys c) ∧
  (∀ k p, LRU.the_map c !! k = Some p ↔
          p ∈ LRU.the_list c ∧ key <$> LRU.elems c !! p = Some k) ∧
  NoDup (LRU.the_list c) ∧
  length (LRUSpec.keys c) = length (LRU.the_list c) ∧
  (0 < LRU.maxEntries c → LRU.Len (LRU.the_list c) ≤ LRU.maxEntries c).
Proof.
  intros Hr. pose proof (LRUFacts.lru_reachable_inv c Hr) as Hc.
  split_and!.
  - intros k. by rewrite LRUFacts.elem_of_keys.
  - by apply LRUFacts.NoDup_keys.
  - apply Hc.
  - apply Hc.
  - unfold LRUSpec.keys. rewrite length_fmap. by apply LRUFacts.length_contents.
  - intros Hmax. pose proof (LRUFacts.lru_reachable_bound c Hr Hmax) as Hb.
    rewrite LRUFacts.size_contents, LRUFacts.length_contents in Hb by done.
    done.
Qed.

End recency_claims.

Lemma lru_reachable_fill (c : LRU.lruCache Z Z) ks :
  LRUSpec.reachable c → LRUSpec.reachable (Examples.fill c ks).
Proof.
  revert c. induction ks as [|k ks IH]; intros c Hr; [done|].
  apply IH. apply (LRUSpec.reach_exec c (LRUSpec.CAdd k (10 * k) Examples.now0) Hr).
Qed.

Lemma lru_add_evicts_back_witness :
  let c := Examples.fill Examples.lru5 [1; 2; 3; 4; 5] in
  LRUSpec.reachable c ∧ 0 < LRU.maxEntries c ∧ LRU.the_map c !! 6 = None ∧
  LRU.size (LRU.add c 6 60 Examples.now0) ≤ LRU.maxEntries c.
Proof.
  intros c.
  assert (LRUSpec.reachable c) as Hr
    by apply lru_reachable_fill, LRUSpec.reach_new.
  assert (0 < LRU.maxEntries c) as Hmax by (vm_compute; reflexivity).
  assert (LRU.the_map c !! 6 = None) as Hk by (vm_compute; reflexivity).
  split_and!; [exact Hr|exact Hmax|exact Hk|].
  destruct (@lru_add_evicts_back Z _ _ Z) as [Hgen _].
  exact (proj2 (proj2 (Hgen c 6 60 Examples.now0 Hr Hmax Hk))).
Defined.

Lemma lru_get_spec_witness :
  let c := Examples.fill Examples.lru5 [1; 2; 3] in
  LRUSpec.inv c ∧
  ∃ p e, LRU.the_map c !! 2 = Some p ∧ LRU.elems c !! p = Some e ∧ key e = 2.
Proof.
  intros c.
  assert (LRUSpec.inv c) as Hc
    by apply LRUFacts.lru_reachable_inv, lru_reachable_fill, LRUSpec.reach_new.
  split; [exact Hc|].
  pose proof (lru_get_spec c 2 Examples.now0 Hc) as Hspec.
  destruct (LRU.the_map c !! 2) as [p|] eqn:Hk.
  - destruct Hspec as (e & He & Hke & _). exists p, e. by split_and!.
  - vm_compute in Hk. discriminate Hk.
Defined.

Lemma lru_invariant_witness :
  let c := Examples.fill Examples.lru5 [1; 2; 3; 4; 5; 6] in
  LRUSpec.reachable c ∧ LRU.Len (LRU.the_list c) ≤ 5.
Proof.
  intros c.
  assert (LRUSpec.reachable c) as Hr
    by apply lru_reachable_fill, LRUSpec.reach_new.
  split; [exact Hr|].
  destruct (lru_invariant c Hr) as (_ & _ & _ & _ & _ & Hb).
  apply Hb. vm_compute. reflexivity.
Defined.

(** C5, as stated, fails for a negative maxEntries: the engine is
    constructed with an empty list, whose length already exceeds the bound,
    and an insert leaves it empty. *)
Lemma lru_bound_fails_for_negative_maxEntries :
  let c := LRU.newLRU (-1) maxDuration : LRU.lruCache Z Z in
  LRUSpec.reachable c ∧ LRU.maxEntries c ≠ 0 ∧
  ¬ (LRU.Len (LRU.the_list c) ≤ LRU.maxEntries c) ∧
  LRU.size (LRU.add c 1 10 Examples.now0) = 0.
Proof.
  intros c. split_and!.
  - apply LRUSpec.reach_new.
  - vm_compute. discriminate.
  - vm_compute. intros Hle. by apply Hle.
  - vm_compute. reflexivity.
Qed.

(** * The facade *)

Section facade_claims.
Context `{Countable Key} {V : Type} {Hook : Type}.
Context {E : Type} `{!Facade.ICache (Key:=Key) (V:=V) E}.
Implicit Types (c : Facade.Cache Hook E) (k : Key) (v : V).

(** C7.  A call of Add, Get or Remove runs the hook configured for it
    exactly once, and no hook when none is configured; Get runs its hook
    before it delegates to the engine, whatever the lookup finds. *)
Theorem facade_hooks_fire_once c k v clk :
  Facade.calls (Facade.Add c k v clk).2
    = option_list (Facade.Callbacks (Facade.Config c) ≫= Facade.AddFunc) ∧
  Facade.calls (Facade.Get c k clk).2
    = option_list (Facade.Callbacks (Facade.Config c) ≫= Facade.GetFunc) ∧
  Facade.calls (Facade.Remove c k).2
    = option_list (Facade.Callbacks (Facade.Config c) ≫= Facade.RemoveFunc) ∧
  match Facade.Callbacks (Facade.Config c) with
  | Some h =>
      (Facade.Get c k clk).2 =
        [Facade.Lock] ++ (Facade.Call <$> option_list (Facade.GetFunc h))
        ++ [Facade.Delegate Facade.Mget; Facade.Unlock] ∧
      (Facade.Get c k clk).1.2 = (Facade.get (Facade.engine c) k clk).2
  | None => Facade.calls (Facade.Get c k clk).2 = []
  end.
Proof.
  unfold Facade.Add, Facade.Get, Facade.Remove, Facade.dispatch.
  destruct (Facade.Callbacks (Facade.Config c)) as [h|]; simpl; [|done].
  unfold Facade.OnAdd, Facade.OnGet, Facade.OnRemove.
  by destruct (Facade.AddFunc h), (Facade.GetFunc h), (Facade.RemoveFunc h).
Qed.

(** C8 (as amended).  Clear takes the lock, delegates to the engine's clear
    and releases the lock; it runs no hook, whatever is configured, and
    neither does Size.  Of the calls that run a hook, Add and Remove run
    it after they have delegated to the engine and before they release
    the lock, and Get runs it after it has taken the lock and before it
    delegates; with a nil Callbacks the panic stands where the hook
    would. *)
Theorem facade_clear_runs_no_hook c k v clk :
  (Facade.Clear c).2
    = [Facade.Lock; Facade.Delegate Facade.Mclear; Facade.Unlock] ∧
  Facade.calls (Facade.Clear c).2 = [] ∧
  Facade.engine (Facade.Clear c).1 = Facade.clear (Facade.engine c) ∧
  Facade.Config (Facade.Clear c).1 = Facade.Config c ∧
  (Facade.Size c).2
    = [Facade.Lock; Facade.Delegate Facade.Msize; Facade.Unlock] ∧
  match Facade.Callbacks (Facade.Config c) with
  | Some h =>
      (Facade.Add c k v clk).2
        = [Facade.Lock; Facade.Delegate Facade.Madd]
          ++ (Facade.Call <$> option_list (Facade.AddFunc h))
          ++ [Facade.Unlock] ∧
      (Facade.Remove c k).2
        = [Facade.Lock; Facade.Delegate Facade.Mremove]
          ++ (Facade.Call <$> option_list (Facade.RemoveFunc h))
          ++ [Facade.Unlock] ∧
      (Facade.Get c k clk).2
        = [Facade.Lock]
          ++ (Facade.Call <$> option_list (Facade.GetFunc h))
          ++ [Facade.Delegate Facade.Mget; Facade.Unlock]
  | None =>
      (Facade.Add c k v clk).2
        = [Facade.Lock; Facade.Delegate Facade.Madd; Facade.NilDereference;
           Facade.Unlock] ∧
      (Facade.Remove c k).2
        = [Facade.Lock; Facade.Delegate Facade.Mremove;
           Facade.NilDereference; Facade.Unlock] ∧
      (Facade.Get c k clk).2
        = [Facade.Lock; Facade.NilDereference; Facade.Unlock]
  end ∧
  Facade.engine (Facade.Add c k v clk).1
    = Facade.add (Facade.engine c) k v clk ∧
  Facade.engine (Facade.Remove c k).1 = Facade.remove (Facade.engine c) k.
Proof.
  split_and!; [done|done|done|done|done| |done|done].
  unfold Facade.Add, Facade.Get, Facade.Remove, Facade.dispatch.
  destruct (Facade.Callbacks (Facade.Config c)) as [h|]; simpl; [|done].
  unfold Facade.OnAdd, Facade.OnGet, Facade.OnRemove.
  by destruct (Facade.AddFunc h), (Facade.GetFunc h), (Facade.RemoveFunc h).
Qed.

End facade_claims.

(** C8, as stated, fails: with the three hooks configured, Clear runs
    none of them. *)
Lemma facade_clear_invokes_no_callback :
  Facade.Callbacks (Facade.Config Examples.lruCache20)
    = Some Examples.callbacks ∧
  Facade.calls (Facade.Clear Examples.lruCache20).2 = [].
Proof. done. Qed.

(** * The expiry engine *)

Section expiry_claims.
Context `{Countable Key} {V : Type} (nilKey : Key).
Implicit Types (c : TTL.ttlCache Key V) (k : Key) (v : V) (i : Z).

(** C2.  The capacity purge runs from an insert of a new key exactly when
    maxEntries is not 0 and the size exceeds it; an insert of a present key
    refreshes the entry and evicts nothing.  The purge walks the registered
    instants in ascending order and evicts the keys registered at a prefix
    [ks1] of them: it stops in front of the first instant that is in the
    future while the size is within the bound, and every instant it evicts
    was met with the size above the bound or was not in the future.  So an
    instant that is not after the readings of the clock is evicted with
    its key, the evicted instants are the earliest ones, and on return the
    size is within the bound or nothing is registered any more; from a
    state within a positive bound, an insert returns within the bound. *)
Theorem ttl_purge_to_capacity c clk :
  TTLSpec.inv c →
  let c' := TTL.purgeToCapacity nilKey c clk in
  (∀ k v clk0,
     TTL.the_map c !! k = None →
     TTLSpec.inv (TTLSpec.stored c k v (clk0 0%nat)) ∧
     TTL.add nilKey c k v clk0 =
       let c1 := TTLSpec.stored c k v (clk0 0%nat) in
       if bool_decide (TTL.maxEntries c ≠ 0)
          && (TTL.maxEntries c <? TTL.len c1)
       then TTL.purgeToCapacity nilKey c1 (λ n, clk0 (S n))
       else c1) ∧
  (∀ k e v clk0,
     TTL.the_map c !! k = Some e →
     TTL.the_map (TTL.add nilKey c k v clk0)
       = <[k := Entry (key e) (Add (clk0 0%nat) (TTL.expiry c)) v]>
           (TTL.the_map c)) ∧
  StronglySorted Z.le (TTL.expKeys c) ∧
  (∀ i, i ∈ TTL.expKeys c ↔ is_Some (TTL.the_index c !! i)) ∧
  (∃ ks1 ks2,
     TTL.expKeys c = ks1 ++ ks2 ∧
     c' = TTLSpec.evict_all nilKey c ks1 ∧
     (∀ i, TTL.the_index c' !! i
           = if decide (i ∈ ks1) then None else TTL.the_index c !! i) ∧
     (∀ k e, TTL.the_map c' !! k = Some e ↔
             TTL.the_map c !! k = Some e ∧
             ∀ i, i ∈ ks1 → TTL.the_index c !! i ≠ Some k) ∧
     match ks2 with
     | [] => True
     | i :: _ =>
         TTL.len c' ≤ TTL.maxEntries c ∧ ∃ n, UnixNano (clk n) < i
     end ∧
     ∀ m i, ks1 !! m = Some i →
       TTL.maxEntries c < TTL.len c - Z.of_nat m ∨
       ∃ n, i ≤ UnixNano (clk n)) ∧
  (∀ lo, (∀ n, lo ≤ UnixNano (clk n)) →
     ∀ i k, TTL.the_index c !! i = Some k → i ≤ lo →
       TTL.the_index c' !! i = None ∧ TTL.the_map c' !! k = None) ∧
  (∀ i1 i2,
     is_Some (TTL.the_index c !! i1) → TTL.the_index c' !! i1 = None →
     is_Some (TTL.the_index c' !! i2) → i1 ≤ i2) ∧
  (TTL.len c' ≤ TTL.maxEntries c ∨ TTL.the_index c' = ∅) ∧
  (∀ k v clk0,
     TTL.maxEntries c ≠ 0 → TTL.len c ≤ TTL.maxEntries c →
     TTL.len (TTL.add nilKey c k v clk0) ≤ TTL.maxEntries c).
Proof.
  intros Hc c'.
  destruct (TTLFacts.ttl_purge_net nilKey c clk Hc) as (Hexp & Hcap & Hearly).
  destruct (TTLFacts.ttl_purge_prefix nilKey c clk Hc)
    as (ks1 & ks2 & Hks & Heq & _ & Hx & Hm & _ & Hstop & Hforced).
  split_and!.
  - intros k v clk0 Hk. split; [|by apply TTLFacts.ttl_add_new].
    by destruct (TTLFacts.ttl_stored_view c k v (clk0 0%nat) Hc Hk)
      as (_ & _ & ?).
  - intros k e v clk0 Hk.
    by destruct (TTLFacts.ttl_add_existing nilKey c k v clk0 e Hc Hk)
      as (? & _).
  - apply TTLFacts.ttl_expKeys_sorted.
  - apply TTLFacts.ttl_expKeys_elem_of.
  - exists ks1, ks2. by split_and!.
  - exact Hexp.
  - exact Hearly.
  - exact Hcap.
  - intros k v clk0. by apply TTLFacts.ttl_add_bound.
Qed.

(** C4.  The index invariant (each key of the primary store has exactly
    one instant in the index, that of its entry) holds of a constructed
    engine and is kept by every operation whose new instant is not
    registered to another key; a refresh and a removal delete the old
    instant, the refresh before it writes the new one.  When the new
    instant is registered to another key, that key stays in the primary
    store with no instant in the index, where the capacity purge, which
    goes by the index, does not reach it. *)
Theorem ttl_index_invariant :
  (∀ maxEntries expiry upd,
     TTLSpec.indexed (TTL.newTTLCache maxEntries expiry upd
                        : TTL.ttlCache Key V)) ∧
  (∀ c k v clk,
     TTLSpec.indexed c →
     TTLSpec.free_for c k (TTLSpec.instant c (clk 0%nat)) →
     TTLSpec.indexed (TTL.add nilKey c k v clk)) ∧
  (∀ c k clk,
     TTLSpec.indexed c →
     (TTL.updateAgeOnGet c = true →
      TTLSpec.free_for c k (TTLSpec.instant c (clk 1%nat))) →
     TTLSpec.indexed (TTL.get c k clk).1) ∧
  (∀ c k, TTLSpec.indexed c → TTLSpec.indexed (TTL.remove c k)) ∧
  (∀ c, TTLSpec.indexed (TTL.clear c)) ∧
  (∀ c k e now,
     TTLSpec.indexed c → TTL.the_map c !! k = Some e →
     TTL.the_index (TTL.changeTTL c k now)
       = <[TTLSpec.instant c now := k]>
           (delete (UnixNano (ttl e)) (TTL.the_index c)) ∧
     TTL.the_index (TTL.remove c k)
       = delete (UnixNano (ttl e)) (TTL.the_index c)) ∧
  (∀ c k k' v clk,
     TTLSpec.indexed c → k' ≠ k →
     TTL.the_index c !! TTLSpec.instant c (clk 0%nat) = Some k' →
     TTLSpec.orphan (TTL.add nilKey c k v clk) k') ∧
  (∀ c k clk,
     TTLSpec.inv c → TTLSpec.orphan c k →
     TTLSpec.orphan (TTL.purgeToCapacity nilKey c clk) k).
Proof.
  split_and!.
  - intros. apply TTLFacts.ttl_indexed_empty; [done|].
    apply TTLFacts.ttl_inv_new.
  - intros. by apply TTLFacts.ttl_indexed_add.
  - intros. by apply TTLFacts.ttl_indexed_get.
  - intros. by apply TTLFacts.ttl_indexed_remove.
  - intros. apply TTLFacts.ttl_indexed_empty; [done|].
    apply TTLFacts.ttl_inv_clear.
  - intros c k e now [Hc _] Hk. split.
    + by destruct (TTLFacts.ttl_changeTTL_view c k e now Hc Hk) as (_ & ? & _).
    + by apply TTLFacts.the_index_remove.
  - intros. by eapply TTLFacts.ttl_collision_orphans.
  - intros. by apply TTLFacts.ttl_purge_keeps_orphan.
Qed.

End expiry_claims.

(** * Both engines *)

Section engine_claims.
Context `{Countable Key} {V : Type} (nilKey : Key).

(** C6.  In either engine, a get of K that follows an add of (K, V)
    returns (V, true) when K is still stored after the add (no capacity
    eviction took it) and the get is not later than the entry's expiry.
    A recency engine with a maxEntries that is not negative always keeps
    the key it adds.  An expiry engine keeps the key it adds when the key
    was stored already or maxEntries is 0, and also when maxEntries is
    not negative, every stored key has its instant in the index, and the
    new instant is later than the registered ones and than the clock
    readings of the purge; the entry it then holds is the one added. *)
Theorem add_then_get :
  (∀ (c : LRU.lruCache Key V) k v now now',
     LRUSpec.inv c →
     is_Some (LRU.the_map (LRU.add c k v now) !! k) →
     now' ≤ Add now (LRU.expiry c) →
     (LRU.get (LRU.add c k v now) k now').2 = Some v) ∧
  (∀ (c : LRU.lruCache Key V) k v now,
     LRUSpec.inv c → 0 ≤ LRU.maxEntries c →
     is_Some (LRU.the_map (LRU.add c k v now) !! k)) ∧
  (∀ (c : TTL.ttlCache Key V) k v clk clk',
     TTLSpec.inv c →
     is_Some (TTL.the_map (TTL.add nilKey c k v clk) !! k) →
     clk' 0%nat ≤ Add (clk 0%nat) (TTL.expiry c) →
     (TTL.get (TTL.add nilKey c k v clk) k clk').2 = Some v) ∧
  (∀ (c : TTL.ttlCache Key V) k v clk,
     TTLSpec.inv c →
     is_Some (TTL.the_map c !! k) ∨ TTL.maxEntries c = 0 →
     TTL.the_map (TTL.add nilKey c k v clk) !! k
       = Some (Entry k (Add (clk 0%nat) (TTL.expiry c)) v)) ∧
  (∀ (c : TTL.ttlCache Key V) k v clk,
     TTLSpec.indexed c → TTL.the_map c !! k = None →
     0 ≤ TTL.maxEntries c →
     (∀ i, is_Some (TTL.the_index c !! i) →
           i < TTLSpec.instant c (clk 0%nat)) →
     (∀ n, UnixNano (clk (S n)) < TTLSpec.instant c (clk 0%nat)) →
     TTL.the_map (TTL.add nilKey c k v clk) !! k
       = Some (Entry k (Add (clk 0%nat) (TTL.expiry c)) v)).
Proof.
  split_and!.
  - intros c k v now now' Hc Hk Hle.
    rewrite LRUFacts.lru_add_get by done.
    unfold After. destruct (Z.ltb_spec (Add now (LRU.expiry c)) now'); [lia|done].
  - intros. by apply LRUFacts.lru_add_retains.
  - intros c k v clk clk' Hc Hk Hle.
    rewrite TTLFacts.ttl_add_get by done.
    unfold After.
    destruct (Z.ltb_spec (Add (clk 0%nat) (TTL.expiry c)) (clk' 0%nat));
      [lia|done].
  - intros c k v clk Hc Hk. by apply TTLFacts.ttl_add_keeps_stored.
  - intros c k v clk Hix Hk Hmax Hlt Hclk.
    by apply TTLFacts.ttl_add_keeps_new.
Qed.

(** C9.  After clear, either engine has size 0, finds no key, and answers
    every sequence of calls as a newly constructed engine of the same
    configuration does. *)
Theorem clear_is_fresh :
  (∀ (c : LRU.lruCache Key V),
     LRU.size (LRU.clear c) = 0 ∧
     (∀ k now, LRU.get (LRU.clear c) k now = (LRU.clear c, None)) ∧
     ∀ os, LRUSpec.run (LRU.clear c) os
           = LRUSpec.run (LRU.newLRU (LRU.maxEntries c) (LRU.expiry c)) os) ∧
  (∀ (c : TTL.ttlCache Key V),
     TTL.size (TTL.clear c) = 0 ∧
     (∀ k clk, TTL.get (TTL.clear c) k clk = (TTL.clear c, None)) ∧
     ∀ os, TTLSpec.run nilKey (TTL.clear c) os
           = TTLSpec.run nilKey
               (TTL.newTTLCache (TTL.maxEntries c) (TTL.expiry c)
                  (TTL.updateAgeOnGet c)) os).
Proof.
  split.
  - intros c. split_and!; [done|done|]. intros os.
    apply LRUFacts.lru_same_run; [apply LRUFacts.inv_clear| |done].
    apply LRUFacts.inv_new.
  - intros c. split_and!; [done|done|]. intros os.
    apply TTLFacts.ttl_same_run; [apply TTLFacts.ttl_inv_clear| |done].
    apply TTLFacts.ttl_inv_new.
Qed.

(** C10 (as amended).  With TTL = 0 the two modes with a TTL write the
    default of 10 nanoseconds (not 10 seconds) into the configuration and
    build their engine with it.  An entry added to such an engine is not
    found by a get later than 10 nanoseconds after the add; a get up to
    10 nanoseconds after the add finds it provided the add has kept the
    key, which the recency engine does when maxEntries is not negative,
    and the expiry engine when the key was stored already or maxEntries
    is 0, and also when maxEntries is not negative, every stored key has
    its instant in the index, and the new instant is later than the
    registered ones and than the clock readings of the purge. *)
Theorem default_ttl_is_ten_nanoseconds {Hook : Type} :
  defaultDuration = 10 ∧ defaultDuration ≠ 10 * Second ∧
  (∀ (cc : Facade.CacheConfig Hook) upd,
     Facade.TTL cc = 0 →
     Facade.TTL (Facade.LRUWithTTLCacheMode (Key:=Key) (V:=V) cc).1
       = defaultDuration ∧
     (Facade.LRUWithTTLCacheMode (Key:=Key) (V:=V) cc).2
       = LRU.newLRU (Facade.MaxEntries cc) defaultDuration ∧
     Facade.TTL (Facade.TTLCacheMode (Key:=Key) (V:=V) cc upd).1
       = defaultDuration ∧
     (Facade.TTLCacheMode (Key:=Key) (V:=V) cc upd).2
       = TTL.newTTLCache (Facade.MaxEntries cc) defaultDuration upd) ∧
  (∀ (c : LRU.lruCache Key V) k v now now',
     LRUSpec.inv c → LRU.expiry c = defaultDuration →
     let r := (LRU.get (LRU.add c k v now) k now').2 in
     (now + 10 < now' → r = None) ∧
     (now' ≤ now + 10 →
        is_Some (LRU.the_map (LRU.add c k v now) !! k) → r = Some v) ∧
     (now' ≤ now + 10 → 0 ≤ LRU.maxEntries c → r = Some v)) ∧
  (∀ (c : TTL.ttlCache Key V) k v clk clk',
     TTLSpec.inv c → TTL.expiry c = defaultDuration →
     let r := (TTL.get (TTL.add nilKey c k v clk) k clk').2 in
     (clk 0%nat + 10 < clk' 0%nat → r = None) ∧
     (clk' 0%nat ≤ clk 0%nat + 10 →
        is_Some (TTL.the_map (TTL.add nilKey c k v clk) !! k) →
        r = Some v) ∧
     (clk' 0%nat ≤ clk 0%nat + 10 →
        is_Some (TTL.the_map c !! k) ∨ TTL.maxEntries c = 0 →
        r = Some v) ∧
     (clk' 0%nat ≤ clk 0%nat + 10 →
        TTLSpec.indexed c → TTL.the_map c !! k = None →
        0 ≤ TTL.maxEntries c →
        (∀ i, is_Some (TTL.the_index c !! i) →
              i < TTLSpec.instant c (clk 0%nat)) →
        (∀ n, UnixNano (clk (S n)) < TTLSpec.instant c (clk 0%nat)) →
        r = Some v)).
Proof.
  split_and!; [done|done| | |].
  - intros cc upd Hz.
    unfold Facade.LRUWithTTLCacheMode, Facade.TTLCacheMode,
      Facade.with_default_TTL.
    rewrite Hz. done.
  - intros c k v now now' Hc Hexp r.
    assert (now' ≤ now + 10 →
            is_Some (LRU.the_map (LRU.add c k v now) !! k) → r = Some v)
      as Hfound.
    { intros Hle Hk. unfold r. rewrite LRUFacts.lru_add_get by done.
      rewrite Hexp. unfold After, Add, defaultDuration.
      destruct (Z.ltb_spec (now + 10) now'); [lia|done]. }
    split_and!; [|done|].
    + intros Hlate. apply LRUFacts.lru_add_get_late; [done|].
      rewrite Hexp. unfold Add, defaultDuration. lia.
    + intros Hle Hmax. apply Hfound; [done|].
      by apply LRUFacts.lru_add_retains.
  - intros c k v clk clk' Hc Hexp r.
    assert (clk' 0%nat ≤ clk 0%nat + 10 →
            is_Some (TTL.the_map (TTL.add nilKey c k v clk) !! k) →
            r = Some v) as Hfound.
    { intros Hle Hk. unfold r. rewrite TTLFacts.ttl_add_get by done.
      rewrite Hexp. unfold After, Add, defaultDuration.
      destruct (Z.ltb_spec (clk 0%nat + 10) (clk' 0%nat)); [lia|done]. }
    split_and!; [|done| |].
    + intros Hlate. apply TTLFacts.ttl_add_get_late; [done|].
      rewrite Hexp. unfold Add, defaultDuration. lia.
    + intros Hle Hk. apply Hfound; [done|].
      rewrite (TTLFacts.ttl_add_keeps_stored nilKey) by done. eauto.
    + intros Hle Hix Hk Hmax Hlt Hclk. apply Hfound; [done|].
      rewrite (TTLFacts.ttl_add_keeps_new nilKey) by done. eauto.
Qed.

End engine_claims.

(** * Instances of the properties on the example engines *)

Lemma ttl_purge_to_capacity_witness :
  let c := Examples.collided in
  TTLSpec.inv c ∧
  (TTL.len (TTL.purgeToCapacity None c (Examples.at_time Examples.now0))
     ≤ TTL.maxEntries c ∨
   TTL.the_index (TTL.purgeToCapacity None c (Examples.at_time Examples.now0))
     = ∅).
Proof.
  intros c.
  assert (TTLSpec.inv c) as Hc.
  { apply (TTLFacts.ttl_reachable_inv None).
    apply (TTLSpec.reach_exec None _
             (TTLSpec.CAdd (Some 2) 20 (Examples.at_time Examples.now0))).
    apply (TTLSpec.reach_exec None _
             (TTLSpec.CAdd (Some 1) 10 (Examples.at_time Examples.now0))).
    apply TTLSpec.reach_new. }
  split; [exact Hc|].
  exact (proj1 (proj2 (proj2 (proj2 (proj2 (proj2 (proj2 (proj2
    (ttl_purge_to_capacity None c (Examples.at_time Examples.now0) Hc))))))))).
Defined.

Lemma ttl_index_invariant_witness :
  let c := TTL.add None Examples.ttl2 (Some 1) 10
             (Examples.at_time Examples.now0) in
  TTLSpec.indexed c ∧
  TTL.the_index c !! TTLSpec.instant c Examples.now0 = Some (Some 1) ∧
  TTLSpec.orphan Examples.collided (Some 1).
Proof.
  intros c.
  destruct (ttl_index_invariant (V:=Z) (None : option Z))
    as (Hnew & Hadd & _ & _ & _ & _ & Hcollide & _).
  assert (TTLSpec.indexed c) as Hc.
  { apply Hadd; [apply Hnew|]. intros k' Hk'. vm_compute in Hk'.
    discriminate Hk'. }
  assert (TTL.the_index c !! TTLSpec.instant c Examples.now0
          = Some (Some 1)) as Hx by (vm_compute; reflexivity).
  split_and!; [exact Hc|exact Hx|].
  apply (Hcollide c (Some 2) (Some 1) 20 (Examples.at_time Examples.now0) Hc);
    [discriminate|exact Hx].
Defined.

Lemma add_then_get_witness :
  let c := Examples.fill Examples.lru5 [1; 2; 3; 4; 5] in
  let t := TTL.add None Examples.ttl2 (Some 1) 10
             (Examples.at_time Examples.now0) in
  let clk := Examples.at_time (Examples.now0 + 5) in
  (LRUSpec.inv c ∧
   is_Some (LRU.the_map (LRU.add c 6 60 Examples.now0) !! 6) ∧
   Examples.now0 + 1 ≤ Add Examples.now0 (LRU.expiry c) ∧
   (LRU.get (LRU.add c 6 60 Examples.now0) 6 (Examples.now0 + 1)).2
     = Some 60) ∧
  (TTLSpec.indexed t ∧ TTL.the_map t !! Some 2 = None ∧
   0 ≤ TTL.maxEntries t ∧
   (∀ i, is_Some (TTL.the_index t !! i) →
         i < TTLSpec.instant t (clk 0%nat)) ∧
   (∀ n, UnixNano (clk (S n)) < TTLSpec.instant t (clk 0%nat)) ∧
   clk 0%nat ≤ Add (clk 0%nat) (TTL.expiry t) ∧
   TTL.the_map (TTL.add None t (Some 2) 20 clk) !! Some 2
     = Some (Entry (Some 2) (Add (clk 0%nat) (TTL.expiry t)) 20) ∧
   (TTL.get (TTL.add None t (Some 2) 20 clk) (Some 2) clk).2 = Some 20).
Proof.
  intros c t clk.
  destruct (add_then_get (V:=Z) (0 : Z)) as (Hget & Hkeep & _).
  destruct (add_then_get (V:=Z) (None : option Z))
    as (_ & _ & Htget & _ & Htkeep).
  split.
  - assert (LRUSpec.inv c) as Hc
      by apply LRUFacts.lru_reachable_inv, lru_reachable_fill,
           LRUSpec.reach_new.
    assert (is_Some (LRU.the_map (LRU.add c 6 60 Examples.now0) !! 6)) as Hk.
    { apply Hkeep; [exact Hc|]. vm_compute. discriminate. }
    assert (Examples.now0 + 1 ≤ Add Examples.now0 (LRU.expiry c)) as Hle
      by (vm_compute; discriminate).
    split_and!; [exact Hc|exact Hk|exact Hle|].
    exact (Hget c 6 60 Examples.now0 (Examples.now0 + 1) Hc Hk Hle).
  - assert (TTLSpec.indexed t) as Hix.
    { apply TTLFacts.ttl_indexed_add.
      - apply TTLFacts.ttl_indexed_empty;
          [reflexivity|apply TTLFacts.ttl_inv_new].
      - intros k' Hk'. vm_compute in Hk'. discriminate Hk'. }
    assert (TTL.the_map t !! Some 2 = None) as Hk by (vm_compute; reflexivity).
    assert (0 ≤ TTL.maxEntries t) as Hmax by (vm_compute; discriminate).
    assert (∀ i, is_Some (TTL.the_index t !! i) →
                 i < TTLSpec.instant t (clk 0%nat)) as Hlt.
    { assert (TTL.the_index t = {[ 1700000001000000000 := Some 1 ]}) as ->
        by (vm_compute; reflexivity).
      intros i [k' Hi]. apply lookup_singleton_Some in Hi as [<- _].
      vm_compute. reflexivity. }
    assert (∀ n, UnixNano (clk (S n)) < TTLSpec.instant t (clk 0%nat))
      as Hclk by (intros n; vm_compute; reflexivity).
    assert (clk 0%nat ≤ Add (clk 0%nat) (TTL.expiry t)) as Hle
      by (vm_compute; discriminate).
    pose proof (Htkeep t (Some 2) 20 clk Hix Hk Hmax Hlt Hclk) as Hkept.
    split_and!; [exact Hix|exact Hk|exact Hmax|exact Hlt|exact Hclk|exact Hle
                |exact Hkept|].
    apply (Htget t (Some 2) 20 clk clk); [by destruct Hix| |exact Hle].
    rewrite Hkept. eauto.
Defined.

Lemma default_ttl_is_ten_nanoseconds_witness :
  let t := TTL.add None Examples.ttlCache20 (Some 1) 10
             (Examples.at_time Examples.now0) in
  let clk := Examples.at_time (Examples.now0 + 5) in
  Facade.TTL Examples.config20 = 0 ∧
  LRU.expiry Examples.lruWithTTL = defaultDuration ∧
  TTL.expiry Examples.ttlCache20 = defaultDuration ∧
  (LRU.get (LRU.add Examples.lruWithTTL 1 10 Examples.now0) 1
     (Examples.now0 + 10)).2 = Some 10 ∧
  (LRU.get (LRU.add Examples.lruWithTTL 1 10 Examples.now0) 1
     (Examples.now0 + 11)).2 = None ∧
  (TTLSpec.indexed t ∧ TTL.the_map t !! Some 2 = None ∧
   (∀ i, is_Some (TTL.the_index t !! i) →
         i < TTLSpec.instant t (clk 0%nat)) ∧
   (TTL.get (TTL.add None t (Some 2) 20 clk) (Some 2)
      (Examples.at_time (Examples.now0 + 15))).2 = Some 20 ∧
   (TTL.get (TTL.add None t (Some 2) 20 clk) (Some 2)
      (Examples.at_time (Examples.now0 + 16))).2 = None).
Proof.
  intros t clk.
  destruct (default_ttl_is_ten_nanoseconds (Key:=Z) (V:=Z)
              (Hook:=Examples.hook) (0 : Z)) as (_ & _ & Hmode & Hlru & _).
  destruct (default_ttl_is_ten_nanoseconds (Key:=option Z) (V:=Z)
              (Hook:=Examples.hook) (None : option Z))
    as (_ & _ & Htmode & _ & Httl).
  assert (Facade.TTL Examples.config20 = 0) as Hz by reflexivity.
  destruct (Hmode Examples.config20 true Hz) as (_ & Hl & _).
  destruct (Htmode Examples.config20 true Hz) as (_ & _ & _ & Ht).
  assert (LRU.expiry Examples.lruWithTTL = defaultDuration) as Hlexp
    by (unfold Examples.lruWithTTL; rewrite Hl; reflexivity).
  assert (TTL.expiry Examples.ttlCache20 = defaultDuration) as Htexp
    by (unfold Examples.ttlCache20; rewrite Ht; reflexivity).
  do 3 (split; [first [exact Hz|exact Hlexp|exact Htexp]|]).
  split; [|split].
  - destruct (Hlru Examples.lruWithTTL 1 10 Examples.now0 (Examples.now0 + 10))
      as (_ & _ & Hfound); [apply LRUFacts.inv_new|exact Hlexp|].
    apply Hfound; [lia|]. vm_compute. discriminate.
  - destruct (Hlru Examples.lruWithTTL 1 10 Examples.now0 (Examples.now0 + 11))
      as (Hlate & _); [apply LRUFacts.inv_new|exact Hlexp|].
    apply Hlate. lia.
  - assert (TTLSpec.indexed t) as Hix.
    { apply TTLFacts.ttl_indexed_add.
      - apply TTLFacts.ttl_indexed_empty;
          [reflexivity|apply TTLFacts.ttl_inv_new].
      - intros k' Hk'. vm_compute in Hk'. discriminate Hk'. }
    assert (TTL.the_map t !! Some 2 = None) as Hk by (vm_compute; reflexivity).
    assert (∀ i, is_Some (TTL.the_index t !! i) →
                 i < TTLSpec.instant t (clk 0%nat)) as Hlt.
    { assert (TTL.the_index t = {[ 1700000000000000010 := Some 1 ]}) as ->
        by (vm_compute; reflexivity).
      intros i [k' Hi]. apply lookup_singleton_Some in Hi as [<- _].
      vm_compute. reflexivity. }
    assert (TTL.expiry t = defaultDuration) as Hexp by reflexivity.
    split_and!; [exact Hix|exact Hk|exact Hlt| |].
    + destruct (Httl t (Some 2) 20 clk (Examples.at_time (Examples.now0 + 15))
                  (proj1 Hix) Hexp) as (_ & _ & _ & Hfound).
      apply Hfound; [unfold clk, Examples.at_time; lia|exact Hix|exact Hk
                    |vm_compute; discriminate|exact Hlt|].
      intros n. vm_compute. reflexivity.
    + destruct (Httl t (Some 2) 20 clk (Examples.at_time (Examples.now0 + 16))
                  (proj1 Hix) Hexp) as (Hlate & _).
      apply Hlate. unfold clk, Examples.at_time. lia.
Defined.

(** C10, as stated, fails: under the default an entry is still found by a
    get that is later than its insertion by no more than 10 nanoseconds. *)
Lemma default_ttl_entry_found_five_nanoseconds_later :
  Facade.TTL Examples.config20 = 0 ∧
  Examples.now0 < Examples.now0 + 5 ∧
  (LRU.get (LRU.add Examples.lruWithTTL 1 10 Examples.now0) 1
     (Examples.now0 + 5)).2 = Some 10 ∧
  (TTL.get
     (TTL.add None Examples.ttlCache20 (Some 1) 10
        (Examples.at_time Examples.now0))
     (Some 1) (Examples.at_time (Examples.now0 + 5))).2 = Some 10.
Proof. split_and!; vm_compute; done. Qed.

(** * Further properties of the recency engine *)

Section recency_extras.
Context `{Countable Key} {V : Type}.
Implicit Types (c : LRU.lruCache Key V) (k : Key) (v : V).

(** X1.  remove(k) of the recency engine deletes the entry of k from the
    map and from the recency sequence and leaves the other entries in
    their order; the size drops by one when k was stored, the engine is
    unchanged when it was not, and a get of k afterwards finds nothing. *)
Theorem lru_remove_spec c k :
  LRUSpec.inv c →
  let c' := LRU.remove c k in
  LRUSpec.inv c' ∧
  LRU.the_map c' = delete k (LRU.the_map c) ∧
  LRUSpec.contents c' = LRUSpec.without k (LRUSpec.contents c) ∧
  (is_Some (LRU.the_map c !! k) → LRU.size c' = LRU.size c - 1) ∧
  (LRU.the_map c !! k = None → c' = c) ∧
  (∀ now, (LRU.get c' k now).2 = None) ∧
  LRU.remove c' k = c'.
Proof.
  intros Hc c'.
  destruct (LRUFacts.inv_remove c k Hc) as (Hc' & Hs & Hm). fold c' in Hc', Hs, Hm.
  assert (∀ c0, LRU.the_map c0 !! k = None → LRU.remove c0 k = c0) as Hnoop.
  { intros c0 Hk. unfold LRU.remove.
    destruct (LRU.cache c0) as [m|] eqn:Hm0; [|done].
    unfold LRU.the_map in Hk. rewrite Hm0 in Hk. simpl in Hk. by rewrite Hk. }
  assert (LRU.the_map c' !! k = None) as Hgone
    by (rewrite Hm; apply lookup_delete_eq).
  split_and!; [done|done|done| |by apply Hnoop| |by apply Hnoop].
  - intros Hk.
    rewrite !LRUFacts.lru_size_map, Hm, map_size_delete_Some by done.
    assert (base.size (LRU.the_map c) ≠ 0%nat); [|lia].
    apply map_size_non_empty_iff. intros Hempty. rewrite Hempty in Hk.
    rewrite lookup_empty in Hk. by destruct Hk.
  - intros now.
    destruct (LRUFacts.get_refines c' k now Hc') as (_ & _ & ->).
    unfold LRUSpec.seq_get.
    rewrite LRUFacts.find_key_contents by done. by rewrite Hgone.
Qed.

(** X2.  add of a key that is stored refreshes it: its element moves to
    the front and takes the new value and the expiry now + expiry; the
    other entries keep their order, no entry is evicted, and the map and
    the size are unchanged, whatever maxEntries is. *)
Theorem lru_add_refreshes c k v now p :
  LRUSpec.inv c → LRU.the_map c !! k = Some p →
  let c' := LRU.add c k v now in
  LRUSpec.contents c'
    = Entry k (Add now (LRU.expiry c)) v
        :: LRUSpec.without k (LRUSpec.contents c) ∧
  LRU.the_list c' = p :: LRU.Remove p (LRU.the_list c) ∧
  LRU.the_map c' = LRU.the_map c ∧
  LRU.size c' = LRU.size c.
Proof.
  intros Hc Hk c'.
  destruct (LRUFacts.add_refines c k v now Hc) as [Hc' Hs]. fold c' in Hc', Hs.
  destruct (LRUFacts.inv_lookup c k p Hc Hk) as (Hp & e & He & Hke).
  destruct (LRUFacts.inv_cases c Hc) as [[Hl Hm]|(l & m & Hl & Hm)].
  { unfold LRU.the_map in Hk. rewrite Hm in Hk. simpl in Hk.
    by rewrite lookup_empty in Hk. }
  assert (LRU.the_map c' = LRU.the_map c) as Hmap.
  { unfold c', LRU.add. rewrite (LRUFacts.init_Some c m Hm), Hk.
    unfold LRU.the_map. simpl. done. }
  split_and!.
  - rewrite Hs. unfold LRUSpec.seq_add.
    rewrite LRUFacts.find_key_contents, Hk by done. simpl. by rewrite He.
  - unfold c', LRU.add. rewrite (LRUFacts.init_Some c m Hm), Hk.
    unfold LRU.the_list. simpl. rewrite Hl. simpl.
    unfold LRU.the_list in Hp. rewrite Hl in Hp. simpl in Hp.
    unfold LRU.MoveToFront. by rewrite decide_True.
  - done.
  - by rewrite !LRUFacts.lru_size_map, Hmap.
Qed.

(** X3.  get(k) of the recency engine touches no other key: the entries
    of the other keys stay stored, in their order.  A hit leaves the map
    and the size as they were; a miss on a stored key (the entry had
    expired) removes this one entry; a miss on an absent key changes
    nothing. *)
Theorem lru_get_touches_one_key c k now :
  LRUSpec.inv c →
  let r := LRU.get c k now in
  (∀ k', k' ≠ k → LRU.the_map r.1 !! k' = LRU.the_map c !! k') ∧
  LRUSpec.without k (LRUSpec.contents r.1)
    = LRUSpec.without k (LRUSpec.contents c) ∧
  (is_Some r.2 → LRU.the_map r.1 = LRU.the_map c ∧ LRU.size r.1 = LRU.size c) ∧
  (r.2 = None → is_Some (LRU.the_map c !! k) →
     LRU.the_map r.1 = delete k (LRU.the_map c) ∧
     LRU.size r.1 = LRU.size c - 1) ∧
  (LRU.the_map c !! k = None → r = (c, None)).
Proof.
  intros Hc r.
  destruct (LRUFacts.get_refines c k now Hc) as (Hc' & Hs & Hv).
  pose proof (LRUFacts.lru_get_map c k now Hc) as Hm.
  fold r in Hc', Hs, Hv, Hm.
  pose proof (LRUFacts.find_key_contents c k Hc) as Hf.
  unfold LRUSpec.seq_get in Hs, Hv.
  assert (∀ m : gmap Key positive,
            is_Some (m !! k) →
            Z.of_nat (base.size (delete k m)) = Z.of_nat (base.size m) - 1)
    as Hdel.
  { intros m Hk. rewrite map_size_delete_Some by done.
    assert (base.size m ≠ 0%nat); [|lia].
    apply map_size_non_empty_iff. intros ->.
    rewrite lookup_empty in Hk. by destruct Hk. }
  destruct (LRUSpec.find_key k (LRUSpec.contents c)) as [e|] eqn:Hfk.
  - assert (is_Some (LRU.the_map c !! k)) as Hk.
    { destruct (LRU.the_map c !! k); [eauto|done]. }
    destruct (After now (ttl e)); simpl in Hs, Hv.
    + split_and!.
      * intros k' Hk'. rewrite Hm. by apply lookup_delete_ne.
      * rewrite Hs. apply LRUFacts.without_without.
      * rewrite Hv. by intros [].
      * intros _ _. split; [done|].
        rewrite !LRUFacts.lru_size_map, Hm by done. by apply Hdel.
      * intros Hno. rewrite Hno in Hk. by destruct Hk.
    + split_and!.
      * intros k' _. by rewrite Hm.
      * rewrite Hs. unfold LRUSpec.without at 1.
        destruct (LRUFacts.find_key_Some k _ e Hfk) as [_ Hke].
        rewrite filter_cons_False by (by intros []).
        apply LRUFacts.without_without.
      * intros _. split; [done|].
        by rewrite !LRUFacts.lru_size_map, Hm.
      * rewrite Hv. done.
      * intros Hno. rewrite Hno in Hk. by destruct Hk.
  - simpl in Hs, Hv.
    assert (LRU.the_map c !! k = None) as Hk.
    { destruct (LRU.the_map c !! k) as [p|] eqn:Hk; [|done].
      destruct (LRUFacts.inv_lookup c k p Hc Hk) as (_ & e & He & _).
      simpl in Hf. by rewrite He in Hf. }
    split_and!.
    + intros k' _. by rewrite Hm.
    + by rewrite Hs.
    + rewrite Hv. by intros [].
    + intros _ Hsome. rewrite Hk in Hsome. by destruct Hsome.
    + intros _. unfold r, LRU.get.
      destruct (LRU.cache c) as [m|] eqn:Hmc; [|done].
      unfold LRU.the_map in Hk. rewrite Hmc in Hk. simpl in Hk. by rewrite Hk.
Qed.

(** X4.  In every state the operations lead to, size() of the recency
    engine is the number of keys of its map, counts expired entries that no
    get has met yet, is never negative, and is 0 exactly when no key is
    stored. *)
Theorem lru_size_counts_keys c :
  LRUSpec.reachable c →
  LRU.size c = Z.of_nat (base.size (LRU.the_map c)) ∧
  LRU.size c = Z.of_nat (length (LRUSpec.keys c)) ∧
  0 ≤ LRU.size c ∧
  (LRU.size c = 0 ↔ ∀ k, LRU.the_map c !! k = None).
Proof.
  intros Hr. pose proof (LRUFacts.lru_reachable_inv c Hr) as Hc.
  pose proof (LRUFacts.lru_size_map c Hc) as Hsz.
  split_and!.
  - done.
  - unfold LRUSpec.keys. rewrite length_fmap. by apply LRUFacts.size_contents.
  - lia.
  - rewrite Hsz. split.
    + intros Hz k. assert (LRU.the_map c = ∅) as ->; [|apply lookup_empty].
      apply map_size_empty_inv. lia.
    + intros Hno. assert (LRU.the_map c = ∅) as ->; [|done].
      by apply map_empty.
Qed.

(** X5.  With maxEntries = 0 the recency engine is unbounded: an add puts
    its entry in front and keeps every entry of another key, so the size
    never drops. *)
Theorem lru_unbounded_never_evicts c k v now :
  LRUSpec.inv c → LRU.maxEntries c = 0 →
  let c' := LRU.add c k v now in
  LRUSpec.contents c'
    = Entry k (Add now (LRU.expiry c)) v
        :: LRUSpec.without k (LRUSpec.contents c) ∧
  (∀ k', is_Some (LRU.the_map c !! k') → is_Some (LRU.the_map c' !! k')) ∧
  (LRU.the_map c !! k = None → LRU.size c' = LRU.size c + 1).
Proof.
  intros Hc Hz c'.
  destruct (LRUFacts.add_refines c k v now Hc) as [Hc' Hs]. fold c' in Hc', Hs.
  rewrite Hz, LRUFacts.seq_add_unbounded in Hs.
  split_and!; [done| |].
  - intros k' Hk'.
    apply LRUFacts.elem_of_keys in Hk'; [|done].
    apply LRUFacts.elem_of_keys; [done|].
    unfold LRUSpec.keys in *. rewrite Hs.
    destruct (decide (k' = k)) as [->|Hne]; [by left|]. right.
    apply list_elem_of_fmap in Hk' as (e & -> & He).
    apply list_elem_of_fmap. exists e. split; [done|].
    unfold LRUSpec.without. by apply list_elem_of_filter.
  - intros Hk. rewrite !LRUFacts.size_contents, Hs by done.
    rewrite LRUFacts.without_absent by by apply LRUFacts.inv_absent.
    rewrite length_cons. lia.
Qed.

(** X6.  A recency engine constructed with a negative maxEntries stores
    nothing: in every state the operations lead to the sequence is empty,
    the size is 0 and every get misses. *)
Theorem lru_negative_maxEntries_stores_nothing c :
  LRUSpec.reachable c → LRU.maxEntries c < 0 →
  LRUSpec.contents c = [] ∧ LRU.size c = 0 ∧
  (∀ k, LRU.the_map c !! k = None) ∧
  ∀ k now, (LRU.get c k now).2 = None.
Proof.
  intros Hr Hneg. pose proof (LRUFacts.lru_reachable_inv c Hr) as Hc.
  pose proof (LRUFacts.lru_negative_empty c Hr Hneg) as Hs.
  assert (∀ k, LRU.the_map c !! k = None) as Hno.
  { intros k. destruct (LRU.the_map c !! k) eqn:Hk; [|done].
    assert (k ∈ LRUSpec.keys c) as Hin by (apply LRUFacts.elem_of_keys; eauto).
    unfold LRUSpec.keys in Hin. rewrite Hs in Hin. by apply elem_of_nil in Hin. }
  split_and!; [done| |done|].
  - rewrite LRUFacts.size_contents by done. by rewrite Hs.
  - intros k now.
    destruct (LRUFacts.get_refines c k now Hc) as (_ & _ & ->). by rewrite Hs.
Qed.

(** X7.  A hit moves the entry read to the front, an add puts the entry
    written there, and the entry in front is not the next one evicted: it
    is still stored after an add of another key, provided maxEntries is
    not 1 (and not negative). *)
Theorem lru_front_survives_next_add :
  (∀ c k now v,
     LRUSpec.inv c → (LRU.get c k now).2 = Some v →
     ∃ e, head (LRUSpec.contents (LRU.get c k now).1) = Some e ∧
          key e = k ∧ value e = v) ∧
  (∀ c k v now,
     LRUSpec.inv c → 0 ≤ LRU.maxEntries c →
     head (LRUSpec.contents (LRU.add c k v now))
       = Some (Entry k (Add now (LRU.expiry c)) v)) ∧
  (∀ c e k v now,
     LRUSpec.inv c → head (LRUSpec.contents c) = Some e → key e ≠ k →
     0 ≤ LRU.maxEntries c → LRU.maxEntries c ≠ 1 →
     e ∈ LRUSpec.contents (LRU.add c k v now) ∧
     is_Some (LRU.the_map (LRU.add c k v now) !! key e)).
Proof.
  split_and!.
  - intros c k now v Hc Hv.
    destruct (LRUFacts.get_refines c k now Hc) as (_ & Hs & Hv').
    rewrite Hv in Hv'. rewrite Hs. unfold LRUSpec.seq_get in *.
    destruct (LRUSpec.find_key k (LRUSpec.contents c)) as [e|] eqn:Hf; [|done].
    destruct (LRUFacts.find_key_Some k _ e Hf) as [_ Hke].
    destruct (After now (ttl e)); [done|]. simpl in *.
    exists e. split_and!; [done|done|congruence].
  - intros c k v now Hc Hmax.
    destruct (LRUFacts.add_refines c k v now Hc) as [_ ->].
    by apply LRUFacts.seq_add_head.
  - intros c e k v now Hc Hhead Hk Hmax H1.
    destruct (LRUFacts.add_refines c k v now Hc) as [Hc' Hs].
    assert (e ∈ LRUSpec.contents (LRU.add c k v now)) as Hin
      by (rewrite Hs; by apply LRUFacts.seq_add_keeps_head).
    split; [done|].
    apply LRUFacts.elem_of_keys; [done|].
    unfold LRUSpec.keys. apply list_elem_of_fmap. by exists e.
Qed.

(** X8.  In a recency engine whose maxEntries is not negative, adding a
    key twice leaves the same recency sequence as adding it once with the
    later value and time: the second add consumes no capacity and evicts
    nothing. *)
Theorem lru_add_twice c k v1 v2 t1 t2 :
  LRUSpec.inv c → 0 ≤ LRU.maxEntries c →
  LRUSpec.contents (LRU.add (LRU.add c k v1 t1) k v2 t2)
    = LRUSpec.contents (LRU.add c k v2 t2).
Proof.
  intros Hc Hmax.
  destruct (LRUFacts.add_refines c k v1 t1 Hc) as [Hc1 Hs1].
  destruct (LRUFacts.add_refines (LRU.add c k v1 t1) k v2 t2 Hc1) as [_ ->].
  destruct (LRUFacts.add_refines c k v2 t2 Hc) as [_ ->].
  destruct (LRUFacts.lru_add_params c k v1 t1) as [-> ->].
  rewrite Hs1. by apply LRUFacts.seq_add_twice.
Qed.

(** X9.  removeOldest unlinks exactly the last entry of the recency
    sequence and deletes its key from the map; on an engine that holds
    nothing, cleared or not, it does nothing. *)
Theorem lru_removeOldest_spec c :
  LRUSpec.inv c →
  let c' := LRU.removeOldest c in
  LRUSpec.inv c' ∧
  LRUSpec.contents c' = LRUSpec.drop_last (LRUSpec.contents c) ∧
  (∀ front e, LRUSpec.contents c = front ++ [e] →
     LRUSpec.contents c' = front ∧
     LRU.the_map c' = delete (key e) (LRU.the_map c) ∧
     LRU.size c' = LRU.size c - 1) ∧
  (LRUSpec.contents c = [] → c' = c).
Proof.
  intros Hc c'.
  destruct (LRUFacts.removeOldest_refines c Hc) as [Hc' Hs]. fold c' in Hc', Hs.
  split_and!; [done|done| |].
  - intros front e Hfront.
    assert (LRUSpec.contents c' = front) as Hs'
      by (rewrite Hs, Hfront; apply LRUFacts.drop_last_snoc).
    split; [done|].
    assert (LRU.size c' = LRU.size c - 1) as Hsz.
    { rewrite !LRUFacts.size_contents, Hs', Hfront, length_app by done.
      simpl. lia. }
    split; [|done].
    by apply (LRUFacts.removeOldest_map c front e).
  - intros Hnil. unfold c', LRU.removeOldest.
    destruct (LRU.cache c); [|done].
    pose proof (LRUFacts.length_contents c Hc) as Hlen.
    rewrite Hnil in Hlen. simpl in Hlen.
    destruct (LRU.the_list c); [done|discriminate].
Qed.

End recency_extras.

(** * Further properties of the expiry engine *)

Section expiry_extras.
Context `{Countable Key} {V : Type} (nilKey : Key).
Implicit Types (c : TTL.ttlCache Key V) (k : Key) (v : V) (i : Z).

(** X10.  get(k) of the expiry engine: an absent key changes nothing and
    misses; a key whose entry has expired at the first clock reading is
    deleted from the store together with its instant, the size drops by
    one and the get misses; otherwise the value is returned, and the
    entry is re-registered at (second reading + expiry) when
    updateAgeOnGet is set, while the engine is unchanged when it is not.
    No other key is touched. *)
Theorem ttl_get_spec c k clk :
  TTLSpec.inv c →
  let r := TTL.get c k clk in
  TTLSpec.inv r.1 ∧
  (∀ k', k' ≠ k → TTL.the_map r.1 !! k' = TTL.the_map c !! k') ∧
  match TTL.the_map c !! k with
  | None => r = (c, None)
  | Some e =>
      if After (clk 0%nat) (ttl e)
      then
        r.2 = None ∧
        TTL.the_map r.1 = delete k (TTL.the_map c) ∧
        TTL.the_index r.1 = delete (UnixNano (ttl e)) (TTL.the_index c) ∧
        TTL.size r.1 = TTL.size c - 1
      else
        r.2 = Some (value e) ∧
        if TTL.updateAgeOnGet c
        then
          TTL.the_map r.1
            = <[k := Entry k (Add (clk 1%nat) (TTL.expiry c)) (value e)]>
                (TTL.the_map c) ∧
          TTL.the_index r.1
            = <[TTLSpec.instant c (clk 1%nat) := k]>
                (delete (UnixNano (ttl e)) (TTL.the_index c)) ∧
          TTL.size r.1 = TTL.size c
        else r.1 = c
  end.
Proof.
  intros Hc r.
  split; [by apply TTLFacts.ttl_inv_get|].
  unfold r. rewrite TTLFacts.ttl_get_view.
  destruct (TTL.the_map c !! k) as [e|] eqn:Hk; [|done].
  pose proof (TTLSpec.ttl_keyed c Hc k e Hk) as Hke.
  destruct (After (clk 0%nat) (ttl e)); simpl.
  - split.
    { intros k' Hk'. rewrite TTLFacts.the_map_remove by done.
      by apply lookup_delete_ne. }
    split_and!; [done|by apply TTLFacts.the_map_remove|
                 by apply TTLFacts.the_index_remove|].
    rewrite !TTLFacts.ttl_size_len. apply TTLFacts.ttl_len_remove; eauto.
  - destruct (TTL.updateAgeOnGet c); simpl; [|done].
    destruct (TTLFacts.ttl_changeTTL_view c k e (clk 1%nat) Hc Hk)
      as (Hm & Hx & _).
    rewrite Hke in Hm. split.
    { intros k' Hk'. rewrite Hm. by apply lookup_insert_ne. }
    split_and!; [done|done|done|].
    rewrite !TTLFacts.ttl_size_len. by apply TTLFacts.ttl_len_changeTTL.
Qed.

(** X11.  With updateAgeOnGet set, a hit renews the entry: a second get
    is a hit whenever its time is not after (second clock reading of the
    first get + expiry), even when the original expiry has passed.
    Without updateAgeOnGet the second get sees the original expiry. *)
Theorem ttl_hit_renews_entry c k e clk1 clk2 :
  TTLSpec.inv c → TTL.the_map c !! k = Some e →
  clk1 0%nat ≤ ttl e →
  let c1 := (TTL.get c k clk1).1 in
  (TTL.get c k clk1).2 = Some (value e) ∧
  (TTL.updateAgeOnGet c = true →
     (TTL.get c1 k clk2).2
       = if After (clk2 0%nat) (Add (clk1 1%nat) (TTL.expiry c))
         then None else Some (value e)) ∧
  (TTL.updateAgeOnGet c = false →
     (TTL.get c1 k clk2).2
       = if After (clk2 0%nat) (ttl e) then None else Some (value e)).
Proof.
  intros Hc Hk Hlive c1. unfold c1.
  assert (After (clk1 0%nat) (ttl e) = false) as Hnot
    by (unfold After; apply Z.ltb_ge; lia).
  rewrite (TTLFacts.ttl_get_view c k clk1), Hk, Hnot. simpl.
  split_and!; [done| |].
  - intros ->.
    destruct (TTLFacts.ttl_changeTTL_view c k e (clk1 1%nat) Hc Hk)
      as (Hm & _ & _).
    rewrite TTLFacts.ttl_get_view, Hm, lookup_insert_eq. simpl.
    by destruct (After (clk2 0%nat) _).
  - intros ->. rewrite TTLFacts.ttl_get_view, Hk.
    by destruct (After (clk2 0%nat) _).
Qed.

(** X12.  remove(k) of the expiry engine deletes the entry of k and the
    instant of that entry; the size drops by one when k was stored, the
    engine is unchanged when it was not, no other key is touched, and a
    get of k afterwards misses. *)
Theorem ttl_remove_spec c k :
  TTLSpec.inv c →
  let c' := TTL.remove c k in
  TTLSpec.inv c' ∧
  TTL.the_map c' = delete k (TTL.the_map c) ∧
  (∀ e, TTL.the_map c !! k = Some e →
     TTL.the_index c' = delete (UnixNano (ttl e)) (TTL.the_index c) ∧
     TTL.size c' = TTL.size c - 1) ∧
  (TTL.the_map c !! k = None → c' = c) ∧
  (∀ clk, TTL.get c' k clk = (c', None)) ∧
  TTL.remove c' k = c'.
Proof.
  intros Hc c'.
  pose proof (TTLFacts.the_map_remove c k Hc) as Hm. fold c' in Hm.
  assert (TTL.the_map c' !! k = None) as Hgone
    by (rewrite Hm; apply lookup_delete_eq).
  split_and!.
  - by apply TTLFacts.ttl_inv_remove.
  - done.
  - intros e Hk. split; [by apply TTLFacts.the_index_remove|].
    rewrite !TTLFacts.ttl_size_len. apply TTLFacts.ttl_len_remove; eauto.
  - apply TTLFacts.ttl_remove_absent.
  - intros clk. by rewrite TTLFacts.ttl_get_view, Hgone.
  - by apply TTLFacts.ttl_remove_absent.
Qed.

(** X13.  With maxEntries = 0 the expiry engine is unbounded: add stores
    its entry and evicts nothing, not even entries that have expired, so
    every key stored before is stored after and the size never drops. *)
Theorem ttl_unbounded_never_evicts c k v clk :
  TTLSpec.inv c → TTL.maxEntries c = 0 →
  let c' := TTL.add nilKey c k v clk in
  TTL.the_map c'
    = <[k := Entry k (Add (clk 0%nat) (TTL.expiry c)) v]> (TTL.the_map c) ∧
  (∀ k', is_Some (TTL.the_map c !! k') → is_Some (TTL.the_map c' !! k')) ∧
  (∀ k', k' ≠ k → TTL.the_map c' !! k' = TTL.the_map c !! k') ∧
  TTL.size c ≤ TTL.size c' ∧
  (TTL.the_map c !! k = None → TTL.size c' = TTL.size c + 1).
Proof.
  intros Hc Hz c'.
  pose proof (TTLFacts.ttl_add_unbounded nilKey c k v clk Hc Hz) as Hm.
  fold c' in Hm.
  assert (TTL.the_map c !! k = None → TTL.size c' = TTL.size c + 1) as Hnew.
  { intros Hk. rewrite !TTLFacts.ttl_size_len. unfold TTL.len.
    rewrite Hm, map_size_insert_None by done. lia. }
  split_and!; [done| | | |done].
  - intros k' Hk'. rewrite Hm.
    destruct (decide (k' = k)) as [->|Hne].
    + rewrite lookup_insert_eq. eauto.
    + by rewrite lookup_insert_ne.
  - intros k' Hne. rewrite Hm. by apply lookup_insert_ne.
  - destruct (TTL.the_map c !! k) as [e|] eqn:Hk.
    + rewrite !TTLFacts.ttl_size_len. unfold TTL.len.
      rewrite Hm, map_size_insert_Some by eauto. lia.
    + rewrite Hnew by done. lia.
Qed.

(** X14.  An expiry engine constructed with a negative maxEntries stores
    nothing: in every state the operations lead to the store is empty,
    the size is 0 and every get misses. *)
Theorem ttl_negative_maxEntries_stores_nothing c :
  TTLSpec.reachable nilKey c → TTL.maxEntries c < 0 →
  TTL.the_map c = ∅ ∧ TTL.size c = 0 ∧
  ∀ k clk, TTL.get c k clk = (c, None).
Proof.
  intros Hr Hneg.
  pose proof (TTLFacts.ttl_negative_empty nilKey c Hr Hneg) as Hm.
  split_and!; [done| |].
  - rewrite TTLFacts.ttl_size_len. unfold TTL.len. by rewrite Hm.
  - intros k clk. by rewrite TTLFacts.ttl_get_view, Hm, lookup_empty.
Qed.

(** X15.  In every state the operations of the expiry engine lead to,
    collisions of instants included: an entry is stored under its own
    key, every instant of the index registers a stored key whose entry
    expires at this instant, the index has no more instants than the
    store has entries, size() is the number of stored entries, and that
    number is at most maxEntries when maxEntries is positive. *)
Theorem ttl_reachable_invariant c :
  TTLSpec.reachable nilKey c →
  (∀ k e, TTL.the_map c !! k = Some e → key e = k) ∧
  (∀ i k, TTL.the_index c !! i = Some k →
     ∃ e, TTL.the_map c !! k = Some e ∧ UnixNano (ttl e) = i) ∧
  (base.size (TTL.the_index c) ≤ base.size (TTL.the_map c))%nat ∧
  TTL.size c = Z.of_nat (base.size (TTL.the_map c)) ∧
  (0 < TTL.maxEntries c → TTL.size c ≤ TTL.maxEntries c).
Proof.
  intros Hr. pose proof (TTLFacts.ttl_reachable_inv nilKey c Hr) as Hc.
  split_and!.
  - apply Hc.
  - apply Hc.
  - apply TTLFacts.ttl_index_le, Hc.
  - by rewrite TTLFacts.ttl_size_len.
  - intros Hmax. rewrite TTLFacts.ttl_size_len.
    by apply (TTLFacts.ttl_reachable_bound nilKey).
Qed.

End expiry_extras.

(** * Further properties of runs, of the modes and of the facade *)

Section run_extras.
Context `{Countable Key} {V : Type} (nilKey : Key).

(** X16.  No entry of the recency engine expires early: after any calls
    on a constructed engine whose adds read the clock at lo or later,
    every stored entry expires at lo + expiry or later, so a get of a
    stored key at a time up to lo + expiry is a hit. *)
Theorem lru_no_early_expiry maxEntries expiry
    (os : list (LRUSpec.call (Key:=Key) (V:=V))) lo :
  (∀ o t, o ∈ os → t ∈ Runs.lru_written_at o → lo ≤ t) →
  let c := Runs.lru_after (LRU.newLRU maxEntries expiry) os in
  (∀ e, e ∈ LRUSpec.contents c → lo + expiry ≤ ttl e) ∧
  ∀ k now, is_Some (LRU.the_map c !! k) → now ≤ lo + expiry →
           is_Some (LRU.get c k now).2.
Proof.
  intros Ht c.
  destruct (RunFacts.lru_after_ttl_bound os lo
              (LRU.newLRU maxEntries expiry : LRU.lruCache Key V))
    as (Hc & _ & _ & Hb); [apply LRUFacts.inv_new|done| |].
  { by intros e ?%elem_of_nil. }
  fold c in Hc, Hb. simpl in Hb. split; [done|].
  intros k now Hk Hnow. apply RunFacts.lru_hit_if_live; [done|done|].
  intros e He. specialize (Hb e He). lia.
Qed.

(** X17.  The engine of LRUCacheMode never expires an entry: after any
    calls whose adds read a clock that is not before 1970, a get of a
    stored key is a hit at every time an int64 of nanoseconds can hold. *)
Theorem lru_mode_never_expires {Hook : Type} (cc : Facade.CacheConfig Hook)
    (os : list (LRUSpec.call (Key:=Key) (V:=V))) :
  (∀ o t, o ∈ os → t ∈ Runs.lru_written_at o → 0 ≤ t) →
  let c := Runs.lru_after (Facade.LRUCacheMode cc) os in
  LRU.maxEntries c = Facade.MaxEntries cc ∧
  LRU.expiry c = maxDuration ∧
  ∀ k now, is_Some (LRU.the_map c !! k) → now < 2 ^ 63 →
           is_Some (LRU.get c k now).2.
Proof.
  intros Ht c.
  destruct (RunFacts.lru_after_ttl_bound os 0
              (Facade.LRUCacheMode cc : LRU.lruCache Key V))
    as (Hc & Hmax & Hexp & Hb); [apply LRUFacts.inv_new|done| |].
  { by intros e ?%elem_of_nil. }
  fold c in Hc, Hmax, Hexp, Hb. split_and!; [done|done|].
  intros k now Hk Hnow. apply RunFacts.lru_hit_if_live; [done|done|].
  intros e He. specialize (Hb e He). simpl in Hb.
  unfold maxDuration in Hb. lia.
Qed.

(** X18.  No entry of the expiry engine expires early: after any calls on
    a constructed engine whose clock readings for an expiry time (the
    first of an add, the second of a get) are at lo or later, every
    stored entry expires at lo + expiry or later, so a get of a stored
    key whose first reading is at most lo + expiry is a hit. *)
Theorem ttl_no_early_expiry maxEntries expiry upd
    (os : list (TTLSpec.call (Key:=Key) (V:=V))) lo :
  (∀ o t, o ∈ os → t ∈ Runs.ttl_written_at o → lo ≤ t) →
  let c := Runs.ttl_after nilKey (TTL.newTTLCache maxEntries expiry upd) os in
  (∀ k e, TTL.the_map c !! k = Some e → lo + expiry ≤ ttl e) ∧
  ∀ k clk, is_Some (TTL.the_map c !! k) → clk 0%nat ≤ lo + expiry →
           is_Some (TTL.get c k clk).2.
Proof.
  intros Ht c.
  destruct (RunFacts.ttl_after_ttl_bound nilKey os lo
              (TTL.newTTLCache maxEntries expiry upd : TTL.ttlCache Key V))
    as (Hc & _ & Hb); [apply TTLFacts.ttl_inv_new|done| |].
  { intros k e. unfold TTL.the_map. simpl. by rewrite lookup_empty. }
  fold c in Hc, Hb. simpl in Hb. split; [done|].
  intros k clk [e Hk] Hnow. rewrite TTLFacts.ttl_get_view, Hk.
  specialize (Hb k e Hk). unfold After.
  destruct (Z.ltb_spec (ttl e) (clk 0%nat)); [lia|]. simpl. eauto.
Qed.

End run_extras.

Section mode_extras.
Context `{Countable Key} {V : Type} {Hook : Type}.
Implicit Types (cc : Facade.CacheConfig Hook).

(** X19.  The modes: LRUCacheMode ignores the configured TTL and leaves
    the configuration alone; the two modes with a TTL take maxEntries
    from the configuration, use a TTL that is not 0 as it is, change
    nothing but the TTL of the configuration, and leave a TTL in it that
    is never 0, so a second mode called on it builds an engine with the
    same expiry. *)
Theorem modes_use_the_configuration cc upd :
  Facade.LRUCacheMode (Key:=Key) (V:=V) cc
    = LRU.newLRU (Facade.MaxEntries cc) maxDuration ∧
  (Facade.TTL cc ≠ 0 →
     Facade.LRUWithTTLCacheMode (Key:=Key) (V:=V) cc
       = (cc, LRU.newLRU (Facade.MaxEntries cc) (Facade.TTL cc)) ∧
     Facade.TTLCacheMode (Key:=Key) (V:=V) cc upd
       = (cc, TTL.newTTLCache (Facade.MaxEntries cc) (Facade.TTL cc) upd)) ∧
  (let r := Facade.LRUWithTTLCacheMode (Key:=Key) (V:=V) cc in
   Facade.TTL r.1 ≠ 0 ∧
   Facade.MaxEntries r.1 = Facade.MaxEntries cc ∧
   Facade.Callbacks r.1 = Facade.Callbacks cc ∧
   LRU.maxEntries r.2 = Facade.MaxEntries cc ∧
   LRU.expiry r.2 = Facade.TTL r.1 ∧
   TTL.expiry (Facade.TTLCacheMode (Key:=Key) (V:=V) r.1 upd).2
     = LRU.expiry r.2) ∧
  (let r := Facade.TTLCacheMode (Key:=Key) (V:=V) cc upd in
   Facade.TTL r.1 ≠ 0 ∧
   Facade.MaxEntries r.1 = Facade.MaxEntries cc ∧
   Facade.Callbacks r.1 = Facade.Callbacks cc ∧
   TTL.maxEntries r.2 = Facade.MaxEntries cc ∧
   TTL.updateAgeOnGet r.2 = upd ∧
   TTL.expiry r.2 = Facade.TTL r.1 ∧
   LRU.expiry (Facade.LRUWithTTLCacheMode (Key:=Key) (V:=V) r.1).2
     = TTL.expiry r.2).
Proof.
  unfold Facade.LRUWithTTLCacheMode, Facade.TTLCacheMode,
    Facade.with_default_TTL.
  split; [done|]. split.
  - intros Hnz. destruct (Z.eqb_spec (Facade.TTL cc) 0); [done|]. done.
  - destruct (Z.eqb_spec (Facade.TTL cc) 0) as [Hz|Hnz]; simpl.
    + split; split_and!; done.
    + destruct (Z.eqb_spec (Facade.TTL cc) 0); [done|].
      split; split_and!; done.
Qed.

End mode_extras.

Section facade_extras.
Context `{Countable Key} {V : Type} {Hook : Type}.

(** X20.  Run statement by statement with the mutex free, every facade
    method ends, by a return or by the panic on a nil Callbacks, with the
    mutex free again (the deferred unlock runs either way); it takes the
    mutex while it is free, everything else it does (the call of the
    engine, the hook, the panic, the unlock) happens while the mutex is
    held, and its events and its engine are those of the facade as a
    whole.  Run while the mutex is held, as from within a hook, it waits
    at Lock for ever and neither reaches the engine nor runs a hook. *)
Theorem facade_lock_discipline {E : Type}
    `{!Facade.ICache (Key:=Key) (V:=V) E} (c : Facade.Cache Hook E) k v clk :
  Forall (λ '(body, e', x, tr),
            (let r := Steps.call c false body in
             r.1 ≠ Steps.Blocked ∧
             (r.1 = Steps.Panicked ↔ Facade.NilDereference ∈ tr) ∧
             Steps.held r.2 = false ∧ Steps.deferred r.2 = 0%nat ∧
             Steps.cache r.2 = e' ∧ Steps.ret r.2 = x ∧
             (Steps.events r.2).*1 = tr ∧
             ∀ e h, (e, h) ∈ Steps.events r.2 →
                    (e = Facade.Lock → h = false) ∧
                    (e ≠ Facade.Lock → h = true)) ∧
            (let r := Steps.call c true body in
             r.1 = Steps.Blocked ∧ Steps.cache r.2 = Facade.engine c ∧
             Steps.events r.2 = []))
    [(Steps.Add k v clk, Facade.engine (Facade.Add c k v clk).1,
      Steps.VNone, (Facade.Add c k v clk).2);
     (Steps.Size, Facade.engine c,
      Steps.VSize (Facade.Size c).1, (Facade.Size c).2);
     (Steps.Get k clk, Facade.engine (Facade.Get c k clk).1.1,
      match Facade.Callbacks (Facade.Config c) with
      | Some _ => Steps.VGet (Facade.Get c k clk).1.2
      | None => Steps.VNone
      end,
      (Facade.Get c k clk).2);
     (Steps.Remove k, Facade.engine (Facade.Remove c k).1,
      Steps.VNone, (Facade.Remove c k).2);
     (Steps.Clear, Facade.engine (Facade.Clear c).1,
      Steps.VNone, (Facade.Clear c).2)].
Proof.
  assert (∀ l : list (Facade.event Hook * bool),
            Forall (λ p, (p.1 = Facade.Lock → p.2 = false) ∧
                         (p.1 ≠ Facade.Lock → p.2 = true)) l →
            ∀ e h, (e, h) ∈ l →
                   (e = Facade.Lock → h = false) ∧
                   (e ≠ Facade.Lock → h = true)) as Hall.
  { intros l Hl e h Hin. rewrite Forall_forall in Hl. apply (Hl (e, h) Hin). }
  assert (∀ tr : list (Facade.event Hook),
            Forall (λ e, e ≠ Facade.NilDereference) tr →
            Steps.Returned = Steps.Panicked ↔ Facade.NilDereference ∈ tr)
    as Hret.
  { intros tr Htr. split; [done|]. intros Hin.
    rewrite Forall_forall in Htr. by destruct (Htr _ Hin). }
  assert (∀ tr : list (Facade.event Hook),
            Facade.NilDereference ∈ tr →
            Steps.Panicked = Steps.Panicked ↔ Facade.NilDereference ∈ tr)
    as Hpanic by done.
  destruct c as [eng [ttl maxEntries [[[f|] [g|] [r|]]|]]];
    repeat apply Forall_cons_2; try apply Forall_nil_2;
    (split; [|done]); cbn; split_and!; try done;
    try (apply Hret; repeat constructor; done);
    try (apply Hpanic;
         repeat first [left|right]);
    try (apply Hall; repeat constructor; simpl; done).
Qed.

(** X21.  Through the facade with a handler configured, a Get that
    follows an Add of (k, v) returns v when the get is not later than the
    add time + expiry and the add has kept k: the recency engine keeps it
    when maxEntries >= 0; the expiry engine keeps it when k was stored
    already or maxEntries = 0, and also when maxEntries >= 0, every stored
    key has its instant in the index, and the new instant is later than
    the registered ones and than the clock readings of the purge.  The
    two calls run the add hook and then the get hook and leave the
    configuration as it was. *)
Theorem facade_add_then_get (nilKey : Key) h :
  (∀ (c : Facade.Cache Hook (LRU.lruCache Key V)) k v clk clk',
     Facade.Callbacks (Facade.Config c) = Some h →
     LRUSpec.inv (Facade.engine c) → 0 ≤ LRU.maxEntries (Facade.engine c) →
     clk' 0%nat ≤ Add (clk 0%nat) (LRU.expiry (Facade.engine c)) →
     let a := Facade.Add c k v clk in
     let g := Facade.Get a.1 k clk' in
     g.1.2 = Some v ∧
     Facade.calls (a.2 ++ g.2)
       = option_list (Facade.AddFunc h) ++ option_list (Facade.GetFunc h) ∧
     Facade.Config g.1.1 = Facade.Config c) ∧
  (∀ (c : Facade.Cache Hook (TTL.ttlCache Key V)) k v clk clk',
     Facade.Callbacks (Facade.Config c) = Some h →
     TTLSpec.inv (Facade.engine c) →
     is_Some (TTL.the_map (Facade.engine c) !! k)
       ∨ TTL.maxEntries (Facade.engine c) = 0 →
     clk' 0%nat ≤ Add (clk 0%nat) (TTL.expiry (Facade.engine c)) →
     let a := Facade.Add (ICache0:=Facade.ttl_ICache nilKey) c k v clk in
     let g := Facade.Get (ICache0:=Facade.ttl_ICache nilKey) a.1 k clk' in
     g.1.2 = Some v ∧
     Facade.calls (a.2 ++ g.2)
       = option_list (Facade.AddFunc h) ++ option_list (Facade.GetFunc h) ∧
     Facade.Config g.1.1 = Facade.Config c) ∧
  (∀ (c : Facade.Cache Hook (TTL.ttlCache Key V)) k v clk clk',
     Facade.Callbacks (Facade.Config c) = Some h →
     TTLSpec.indexed (Facade.engine c) →
     TTL.the_map (Facade.engine c) !! k = None →
     0 ≤ TTL.maxEntries (Facade.engine c) →
     (∀ i, is_Some (TTL.the_index (Facade.engine c) !! i) →
           i < TTLSpec.instant (Facade.engine c) (clk 0%nat)) →
     (∀ n, UnixNano (clk (S n))
           < TTLSpec.instant (Facade.engine c) (clk 0%nat)) →
     clk' 0%nat ≤ Add (clk 0%nat) (TTL.expiry (Facade.engine c)) →
     let a := Facade.Add (ICache0:=Facade.ttl_ICache nilKey) c k v clk in
     let g := Facade.Get (ICache0:=Facade.ttl_ICache nilKey) a.1 k clk' in
     g.1.2 = Some v ∧
     Facade.calls (a.2 ++ g.2)
       = option_list (Facade.AddFunc h) ++ option_list (Facade.GetFunc h) ∧
     Facade.Config g.1.1 = Facade.Config c).
Proof.
  assert (∀ (c : Facade.Cache Hook (TTL.ttlCache Key V)) k v clk clk',
            Facade.Callbacks (Facade.Config c) = Some h →
            TTLSpec.inv (Facade.engine c) →
            is_Some (TTL.the_map
                       (TTL.add nilKey (Facade.engine c) k v clk) !! k) →
            clk' 0%nat ≤ Add (clk 0%nat) (TTL.expiry (Facade.engine c)) →
            let a := Facade.Add (ICache0:=Facade.ttl_ICache nilKey) c k v clk in
            let g :=
              Facade.Get (ICache0:=Facade.ttl_ICache nilKey) a.1 k clk' in
            g.1.2 = Some v ∧
            Facade.calls (a.2 ++ g.2)
              = option_list (Facade.AddFunc h)
                ++ option_list (Facade.GetFunc h) ∧
            Facade.Config g.1.1 = Facade.Config c) as Httl.
  { intros c k v clk clk' Hh Hc Hk Hle a g.
    unfold g, a, Facade.Get, Facade.Add, Facade.dispatch. simpl.
    rewrite Hh. simpl. split_and!; [|
      unfold Facade.OnAdd, Facade.OnGet;
      by destruct (Facade.AddFunc h), (Facade.GetFunc h)|done].
    rewrite TTLFacts.ttl_add_get by done.
    unfold After.
    destruct (Z.ltb_spec (Add (clk 0%nat) (TTL.expiry (Facade.engine c)))
                (clk' 0%nat)); [lia|done]. }
  split_and!.
  - intros c k v clk clk' Hh Hc Hmax Hle a g.
    unfold g, a, Facade.Get, Facade.Add, Facade.dispatch. simpl.
    rewrite Hh. simpl. split_and!; [|
      unfold Facade.OnAdd, Facade.OnGet;
      by destruct (Facade.AddFunc h), (Facade.GetFunc h)|done].
    rewrite LRUFacts.lru_add_get
      by (done || by apply LRUFacts.lru_add_retains).
    unfold After.
    destruct (Z.ltb_spec (Add (clk 0%nat) (LRU.expiry (Facade.engine c)))
                (clk' 0%nat)); [lia|done].
  - intros c k v clk clk' Hh Hc Hk Hle. apply Httl; [done|done| |done].
    rewrite (TTLFacts.ttl_add_keeps_stored nilKey) by done. eauto.
  - intros c k v clk clk' Hh Hix Hk Hmax Hlt Hclk Hle.
    apply Httl; [done|by destruct Hix| |done].
    rewrite (TTLFacts.ttl_add_keeps_new nilKey) by done. eauto.
Qed.

(** X22.  With a nil Callbacks in the configuration, run statement by
    statement: Add and Remove panic at the hook, after the call of the
    engine, so the entry is stored (or removed) all the same; Get panics
    before its call of the engine, which is left as it was, and returns
    no value; Size and Clear have no such statement and return.  The
    deferred unlock frees the mutex in each case. *)
Theorem facade_nil_callbacks {E : Type}
    `{!Facade.ICache (Key:=Key) (V:=V) E} (c : Facade.Cache Hook E) k v clk :
  Facade.Callbacks (Facade.Config c) = None →
  (let r := Steps.call c false (Steps.Add k v clk) in
   r.1 = Steps.Panicked ∧ Steps.held r.2 = false ∧
   Steps.cache r.2 = Facade.add (Facade.engine c) k v clk ∧
   (Steps.events r.2).*1
     = [Facade.Lock; Facade.Delegate Facade.Madd; Facade.NilDereference;
        Facade.Unlock]) ∧
  (let r := Steps.call c false (Steps.Remove k) in
   r.1 = Steps.Panicked ∧ Steps.held r.2 = false ∧
   Steps.cache r.2 = Facade.remove (Facade.engine c) k ∧
   (Steps.events r.2).*1
     = [Facade.Lock; Facade.Delegate Facade.Mremove; Facade.NilDereference;
        Facade.Unlock]) ∧
  (let r := Steps.call c false (Steps.Get k clk) in
   r.1 = Steps.Panicked ∧ Steps.held r.2 = false ∧
   Steps.cache r.2 = Facade.engine c ∧ Steps.ret r.2 = Steps.VNone ∧
   (Steps.events r.2).*1
     = [Facade.Lock; Facade.NilDereference; Facade.Unlock]) ∧
  (let r := Steps.call c false Steps.Size in
   r.1 = Steps.Returned ∧
   Steps.ret r.2 = Steps.VSize (Facade.size (Facade.engine c))) ∧
  (let r := Steps.call c false Steps.Clear in
   r.1 = Steps.Returned ∧
   Steps.cache r.2 = Facade.clear (Facade.engine c)) ∧
  Facade.engine (Facade.Add c k v clk).1
    = Facade.add (Facade.engine c) k v clk ∧
  Facade.engine (Facade.Remove c k).1 = Facade.remove (Facade.engine c) k ∧
  (Facade.Get c k clk).1 = (c, None).
Proof.
  intros Hnil. unfold Steps.call, Facade.Get.
  rewrite Hnil. cbn. rewrite Hnil. done.
Qed.

End facade_extras.

(** * Further properties of expiry and of eviction *)

Section boundary_extras.
Context `{Countable Key} {V : Type} (nilKey : Key).

(** X23.  The expiry time itself is still within the life of an entry for
    get, in both engines: a get at exactly that time is a hit and a get
    at any later time is a miss.  The capacity purge of the expiry engine
    draws the line one nanosecond earlier: run with no clock reading
    before the entry's instant, it evicts the entry. *)
Theorem expiry_boundary :
  (∀ (c : LRU.lruCache Key V) k p e,
     LRUSpec.inv c → LRU.the_map c !! k = Some p →
     LRU.elems c !! p = Some e →
     (LRU.get c k (ttl e)).2 = Some (value e) ∧
     ∀ now, ttl e < now → (LRU.get c k now).2 = None) ∧
  (∀ (c : TTL.ttlCache Key V) k e,
     TTLSpec.inv c → TTL.the_map c !! k = Some e →
     (∀ clk, clk 0%nat = ttl e → (TTL.get c k clk).2 = Some (value e)) ∧
     (∀ clk, ttl e < clk 0%nat → (TTL.get c k clk).2 = None) ∧
     (∀ clk, TTL.the_index c !! UnixNano (ttl e) = Some k →
             (∀ n, UnixNano (ttl e) ≤ UnixNano (clk n)) →
             TTL.the_map (TTL.purgeToCapacity nilKey c clk) !! k = None)).
Proof.
  split.
  - intros c k p e Hc Hk He.
    assert (∀ now, (LRU.get c k now).2
                   = if After now (ttl e) then None else Some (value e)) as Hget.
    { intros now.
      destruct (LRUFacts.get_refines c k now Hc) as (_ & _ & ->).
      unfold LRUSpec.seq_get.
      rewrite LRUFacts.find_key_contents, Hk by done. simpl. rewrite He.
      by destruct (After now (ttl e)). }
    split.
    + rewrite Hget. unfold After. by rewrite Z.ltb_irrefl.
    + intros now Hlt. rewrite Hget. unfold After.
      destruct (Z.ltb_spec (ttl e) now); [done|lia].
  - intros c k e Hc Hk. split_and!.
    + intros clk Hclk. rewrite TTLFacts.ttl_get_view, Hk, Hclk.
      unfold After. by rewrite Z.ltb_irrefl.
    + intros clk Hlt. rewrite TTLFacts.ttl_get_view, Hk. unfold After.
      destruct (Z.ltb_spec (ttl e) (clk 0%nat)); [done|lia].
    + intros clk Hreg Hclk.
      destruct (TTLFacts.ttl_purge_net nilKey c clk Hc) as (Hexp & _).
      by destruct (Hexp (UnixNano (ttl e)) Hclk (UnixNano (ttl e)) k Hreg).
Qed.

(** X24.  An add of a new key to an expiry engine keeps that key, so that
    a get finds it, when maxEntries is not negative, every stored key has
    its one instant in the index, the new instant is later than all the
    registered ones (the clock has moved on) and the purge reads the
    clock before the new instant. *)
Theorem ttl_add_keeps_new_key (c : TTL.ttlCache Key V) k v clk :
  TTLSpec.indexed c → TTL.the_map c !! k = None → 0 ≤ TTL.maxEntries c →
  (∀ i, is_Some (TTL.the_index c !! i) → i < TTLSpec.instant c (clk 0%nat)) →
  (∀ n, UnixNano (clk (S n)) < TTLSpec.instant c (clk 0%nat)) →
  let c' := TTL.add nilKey c k v clk in
  TTL.the_map c' !! k = Some (Entry k (Add (clk 0%nat) (TTL.expiry c)) v) ∧
  TTLSpec.indexed c' ∧
  ∀ clk', clk' 0%nat ≤ Add (clk 0%nat) (TTL.expiry c) →
          (TTL.get c' k clk').2 = Some v.
Proof.
  intros Hix Hk Hmax Hlt Hclk c'.
  pose proof (TTLFacts.ttl_add_keeps_new nilKey c k v clk Hix Hk Hmax Hlt Hclk)
    as Hkept.
  fold c' in Hkept. split_and!; [done| |].
  - apply TTLFacts.ttl_indexed_add; [done|].
    intros k' Hk'.
    assert (TTLSpec.instant c (clk 0%nat) < TTLSpec.instant c (clk 0%nat));
      [|lia].
    apply Hlt. eauto.
  - intros clk' Hle. unfold c'.
    rewrite TTLFacts.ttl_add_get by (destruct Hix; eauto).
    unfold After.
    destruct (Z.ltb_spec (Add (clk 0%nat) (TTL.expiry c)) (clk' 0%nat));
      [lia|done].
Qed.

End boundary_extras.

Section recency_run_extras.
Context `{Countable Key} {V : Type}.

(** X25.  After inserts of distinct keys into a new recency engine and
    nothing else, the engine holds the last maxEntries keys inserted, the
    latest in front (all of them when maxEntries = 0): every earlier key
    has been evicted and none of the later ones. *)
Theorem lru_keeps_most_recent_keys maxEntries expiry
    (l : list (Key * V * Time)) :
  0 ≤ maxEntries → NoDup (l.*1.*1) →
  let c := Runs.lru_after (LRU.newLRU maxEntries expiry)
             ((λ x, LRUSpec.CAdd x.1.1 x.1.2 x.2) <$> l) in
  let kept := if decide (maxEntries = 0) then reverse (l.*1.*1)
              else take (Z.to_nat maxEntries) (reverse (l.*1.*1)) in
  LRUSpec.keys c = kept ∧
  (∀ k, is_Some (LRU.the_map c !! k) ↔ k ∈ kept) ∧
  LRU.size c = Z.of_nat (length kept).
Proof.
  intros Hmax Hnd c kept.
  pose proof (RunFacts.lru_adds_keys maxEntries expiry l Hmax Hnd) as Hk.
  fold c kept in Hk.
  assert (LRUSpec.inv c) as Hc.
  { apply LRUFacts.lru_reachable_inv, RunFacts.lru_after_reachable,
      LRUSpec.reach_new. }
  split_and!; [done| |].
  - intros k. by rewrite <- Hk, LRUFacts.elem_of_keys.
  - rewrite LRUFacts.size_contents by done.
    rewrite <- Hk. unfold LRUSpec.keys. by rewrite length_fmap.
Qed.

End recency_run_extras.

(** * Instances of the further properties on the example engines *)

Lemma lru_remove_spec_witness :
  let c := Examples.fill Examples.lru5 [1; 2; 3] in
  LRUSpec.inv c ∧
  LRU.the_map (LRU.remove c 2) = delete 2 (LRU.the_map c).
Proof.
  intros c.
  assert (LRUSpec.inv c) as Hc
    by apply LRUFacts.lru_reachable_inv, lru_reachable_fill, LRUSpec.reach_new.
  split; [exact Hc|].
  destruct (lru_remove_spec c 2 Hc) as (_ & Hm & _). exact Hm.
Defined.

Lemma lru_add_refreshes_witness :
  let c := Examples.fill Examples.lru5 [1; 2; 3] in
  LRUSpec.inv c ∧
  ∃ p, LRU.the_map c !! 2 = Some p ∧
       LRU.size (LRU.add c 2 99 Examples.now0) = LRU.size c.
Proof.
  intros c.
  assert (LRUSpec.inv c) as Hc
    by apply LRUFacts.lru_reachable_inv, lru_reachable_fill, LRUSpec.reach_new.
  split; [exact Hc|].
  destruct (LRU.the_map c !! 2) as [p|] eqn:Hk.
  - exists p. split; [reflexivity|].
    destruct (lru_add_refreshes c 2 99 Examples.now0 p Hc Hk) as (_ & _ & _ & Hs).
    exact Hs.
  - vm_compute in Hk. discriminate Hk.
Defined.

Lemma lru_get_touches_one_key_witness :
  let c := Examples.fill Examples.lru5 [1; 2; 3] in
  LRUSpec.inv c ∧
  ∀ k', k' ≠ 2 →
    LRU.the_map (LRU.get c 2 Examples.now0).1 !! k' = LRU.the_map c !! k'.
Proof.
  intros c.
  assert (LRUSpec.inv c) as Hc
    by apply LRUFacts.lru_reachable_inv, lru_reachable_fill, LRUSpec.reach_new.
  split; [exact Hc|].
  destruct (lru_get_touches_one_key c 2 Examples.now0 Hc) as (Hother & _).
  exact Hother.
Defined.

Lemma lru_size_counts_keys_witness :
  let c := Examples.fill Examples.lru5 [1; 2; 3] in
  LRUSpec.reachable c ∧ LRU.size c = Z.of_nat (base.size (LRU.the_map c)).
Proof.
  intros c.
  assert (LRUSpec.reachable c) as Hr
    by apply lru_reachable_fill, LRUSpec.reach_new.
  split; [exact Hr|].
  destruct (lru_size_counts_keys c Hr) as (Hs & _). exact Hs.
Defined.

Lemma lru_unbounded_never_evicts_witness :
  let c := Examples.fill (LRU.newLRU 0 maxDuration) [1; 2; 3] in
  LRUSpec.inv c ∧ LRU.maxEntries c = 0 ∧
  ∀ k', is_Some (LRU.the_map c !! k') →
        is_Some (LRU.the_map (LRU.add c 4 40 Examples.now0) !! k').
Proof.
  intros c.
  assert (LRUSpec.inv c) as Hc
    by apply LRUFacts.lru_reachable_inv, lru_reachable_fill, LRUSpec.reach_new.
  assert (LRU.maxEntries c = 0) as Hz by (vm_compute; reflexivity).
  split_and!; [exact Hc|exact Hz|].
  destruct (lru_unbounded_never_evicts c 4 40 Examples.now0 Hc Hz)
    as (_ & Hkeep & _).
  exact Hkeep.
Defined.

Lemma lru_negative_maxEntries_stores_nothing_witness :
  let c := Examples.fill (LRU.newLRU (-1) maxDuration) [1; 2] in
  LRUSpec.reachable c ∧ LRU.maxEntries c < 0 ∧ LRU.size c = 0.
Proof.
  intros c.
  assert (LRUSpec.reachable c) as Hr
    by apply lru_reachable_fill, LRUSpec.reach_new.
  assert (LRU.maxEntries c < 0) as Hneg by (vm_compute; reflexivity).
  split_and!; [exact Hr|exact Hneg|].
  destruct (lru_negative_maxEntries_stores_nothing c Hr Hneg) as (_ & Hs & _).
  exact Hs.
Defined.

Lemma lru_front_survives_next_add_witness :
  let c := Examples.fill Examples.lru5 [1; 2; 3] in
  let e := Entry 3 (Add Examples.now0 maxDuration) 30 in
  LRUSpec.inv c ∧ head (LRUSpec.contents c) = Some e ∧ key e ≠ 4 ∧
  0 ≤ LRU.maxEntries c ∧ LRU.maxEntries c ≠ 1 ∧
  is_Some (LRU.the_map (LRU.add c 4 40 Examples.now0) !! key e).
Proof.
  intros c e.
  assert (LRUSpec.inv c) as Hc
    by apply LRUFacts.lru_reachable_inv, lru_reachable_fill, LRUSpec.reach_new.
  assert (head (LRUSpec.contents c) = Some e) as Hhead
    by (vm_compute; reflexivity).
  assert (key e ≠ 4) as Hk by (vm_compute; discriminate).
  assert (0 ≤ LRU.maxEntries c) as Hmax by (vm_compute; discriminate).
  assert (LRU.maxEntries c ≠ 1) as H1 by (vm_compute; discriminate).
  split_and!; [exact Hc|exact Hhead|exact Hk|exact Hmax|exact H1|].
  destruct (@lru_front_survives_next_add Z _ _ Z) as (_ & _ & Hkeep).
  exact (proj2 (Hkeep c e 4 40 Examples.now0 Hc Hhead Hk Hmax H1)).
Defined.

Lemma lru_add_twice_witness :
  let c := Examples.fill Examples.lru5 [1; 2; 3] in
  LRUSpec.inv c ∧ 0 ≤ LRU.maxEntries c ∧
  LRUSpec.contents (LRU.add (LRU.add c 7 1 Examples.now0) 7 2 Examples.now0)
    = LRUSpec.contents (LRU.add c 7 2 Examples.now0).
Proof.
  intros c.
  assert (LRUSpec.inv c) as Hc
    by apply LRUFacts.lru_reachable_inv, lru_reachable_fill, LRUSpec.reach_new.
  assert (0 ≤ LRU.maxEntries c) as Hmax by (vm_compute; discriminate).
  split_and!; [exact Hc|exact Hmax|].
  exact (lru_add_twice c 7 1 2 Examples.now0 Examples.now0 Hc Hmax).
Defined.

Lemma lru_removeOldest_spec_witness :
  let c := Examples.fill Examples.lru5 [1; 2; 3] in
  LRUSpec.inv c ∧
  LRUSpec.contents (LRU.removeOldest c)
    = LRUSpec.drop_last (LRUSpec.contents c).
Proof.
  intros c.
  assert (LRUSpec.inv c) as Hc
    by apply LRUFacts.lru_reachable_inv, lru_reachable_fill, LRUSpec.reach_new.
  split; [exact Hc|].
  destruct (lru_removeOldest_spec c Hc) as (_ & Hs & _). exact Hs.
Defined.

Lemma ttl_get_spec_witness :
  let c := TTL.add None Examples.ttl2 (Some 1) 10
             (Examples.at_time Examples.now0) in
  TTLSpec.inv c ∧
  TTLSpec.inv (TTL.get c (Some 1) (Examples.at_time Examples.now0)).1.
Proof.
  intros c.
  assert (TTLSpec.inv c) as Hc
    by apply TTLFacts.ttl_inv_add, TTLFacts.ttl_inv_new.
  split; [exact Hc|].
  destruct (ttl_get_spec c (Some 1) (Examples.at_time Examples.now0) Hc)
    as (Hc' & _).
  exact Hc'.
Defined.

Lemma ttl_hit_renews_entry_witness :
  let c := TTL.add None Examples.ttl2 (Some 1) 10
             (Examples.at_time Examples.now0) in
  let e := Entry (Some 1) (Add Examples.now0 Second) 10 in
  TTLSpec.inv c ∧ TTL.the_map c !! Some 1 = Some e ∧
  Examples.now0 ≤ ttl e ∧
  (TTL.get c (Some 1) (Examples.at_time Examples.now0)).2 = Some 10.
Proof.
  intros c e.
  assert (TTLSpec.inv c) as Hc
    by apply TTLFacts.ttl_inv_add, TTLFacts.ttl_inv_new.
  assert (TTL.the_map c !! Some 1 = Some e) as Hk by (vm_compute; reflexivity).
  assert (Examples.at_time Examples.now0 0%nat ≤ ttl e) as Hlive
    by (vm_compute; discriminate).
  split_and!; [exact Hc|exact Hk|exact Hlive|].
  destruct (ttl_hit_renews_entry c (Some 1) e
              (Examples.at_time Examples.now0)
              (Examples.at_time Examples.now0) Hc Hk Hlive) as (Hhit & _).
  exact Hhit.
Defined.

Lemma ttl_remove_spec_witness :
  let c := TTL.add None Examples.ttl2 (Some 1) 10
             (Examples.at_time Examples.now0) in
  TTLSpec.inv c ∧
  TTL.the_map (TTL.remove c (Some 1)) = delete (Some 1) (TTL.the_map c).
Proof.
  intros c.
  assert (TTLSpec.inv c) as Hc
    by apply TTLFacts.ttl_inv_add, TTLFacts.ttl_inv_new.
  split; [exact Hc|].
  destruct (ttl_remove_spec c (Some 1) Hc) as (_ & Hm & _). exact Hm.
Defined.

Lemma ttl_unbounded_never_evicts_witness :
  let c := TTL.add None (TTL.newTTLCache 0 Second false) (Some 1) 10
             (Examples.at_time Examples.now0) in
  let late := Examples.at_time (Examples.now0 + 5 * Second) in
  TTLSpec.inv c ∧ TTL.maxEntries c = 0 ∧
  is_Some (TTL.the_map c !! Some 1) ∧
  is_Some (TTL.the_map (TTL.add None c (Some 2) 20 late) !! Some 1) ∧
  TTL.size (TTL.add None c (Some 2) 20 late) = TTL.size c + 1.
Proof.
  intros c late.
  assert (TTLSpec.inv c) as Hc
    by apply TTLFacts.ttl_inv_add, TTLFacts.ttl_inv_new.
  assert (TTL.maxEntries c = 0) as Hz by (vm_compute; reflexivity).
  assert (is_Some (TTL.the_map c !! Some 1)) as Hk
    by (vm_compute; eexists; reflexivity).
  assert (TTL.the_map c !! Some 2 = None) as Hnew by (vm_compute; reflexivity).
  split_and!; [exact Hc|exact Hz|exact Hk| |].
  - destruct (ttl_unbounded_never_evicts None c (Some 2) 20 late Hc Hz)
      as (_ & Hkeep & _).
    exact (Hkeep (Some 1) Hk).
  - destruct (ttl_unbounded_never_evicts None c (Some 2) 20 late Hc Hz)
      as (_ & _ & _ & _ & Hs).
    exact (Hs Hnew).
Defined.

Lemma ttl_negative_maxEntries_stores_nothing_witness :
  let c := TTL.add None (TTL.newTTLCache (-1) Second false) (Some 1) 10
             (Examples.at_time Examples.now0) in
  TTLSpec.reachable None c ∧ TTL.maxEntries c < 0 ∧ TTL.the_map c = ∅.
Proof.
  intros c.
  assert (TTLSpec.reachable None c) as Hr.
  { apply (TTLSpec.reach_exec None _
             (TTLSpec.CAdd (Some 1) 10 (Examples.at_time Examples.now0))).
    apply TTLSpec.reach_new. }
  assert (TTL.maxEntries c < 0) as Hneg by (vm_compute; reflexivity).
  split_and!; [exact Hr|exact Hneg|].
  destruct (ttl_negative_maxEntries_stores_nothing None c Hr Hneg) as (Hm & _).
  exact Hm.
Defined.

Lemma ttl_reachable_invariant_witness :
  TTLSpec.reachable None Examples.collided ∧
  (base.size (TTL.the_index Examples.collided)
     ≤ base.size (TTL.the_map Examples.collided))%nat.
Proof.
  assert (TTLSpec.reachable None Examples.collided) as Hr.
  { apply (TTLSpec.reach_exec None _
             (TTLSpec.CAdd (Some 2) 20 (Examples.at_time Examples.now0))).
    apply (TTLSpec.reach_exec None _
             (TTLSpec.CAdd (Some 1) 10 (Examples.at_time Examples.now0))).
    apply TTLSpec.reach_new. }
  split; [exact Hr|].
  destruct (ttl_reachable_invariant None Examples.collided Hr)
    as (_ & _ & Hle & _).
  exact Hle.
Defined.

Lemma lru_no_early_expiry_witness :
  let os := [LRUSpec.CAdd 1 10 Examples.now0;
             LRUSpec.CAdd 2 20 (Examples.now0 + 5)] in
  (∀ o t, o ∈ os → t ∈ Runs.lru_written_at o → Examples.now0 ≤ t) ∧
  ∀ e, e ∈ LRUSpec.contents (Runs.lru_after (LRU.newLRU 5 Second) os) →
       Examples.now0 + Second ≤ ttl e.
Proof.
  intros os.
  assert (∀ o t, o ∈ os → t ∈ Runs.lru_written_at o → Examples.now0 ≤ t)
    as Ht.
  { intros o t Ho Hin.
    apply elem_of_cons in Ho as [->|Ho];
      [|apply elem_of_cons in Ho as [->|Ho]; [|by apply elem_of_nil in Ho]];
      simpl in Hin; apply list_elem_of_singleton in Hin as ->;
      vm_compute; discriminate. }
  split; [exact Ht|].
  destruct (lru_no_early_expiry (Key:=Z) (V:=Z) 5 Second os Examples.now0 Ht)
    as (Hb & _).
  exact Hb.
Defined.

Lemma lru_mode_never_expires_witness :
  let os := [LRUSpec.CAdd 1 10 Examples.now0;
             LRUSpec.CGet 1 (Examples.now0 + 5)] in
  (∀ o t, o ∈ os → t ∈ Runs.lru_written_at o → 0 ≤ t) ∧
  LRU.expiry (Runs.lru_after (Facade.LRUCacheMode Examples.config20) os)
    = maxDuration.
Proof.
  intros os.
  assert (∀ o t, o ∈ os → t ∈ Runs.lru_written_at (Key:=Z) (V:=Z) o → 0 ≤ t)
    as Ht.
  { intros o t Ho Hin.
    apply elem_of_cons in Ho as [->|Ho];
      [|apply elem_of_cons in Ho as [->|Ho]; [|by apply elem_of_nil in Ho]];
      simpl in Hin.
    - apply list_elem_of_singleton in Hin as ->. vm_compute. discriminate.
    - by apply elem_of_nil in Hin. }
  split; [exact Ht|].
  destruct (lru_mode_never_expires (Key:=Z) (V:=Z) Examples.config20 os Ht)
    as (_ & Hexp & _).
  exact Hexp.
Defined.

Lemma ttl_no_early_expiry_witness :
  let os := [TTLSpec.CAdd (Some 1) 10 (Examples.at_time Examples.now0)] in
  (∀ o t, o ∈ os → t ∈ Runs.ttl_written_at o → Examples.now0 ≤ t) ∧
  ∀ k e,
    TTL.the_map (Runs.ttl_after None (TTL.newTTLCache 2 Second true) os) !! k
      = Some e →
    Examples.now0 + Second ≤ ttl e.
Proof.
  intros os.
  assert (∀ o t, o ∈ os →
            t ∈ Runs.ttl_written_at (Key:=option Z) (V:=Z) o →
            Examples.now0 ≤ t) as Ht.
  { intros o t Ho Hin.
    apply elem_of_cons in Ho as [->|Ho]; [|by apply elem_of_nil in Ho].
    simpl in Hin. apply list_elem_of_singleton in Hin as ->.
    vm_compute. discriminate. }
  split; [exact Ht|].
  destruct (ttl_no_early_expiry (V:=Z) (None : option Z) 2 Second true os
              Examples.now0 Ht) as (Hb & _).
  exact Hb.
Defined.

Lemma modes_use_the_configuration_witness :
  let cc := Facade.NewCacheConfig 4 20 (Some Examples.callbacks) in
  Facade.TTL cc ≠ 0 ∧
  Facade.LRUWithTTLCacheMode (Key:=Z) (V:=Z) cc = (cc, LRU.newLRU 20 4).
Proof.
  intros cc.
  assert (Facade.TTL cc ≠ 0) as Hnz by (vm_compute; discriminate).
  split; [exact Hnz|].
  destruct (modes_use_the_configuration (Key:=Z) (V:=Z) cc true)
    as (_ & Hkeep & _).
  destruct (Hkeep Hnz) as [Hlru _]. exact Hlru.
Defined.

Lemma facade_add_then_get_witness :
  let c := Examples.lruCache20 in
  let t : Facade.Cache Examples.hook (TTL.ttlCache (option Z) Z) :=
    Facade.NewCache
      (TTL.add None Examples.ttlCache20 (Some 1) 10
         (Examples.at_time Examples.now0))
      Examples.config20 in
  let clk := Examples.at_time Examples.now0 in
  let clk5 := Examples.at_time (Examples.now0 + 5) in
  (Facade.Callbacks (Facade.Config c) = Some Examples.callbacks ∧
   LRUSpec.inv (Facade.engine c) ∧ 0 ≤ LRU.maxEntries (Facade.engine c) ∧
   clk 0%nat ≤ Add (clk 0%nat) (LRU.expiry (Facade.engine c)) ∧
   (Facade.Get (Facade.Add c 1 10 clk).1 1 clk).1.2 = Some 10) ∧
  (Facade.Callbacks (Facade.Config t) = Some Examples.callbacks ∧
   TTLSpec.indexed (Facade.engine t) ∧
   TTL.the_map (Facade.engine t) !! Some 2 = None ∧
   (∀ i, is_Some (TTL.the_index (Facade.engine t) !! i) →
         i < TTLSpec.instant (Facade.engine t) (clk5 0%nat)) ∧
   (Facade.Get (ICache0:=Facade.ttl_ICache None)
      (Facade.Add (ICache0:=Facade.ttl_ICache None) t (Some 2) 20 clk5).1
      (Some 2) clk5).1.2 = Some 20).
Proof.
  intros c t clk clk5. split.
  - assert (Facade.Callbacks (Facade.Config c) = Some Examples.callbacks)
      as Hh by reflexivity.
    assert (LRUSpec.inv (Facade.engine c)) as Hc by apply LRUFacts.inv_new.
    assert (0 ≤ LRU.maxEntries (Facade.engine c)) as Hmax
      by (vm_compute; discriminate).
    assert (clk 0%nat ≤ Add (clk 0%nat) (LRU.expiry (Facade.engine c)))
      as Hle by (vm_compute; discriminate).
    split_and!; [exact Hh|exact Hc|exact Hmax|exact Hle|].
    destruct (facade_add_then_get (V:=Z) (0 : Z) Examples.callbacks)
      as [Hlru _].
    destruct (Hlru c 1 10 clk clk Hh Hc Hmax Hle) as (Hv & _). exact Hv.
  - assert (Facade.Callbacks (Facade.Config t) = Some Examples.callbacks)
      as Hh by reflexivity.
    assert (TTLSpec.indexed (Facade.engine t)) as Hix.
    { apply TTLFacts.ttl_indexed_add.
      - apply TTLFacts.ttl_indexed_empty;
          [reflexivity|apply TTLFacts.ttl_inv_new].
      - intros k' Hk'. vm_compute in Hk'. discriminate Hk'. }
    assert (TTL.the_map (Facade.engine t) !! Some 2 = None) as Hk
      by (vm_compute; reflexivity).
    assert (∀ i, is_Some (TTL.the_index (Facade.engine t) !! i) →
                 i < TTLSpec.instant (Facade.engine t) (clk5 0%nat)) as Hlt.
    { assert (TTL.the_index (Facade.engine t)
              = {[ 1700000000000000010 := Some 1 ]}) as ->
        by (vm_compute; reflexivity).
      intros i [k' Hi]. apply lookup_singleton_Some in Hi as [<- _].
      vm_compute. reflexivity. }
    split_and!; [exact Hh|exact Hix|exact Hk|exact Hlt|].
    destruct (facade_add_then_get (V:=Z) (None : option Z) Examples.callbacks)
      as (_ & _ & Hnew).
    destruct (Hnew t (Some 2) 20 clk5 clk5 Hh Hix Hk) as (Hv & _);
      [vm_compute; discriminate|exact Hlt
      |intros n; vm_compute; reflexivity|vm_compute; discriminate|].
    exact Hv.
Defined.

Lemma facade_nil_callbacks_witness :
  let cc := Facade.NewCacheConfig (Hook:=Examples.hook) 0 20 None in
  let c := Facade.NewCache (Facade.LRUCacheMode (Key:=Z) (V:=Z) cc) cc in
  let r := Steps.call c false
             (Steps.Add 1 10 (Examples.at_time Examples.now0)) in
  Facade.Callbacks (Facade.Config c) = None ∧
  r.1 = Steps.Panicked ∧ Steps.held r.2 = false ∧
  LRU.size (Steps.cache r.2) = 1.
Proof.
  intros cc c r.
  assert (Facade.Callbacks (Facade.Config c) = None) as Hnil by reflexivity.
  split; [exact Hnil|].
  destruct (facade_nil_callbacks c 1 10 (Examples.at_time Examples.now0) Hnil)
    as ((Hpanic & Hfree & Heng & _) & _).
  split_and!; [exact Hpanic|exact Hfree|].
  unfold r. rewrite Heng. vm_compute. reflexivity.
Defined.

Lemma expiry_boundary_witness :
  let c := TTL.add None Examples.ttl2 (Some 1) 10
             (Examples.at_time Examples.now0) in
  let e := Entry (Some 1) (Add Examples.now0 Second) 10 in
  TTLSpec.inv c ∧ TTL.the_map c !! Some 1 = Some e ∧
  (TTL.get c (Some 1) (Examples.at_time (ttl e))).2 = Some 10.
Proof.
  intros c e.
  assert (TTLSpec.inv c) as Hc
    by apply TTLFacts.ttl_inv_add, TTLFacts.ttl_inv_new.
  assert (TTL.the_map c !! Some 1 = Some e) as Hk by (vm_compute; reflexivity).
  split_and!; [exact Hc|exact Hk|].
  destruct (expiry_boundary (V:=Z) (None : option Z)) as [_ Httl].
  destruct (Httl c (Some 1) e Hc Hk) as (Hat & _).
  exact (Hat (Examples.at_time (ttl e)) eq_refl).
Defined.

Lemma ttl_add_keeps_new_key_witness :
  let c := TTL.add None Examples.ttl2 (Some 1) 10
             (Examples.at_time Examples.now0) in
  let clk := Examples.at_time (Examples.now0 + 5) in
  TTLSpec.indexed c ∧ TTL.the_map c !! Some 2 = None ∧
  0 ≤ TTL.maxEntries c ∧
  (∀ i, is_Some (TTL.the_index c !! i) → i < TTLSpec.instant c (clk 0%nat)) ∧
  (∀ n, UnixNano (clk (S n)) < TTLSpec.instant c (clk 0%nat)) ∧
  TTL.the_map (TTL.add None c (Some 2) 20 clk) !! Some 2
    = Some (Entry (Some 2) (Add (clk 0%nat) (TTL.expiry c)) 20).
Proof.
  intros c clk.
  assert (TTLSpec.indexed c) as Hix.
  { apply TTLFacts.ttl_indexed_add.
    - apply TTLFacts.ttl_indexed_empty; [reflexivity|apply TTLFacts.ttl_inv_new].
    - intros k' Hk'. vm_compute in Hk'. discriminate Hk'. }
  assert (TTL.the_map c !! Some 2 = None) as Hk by (vm_compute; reflexivity).
  assert (0 ≤ TTL.maxEntries c) as Hmax by (vm_compute; discriminate).
  assert (∀ i, is_Some (TTL.the_index c !! i) →
               i < TTLSpec.instant c (clk 0%nat)) as Hlt.
  { assert (TTL.the_index c = {[ 1700000001000000000 := Some 1 ]}) as ->
      by (vm_compute; reflexivity).
    intros i [k' Hi]. apply lookup_singleton_Some in Hi as [<- _].
    vm_compute. reflexivity. }
  assert (∀ n, UnixNano (clk (S n)) < TTLSpec.instant c (clk 0%nat)) as Hclk
    by (intros n; vm_compute; reflexivity).
  split_and!; [exact Hix|exact Hk|exact Hmax|exact Hlt|exact Hclk|].
  destruct (ttl_add_keeps_new_key None c (Some 2) 20 clk Hix Hk Hmax Hlt Hclk)
    as (Hkept & _).
  exact Hkept.
Defined.

Lemma lru_keeps_most_recent_keys_witness :
  let l := [(1, 10, Examples.now0); (2, 20, Examples.now0);
            (3, 30, Examples.now0)] in
  0 ≤ 2 ∧ NoDup (l.*1.*1) ∧
  LRUSpec.keys
    (Runs.lru_after (LRU.newLRU 2 maxDuration)
       ((λ x, LRUSpec.CAdd x.1.1 x.1.2 x.2) <$> l))
  = [3; 2].
Proof.
  intros l.
  assert (0 ≤ 2) as Hmax by (vm_compute; discriminate).
  assert (NoDup (l.*1.*1)) as Hnd 
    by (apply (bool_decide_unpack (NoDup (l.*1.*1))); vm_compute; exact I).
  split_and!; [exact Hmax|exact Hnd|].
  destruct (lru_keeps_most_recent_keys (V:=Z) 2 maxDuration l Hmax Hnd)
    as (Hk & _).
  exact Hk.
Defined.
